(** * Text Discovery: the word-finding core of Shared-Minds

    A shallow embedding of [docs/text-discovery/words.js] and of the world
    model and systems of [docs/text-discovery/main.js] (letters, seeding,
    spotlight scan, capture), with the properties of the design document
    stated and settled against it.

    Conventions of the embedding.
    - JavaScript numbers: integers are [Z]; times, coordinates and fade
      fractions are rationals [Q] (compared with [==]).  The rounding of
      doubles is modelled where it decides what the program does: in the
      clock arithmetic of the capture machine ([fsub], [fmul], [fdiv], each
      the exact result rounded by [round64]) and in the counter of the
      generator, which outgrows the exact integers ([toDouble]).  The fade
      and layout arithmetic is exact, and overflow to [Infinity] is left
      out.
    - A word is a [string]; a grid character (a one-character JS string) is
      an [ascii].
    - An object used as a map ([node.c] of the trie) is a [gmap]; arrays are
      lists read with [!!] and written with [<[i:=x]>].
    - A function that mutates the world takes and returns it.  Where the
      source would throw (a property read on [undefined]) or would not
      leave a loop, the function returns [None].
    - Objects compared by reference ([Array.prototype.indexOf]) carry the
      number of their allocation, [ref]. *)

From Stdlib Require Import ZArith Ascii String QArith Qround Qminmax Qpower DecimalString Lia Lqa.
From stdpp Require Import gmap strings list.

Set Warnings "-register-all".
Open Scope Z_scope.

(* ============================== UTILITIES ================================== *)

Definition Qltb (a b : Q) : bool := negb (Qle_bool b a).

(** Doubles.  A finite double is [m * 2^e] for integers [|m| < 2^53] and
    [e >= -1074], and every arithmetic operation of JavaScript returns the
    double nearest to the exact result, the one with the even mantissa of
    two that are equally near. *)

(** [floor(log2 x)] for a positive [x]. *)
Definition log2Q (x : Q) : Z :=
  let l := Z.log2 (Qnum x) - Z.log2 (Z.pos (Qden x)) in
  if Qle_bool (2 ^ l) x then l else l - 1.

(** The integer nearest to [q], the even one of two that are equally near. *)
Definition rne (q : Q) : Z :=
  let f := Qfloor q in
  match (q - inject_Z f ?= 1 # 2)%Q with
  | Lt => f
  | Gt => f + 1
  | Eq => if Z.even f then f else f + 1
  end.

(** A positive [x] rounded to 53 bits at the exponent of its binade, or at
    the least exponent below the normal range. *)
Definition roundPos (x : Q) : Q :=
  let e := Z.max (-1074) (log2Q x - 52) in
  (inject_Z (rne (x / 2 ^ e)) * 2 ^ e)%Q.

Definition round64 (x : Q) : Q :=
  match Qnum x with
  | Z0 => 0%Q
  | Zpos _ => roundPos x
  | Zneg _ => (- roundPos (- x))%Q
  end.

(** [a - b], [a * b] and [a / b] on doubles. *)
Definition fsub (a b : Q) : Q := round64 (a - b).

Definition fmul (a b : Q) : Q := round64 (a * b).

Definition fdiv (a b : Q) : Q := round64 (a / b).

(** An integer held in a double: itself up to [2^53], rounded beyond. *)
Definition toDouble (z : Z) : Z := Qfloor (round64 (inject_Z z)).

(** [clamp(v, lo, hi) = Math.max(lo, Math.min(hi, v))] *)
Definition clamp (v lo hi : Q) : Q := Qmax lo (Qmin hi v).

Definition lerp (a b t : Q) : Q := (a + (b - a) * t)%Q.

(** [Math.floor(x * n)] for an integer [n]. *)
Definition floorMul (x : Q) (n : Z) : Z := Qfloor (x * inject_Z n).

(** [arr[i]] for a number [i]: [undefined] out of range. *)
Definition jsIndex {A} (l : list A) (i : Z) : option A :=
  if i <? 0 then None else l !! Z.to_nat i.

(** 32-bit conversions of the bit operators. *)
Definition toUint32 (z : Z) : Z := z mod 2 ^ 32.

Definition toInt32 (z : Z) : Z :=
  let u := z mod 2 ^ 32 in if u <? 2 ^ 31 then u else u - 2 ^ 32.

(** [Math.imul(a, b)] *)
Definition imul (a b : Z) : Z := toInt32 (toInt32 a * toInt32 b).

(** [a >>> n] *)
Definition ushr (a : Z) (n : Z) : Z := Z.shiftr (toUint32 a) n.

(** [a ^ b] and [a | b] *)
Definition xor32 (a b : Z) : Z := Z.lxor (toInt32 a) (toInt32 b).

Definition or32 (a b : Z) : Z := Z.lor (toInt32 a) (toInt32 b).

(** The generator returned by [createMulberry32(seed)] is a closure over the
    counter [t]; its state is that counter, and a call returns the drawn
    number with the next state.  The counter is a double that is never
    reduced: [t += 0x6D2B79F5] rounds once it has passed [2^53]. *)
Definition Rng := Z.

Definition createMulberry32 (seed : Z) : Rng := toUint32 seed.

Definition rngNext (t : Rng) : Q * Rng :=
  let t := toDouble (t + 0x6D2B79F5) in
  let r := imul (xor32 t (ushr t 15)) (or32 1 t) in
  let r := xor32 r (r + imul (xor32 r (ushr r 7)) (or32 61 r)) in
  (inject_Z (toUint32 (xor32 r (ushr r 14))) / 4294967296, t)%Q.

Definition randBetween (rng : Rng) (a b : Q) : Q * Rng :=
  let '(x, rng) := rngNext rng in ((a + (b - a) * x)%Q, rng).

Fixpoint hashLoop (cs : list ascii) (h : Z) : Z :=
  match cs with
  | [] => h
  | ch :: cs => hashLoop cs (imul (xor32 h (Z.of_nat (nat_of_ascii ch))) 16777619)
  end.

Definition hashStringToSeed (str : string) : Z :=
  toUint32 (hashLoop (list_ascii_of_string str) (toUint32 2166136261)).

(* ============================== WORDS ====================================== *)

Definition DICTIONARY_js : list string :=
  ["mind"; "share"; "thought"; "word"; "soup"; "circle"; "red"; "light"; "blur"; "find";
   "idea"; "dream"; "story"; "letter"; "phase"; "float"; "jitter"; "shift"; "fade"; "hold";
   "time"; "space"; "sense"; "look"; "seek"; "play"; "game"; "craft"; "build"; "change"]%string.

Definition strLen (w : string) : Z := Z.of_nat (String.length w).

Definition lengthWithin (minLen maxLen : Z) (w : string) : bool :=
  (minLen <=? strLen w) && (strLen w <=? maxLen).

(* ============================== TRIE ======================================= *)

(** A node is [{ t, c }]: the complete-word flag and the children by
    character ([Object.create(null)], so only own keys exist). *)
Module Trie.
Inductive node := Node { t : bool; c : gmap ascii node }.
End Trie.

Definition emptyNode : Trie.node := Trie.Node false ∅.

(** The inner loop of [buildTrie] for one word, started at [node]: the child
    for [ch] is created when absent, the walk goes on below it, and the node
    reached at the end of the word is flagged. *)
Fixpoint insertWord (w : string) (node : Trie.node) : Trie.node :=
  match w with
  | EmptyString => Trie.Node true (Trie.c node)
  | String ch w' =>
      let child := match Trie.c node !! ch with Some n => n | None => emptyNode end in
      Trie.Node (Trie.t node) (<[ch := insertWord w' child]> (Trie.c node))
  end.

Definition buildTrie (words : list string) : Trie.node :=
  fold_left (fun root w => insertWord w root) words emptyNode.

(** The incremental walk of the readers of the trie: [node = node.c[ch]],
    stopped at a missing child. *)
Fixpoint walk (node : Trie.node) (w : string) : option Trie.node :=
  match w with
  | EmptyString => Some node
  | String ch w' =>
      match Trie.c node !! ch with
      | Some n => walk n w'
      | None => None
      end
  end.

(* ============================== WORLD MODEL ================================ *)

(** The options of [prefs.js] that the systems read. *)
Record Prefs := {
  fadeDurationRangeSec : Q * Q;
  changeProbabilityPerCycle : Q;
  minActiveWords : Z;
  maxActiveWords : Z;
  seedWordsPerMinute : Q;
  minWordLength : Z;
  maxWordLength : Z;
  spotlightRadiusPx : Q;
  detectionAlphaThreshold : Q;
  holdToCaptureSeconds : Q;
  maxSentenceWords : Z
}.

Module Dir.
(** The orientation tags ['H'] and ['V']. *)
Inductive t := H | V.
End Dir.

Module Cell.
(** [{ x, y, char, phase, speed, jitterSeed, fadeT, fadeDir, nextAt,
    locked }] and the staged [_nextChar] ([None] is [undefined]);
    [fadeDir] is [+1] (fading in), [-1] (fading out) or [0] (steady). *)
Record t := mk {
  x : Q; y : Q;
  char : ascii;
  phase : Q; speed : Q; jitterSeed : Q;
  fadeT : Q; fadeDir : Z; nextAt : Q;
  locked : bool;
  _nextChar : option ascii
}.

Definition set_char (v : ascii) (k : t) : t :=
  mk (x k) (y k) v (phase k) (speed k) (jitterSeed k) (fadeT k) (fadeDir k) (nextAt k) (locked k) (_nextChar k).
Definition set_phase (v : Q) (k : t) : t :=
  mk (x k) (y k) (char k) v (speed k) (jitterSeed k) (fadeT k) (fadeDir k) (nextAt k) (locked k) (_nextChar k).
Definition set_fadeT (v : Q) (k : t) : t :=
  mk (x k) (y k) (char k) (phase k) (speed k) (jitterSeed k) v (fadeDir k) (nextAt k) (locked k) (_nextChar k).
Definition set_fadeDir (v : Z) (k : t) : t :=
  mk (x k) (y k) (char k) (phase k) (speed k) (jitterSeed k) (fadeT k) v (nextAt k) (locked k) (_nextChar k).
Definition set_nextAt (v : Q) (k : t) : t :=
  mk (x k) (y k) (char k) (phase k) (speed k) (jitterSeed k) (fadeT k) (fadeDir k) v (locked k) (_nextChar k).
Definition set_locked (v : bool) (k : t) : t :=
  mk (x k) (y k) (char k) (phase k) (speed k) (jitterSeed k) (fadeT k) (fadeDir k) (nextAt k) v (_nextChar k).
Definition set_nextChar (v : option ascii) (k : t) : t :=
  mk (x k) (y k) (char k) (phase k) (speed k) (jitterSeed k) (fadeT k) (fadeDir k) (nextAt k) (locked k) v.
End Cell.

Module Part.
(** An entry of [cells] of a placed word, [{ r, c, idx }]. *)
Record t := mk { r : Z; c : Z; idx : Z }.
End Part.

Module Placed.
(** An entry of [world.words], [{ word, r, c, dir, cells }]. *)
Record t := mk {
  ref : nat;
  word : string;
  r : Z; c : Z;
  dir : Dir.t;
  cells : list Part.t
}.
End Placed.

Module Seg.
(** An entry of a scanned segment, [{ r, c, idx, ch }]. *)
Record t := mk { r : Z; c : Z; idx : Z; ch : ascii }.
End Seg.

Module Cand.
(** A candidate pushed by the scanner, [{ word, r, c, dir, cells }]. *)
Record t := mk {
  ref : nat;
  word : string;
  r : Z; c : Z;
  dir : Dir.t;
  cells : list Seg.t
}.
End Cand.

Module Capture.
(** [world.capture]; [key] is absent ([None]) until the first hold. *)
Record t := mk {
  active : bool;
  startMs : Q;
  wordUnderSpot : option Cand.t;
  progress01 : Q;
  key : option string
}.
End Capture.

Module Mouse.
Record t := mk { x : Q; y : Q; down : bool }.
End Mouse.

Module Grid.
Record t := mk { rows : Z; cols : Z }.
End Grid.

Module World.
(** The world of [createWorld]; [nextRef] numbers the objects allocated
    so far.  The [debug] counters are written and never read by the
    systems, and are left out. *)
Record t := mk {
  rng : Rng;
  nextRef : nat;
  grid : Grid.t;
  cells : list Cell.t;
  words : list Placed.t;
  sentence : list string;
  capture : Capture.t;
  mouse : Mouse.t;
  trie : Trie.node
}.

Definition set_rng (v : Rng) (w : t) : t :=
  mk v (nextRef w) (grid w) (cells w) (words w) (sentence w) (capture w) (mouse w) (trie w).
Definition set_nextRef (v : nat) (w : t) : t :=
  mk (rng w) v (grid w) (cells w) (words w) (sentence w) (capture w) (mouse w) (trie w).
Definition set_cells (v : list Cell.t) (w : t) : t :=
  mk (rng w) (nextRef w) (grid w) v (words w) (sentence w) (capture w) (mouse w) (trie w).
Definition set_words (v : list Placed.t) (w : t) : t :=
  mk (rng w) (nextRef w) (grid w) (cells w) v (sentence w) (capture w) (mouse w) (trie w).
Definition set_sentence (v : list string) (w : t) : t :=
  mk (rng w) (nextRef w) (grid w) (cells w) (words w) v (capture w) (mouse w) (trie w).
Definition set_capture (v : Capture.t) (w : t) : t :=
  mk (rng w) (nextRef w) (grid w) (cells w) (words w) (sentence w) v (mouse w) (trie w).
Definition set_mouse (v : Mouse.t) (w : t) : t :=
  mk (rng w) (nextRef w) (grid w) (cells w) (words w) (sentence w) (capture w) v (trie w).
End World.

Module Frame.
(** What one call of [step] receives: its argument [now], the two readings
    of [performance.now()] made by [updateLetters] and [updateCapture], and
    [world.mouse] as the pointer handlers left it since the last frame. *)
Record t := mk { now : Q; nowLetters : Q; nowCapture : Q; pointer : Mouse.t }.
End Frame.

Definition alphabet : list ascii := list_ascii_of_string "abcdefghijklmnopqrstuvwxyz".

(** ['abcdefghijklmnopqrstuvwxyz'[Math.floor(world.rng() * 26)]]; the index
    is below 26 for every draw (lemma [randomGridChar_letter]). *)
Definition randomGridChar (rng : Rng) : ascii * Rng :=
  let '(x, rng) := rngNext rng in
  (match jsIndex alphabet (floorMul x 26) with Some ch => ch | None => "a"%char end, rng).

Definition getCellIndex (w : World.t) (r c : Z) : Z := r * Grid.cols (World.grid w) + c.

(** [candidateKey]: the word, a colon, and the cell indices joined by dashes;
    the empty string for no candidate. *)
Definition showZ (z : Z) : string := NilZero.string_of_int (Z.to_int z).

Fixpoint join (sep : string) (l : list string) : string :=
  match l with
  | [] => EmptyString
  | [s] => s
  | s :: l => s +:+ sep +:+ join sep l
  end.

Definition candidateKey (cand : option Cand.t) : string :=
  match cand with
  | None => EmptyString
  | Some k =>
      let idxs := join "-" (map (fun p => showZ (Seg.idx p)) (Cand.cells k)) in
      Cand.word k +:+ ":" +:+ idxs
  end.


(* ============================== SYSTEMS ==================================== *)

Section Systems.

(** [prefs] and [DICTIONARY] are module constants of the source.  They are
    variables here, so that the properties hold for every configuration and
    every word list; [DICTIONARY_js] is the list of [words.js]. *)
Variable prefs : Prefs.
Variable DICTIONARY : list string.

(** Choose a random word with a length in [minLen, maxLen]; fall back to
    any.  The result is [source[idx]], [None] for [undefined]. *)
Definition chooseWord (rng : Rng) (minLen maxLen : Z) : option string * Rng :=
  let filtered := List.filter (lengthWithin minLen maxLen) DICTIONARY in
  let source := match filtered with [] => DICTIONARY | _ => filtered end in
  let '(x, rng) := rngNext rng in
  let idx := floorMul x (Z.of_nat (length source)) in
  (jsIndex source idx, rng).

(** One iteration of the loop of [updateLetters] on [cell], with the
    generator threaded through. *)
Definition updateCell (now dt : Q) (cell : Cell.t) (rng : Rng) : Cell.t * Rng :=
  let '(a, b) := fadeDurationRangeSec prefs in
  let '(cell, rng) :=
    if negb (Cell.fadeDir cell =? 0) then
      let dir := Cell.fadeDir cell in
      let '(d, rng) := randBetween rng a b in
      let rate := (1 / d)%Q in
      let cell := Cell.set_fadeT (clamp (Cell.fadeT cell + inject_Z dir * rate * dt) 0 1) cell in
      if Qeq_bool (Cell.fadeT cell) 0 && (dir <? 0) then
        let '(ch, rng) :=
          match Cell._nextChar cell with
          | Some ch => (ch, rng)
          | None => randomGridChar rng
          end in
        (Cell.set_fadeDir 1 (Cell.set_nextChar None (Cell.set_char ch cell)), rng)
      else if Qeq_bool (Cell.fadeT cell) 1 && (dir >? 0) then
        let '(d, rng) := randBetween rng a b in
        (Cell.set_nextAt (now + d * 1000) (Cell.set_fadeDir 0 cell), rng)
      else (cell, rng)
    else if negb (Cell.locked cell) && Qle_bool (Cell.nextAt cell) now then
      let '(x, rng) := rngNext rng in
      if Qltb x (changeProbabilityPerCycle prefs) then
        (Cell.set_fadeDir (-1) cell, rng)
      else
        let '(d, rng) := randBetween rng a b in
        (Cell.set_nextAt (now + d * 1000) cell, rng)
    else (cell, rng) in
  (Cell.set_phase (Cell.phase cell + Cell.speed cell * dt) cell, rng).

Fixpoint updateCells (now dt : Q) (cells : list Cell.t) (rng : Rng) : list Cell.t * Rng :=
  match cells with
  | [] => ([], rng)
  | cell :: rest =>
      let '(cell, rng) := updateCell now dt cell rng in
      let '(rest, rng) := updateCells now dt rest rng in
      (cell :: rest, rng)
  end.

(** [updateLetters(world, dt)]; [now] is the reading of [performance.now()]. *)
Definition updateLetters (w : World.t) (dt now : Q) : World.t :=
  let '(cells, rng) := updateCells now dt (World.cells w) (World.rng w) in
  World.set_rng rng (World.set_cells cells w).

(** [placementFree]: every cell of the run exists and is unlocked. *)
Definition runIndex (w : World.t) (r c : Z) (dir : Dir.t) (i : Z) : Z :=
  match dir with
  | Dir.H => getCellIndex w r (c + i)
  | Dir.V => getCellIndex w (r + i) c
  end.

Definition placementFree (w : World.t) (r c len : Z) (dir : Dir.t) : bool :=
  forallb (fun i =>
    match jsIndex (World.cells w) (runIndex w r c dir i) with
    | None => false
    | Some cell => negb (Cell.locked cell)
    end) (seqZ 0 len).

(** The body of the placement loop of [seedOneWord] for letter [ch] at
    offset [i]: stage the letter, lock the cell, record the part. *)
Definition placeLetter (w : World.t) (r c : Z) (dir : Dir.t)
    (acc : option (list Cell.t * list Part.t)) (ich : Z * ascii)
    : option (list Cell.t * list Part.t) :=
  let '(i, ch) := ich in
  '(cells, parts) ← acc;
  let idx := runIndex w r c dir i in
  cell ← jsIndex cells idx;
  let cell :=
    if negb (Cell.locked cell)
    then Cell.set_nextChar (Some ch) (Cell.set_fadeDir (-1) cell)
    else Cell.set_fadeT 1 (Cell.set_fadeDir 0 (Cell.set_char ch cell)) in
  let cell := Cell.set_locked true cell in
  let part := match dir with
              | Dir.H => Part.mk r (c + i) idx
              | Dir.V => Part.mk (r + i) c idx
              end in
  Some (<[Z.to_nat idx := cell]> cells, parts ++ [part]).

Definition indexed (word : string) : list (Z * ascii) :=
  zip (seqZ 0 (strLen word)) (list_ascii_of_string word).

Definition placeWord (w : World.t) (word : string) (r c : Z) (dir : Dir.t) : option World.t :=
  '(cells, parts) ← fold_left (placeLetter w r c dir) (indexed word) (Some (World.cells w, []));
  let placed := Placed.mk (World.nextRef w) word r c dir parts in
  Some (World.set_words (World.words w ++ [placed])
         (World.set_nextRef (S (World.nextRef w)) (World.set_cells cells w))).

(** The attempts of [seedOneWord] that are left, [n] of them. *)
Fixpoint seedAttempts (n : nat) (word : string) (w : World.t) : option (bool * World.t) :=
  match n with
  | O => Some (false, w)
  | S n =>
      let '(x, rng) := rngNext (World.rng w) in
      let w := World.set_rng rng w in
      let vertical := Qltb x (1 # 2) in
      if negb vertical then
        let '(x, rng) := rngNext (World.rng w) in
        let w := World.set_rng rng w in
        let r := floorMul x (Grid.rows (World.grid w)) in
        let maxCStart := Grid.cols (World.grid w) - strLen word in
        if maxCStart <? 0 then Some (false, w) else
        let '(x, rng) := rngNext (World.rng w) in
        let w := World.set_rng rng w in
        let c := floorMul x (maxCStart + 1) in
        if negb (placementFree w r c (strLen word) Dir.H) then seedAttempts n word w else
        w ← placeWord w word r c Dir.H;
        Some (true, w)
      else
        let '(x, rng) := rngNext (World.rng w) in
        let w := World.set_rng rng w in
        let c := floorMul x (Grid.cols (World.grid w)) in
        let maxRStart := Grid.rows (World.grid w) - strLen word in
        if maxRStart <? 0 then Some (false, w) else
        let '(x, rng) := rngNext (World.rng w) in
        let w := World.set_rng rng w in
        let r := floorMul x (maxRStart + 1) in
        if negb (placementFree w r c (strLen word) Dir.V) then seedAttempts n word w else
        w ← placeWord w word r c Dir.V;
        Some (true, w)
  end.

(** [seedOneWord]; [word.length] of an [undefined] word throws. *)
Definition seedOneWord (w : World.t) : option (bool * World.t) :=
  let '(word, rng) := chooseWord (World.rng w) (minWordLength prefs) (maxWordLength prefs) in
  let w := World.set_rng rng w in
  word ← word;
  seedAttempts 40 word w.

Definition unlockPart (cells : list Cell.t) (part : Part.t) : list Cell.t :=
  match jsIndex cells (Part.idx part) with
  | None => cells
  | Some cell => <[Z.to_nat (Part.idx part) := Cell.set_locked false cell]> cells
  end.

Definition dropOldestWord (w : World.t) : World.t :=
  match World.words w with
  | [] => w
  | pw :: rest =>
      World.set_cells (fold_left unlockPart (Placed.cells pw) (World.cells w))
        (World.set_words rest w)
  end.

(** [n > (prefs.maxActiveWords || Infinity)] and [n < (... || Infinity)]:
    a maximum of [0] is no maximum. *)
Definition overMax (n : nat) : bool :=
  if maxActiveWords prefs =? 0 then false else Z.of_nat n >? maxActiveWords prefs.

Definition underMax (n : nat) : bool :=
  if maxActiveWords prefs =? 0 then true else Z.of_nat n <? maxActiveWords prefs.

(** The eviction loop of [ensureWordSeeding]; it does not end when the
    maximum is negative, which is [None]. *)
Fixpoint evictLoop (fuel : nat) (w : World.t) : option World.t :=
  if overMax (length (World.words w)) then
    match fuel with
    | O => None
    | S fuel => evictLoop fuel (dropOldestWord w)
    end
  else Some w.

(** The loop on [guard], with [guard] iterations left. *)
Fixpoint seedLoop (guard : nat) (w : World.t) : option World.t :=
  if Z.of_nat (length (World.words w)) <? minActiveWords prefs then
    match guard with
    | O => Some w
    | S guard =>
        match seedOneWord w with
        | None => None
        | Some (ok, w) => if ok then seedLoop guard w else Some w
        end
    end
  else Some w.

Definition ensureWordSeeding (w : World.t) (dt : Q) : option World.t :=
  w ← evictLoop (S (length (World.words w))) w;
  w ← seedLoop 20 w;
  let targetPerSec := (seedWordsPerMinute prefs / 60)%Q in
  let p := clamp (targetPerSec * dt) 0 (3 # 4) in
  if underMax (length (World.words w)) then
    let '(x, rng) := rngNext (World.rng w) in
    let w := World.set_rng rng w in
    if Qltb x p then '(_, w) ← seedOneWord w; Some w else Some w
  else Some w.

(* ------------------------------ spotlight ---------------------------------- *)

Definition inside (w : World.t) (x y : Q) : bool :=
  let r := spotlightRadiusPx prefs in
  let r2 := (r * r)%Q in
  let dx := (x - Mouse.x (World.mouse w))%Q in
  let dy := (y - Mouse.y (World.mouse w))%Q in
  Qle_bool (dx * dx + dy * dy) r2.

(** The body of the loops that fill [include]. *)
Definition includeCell (w : World.t) (ri : Z) (acc : option (list bool)) (ci : Z)
    : option (list bool) :=
  include ← acc;
  let idx := getCellIndex w ri ci in
  cell ← jsIndex (World.cells w) idx;
  let alpha := clamp (Cell.fadeT cell) 0 1 in
  let inCircle := inside w (Cell.x cell) (Cell.y cell)
                  && Qle_bool (detectionAlphaThreshold prefs) alpha in
  Some (<[Z.to_nat idx := inCircle]> include).

Definition computeInclude (w : World.t) : option (list bool) :=
  fold_left (fun acc ri => fold_left (includeCell w ri) (seqZ 0 (Grid.cols (World.grid w))) acc)
    (seqZ 0 (Grid.rows (World.grid w)))
    (Some (replicate (length (World.cells w)) false)).

(** [include[i]], an unset entry being falsy. *)
Definition included (include : list bool) (i : Z) : bool :=
  match jsIndex include i with Some b => b | None => false end.

Definition inBounds (w : World.t) (r c : Z) : bool :=
  (0 <=? r) && (r <? Grid.rows (World.grid w)) && (0 <=? c) && (c <? Grid.cols (World.grid w)).

(** The inner loop of [scanSegmentWithTrie] for the start [first]: [rest]
    are the entries from [j] on, [taken] is [seg.slice(i, j)], [base] the
    allocation number of the first candidate of this scan. *)
Fixpoint scanFromStart (base : nat) (first : Seg.t) (rest : list Seg.t) (node : Trie.node)
    (word : string) (taken : list Seg.t) (out : list Cand.t) : list Cand.t :=
  match rest with
  | [] => out
  | sj :: rest =>
      match Trie.c node !! Seg.ch sj with
      | None => out
      | Some node =>
          let word := word +:+ String (Seg.ch sj) EmptyString in
          let taken := taken ++ [sj] in
          let out :=
            if Trie.t node then
              let dir := if Seg.r first =? Seg.r sj then Dir.H else Dir.V in
              out ++ [Cand.mk (base + length out) word (Seg.r first) (Seg.c first) dir taken]
            else out in
          scanFromStart base first rest node word taken out
      end
  end.

Fixpoint scanSegmentWithTrie (base : nat) (seg : list Seg.t) (trie : Trie.node)
    (out : list Cand.t) : list Cand.t :=
  match seg with
  | [] => out
  | si :: rest =>
      scanSegmentWithTrie base rest trie (scanFromStart base si (si :: rest) trie EmptyString [] out)
  end.

(** The three loops of [scanLine].  Each gets [fuel] iterations; [None]
    when they are used up. *)
Fixpoint lineStart (fuel : nat) (w : World.t) (r c dr dc : Z) : option (Z * Z) :=
  if (negb (dr =? 0) || negb (dc =? 0)) && inBounds w (r - dr) (c - dc) then
    match fuel with
    | O => None
    | S fuel => lineStart fuel w (r - dr) (c - dc) dr dc
    end
  else Some (r, c).

Fixpoint segmentFrom (fuel : nat) (w : World.t) (include : list bool) (r c dr dc : Z)
    (seg : list Seg.t) : option (Z * Z * list Seg.t) :=
  if inBounds w r c && included include (getCellIndex w r c) then
    match fuel with
    | O => None
    | S fuel =>
        let idx := getCellIndex w r c in
        cell ← jsIndex (World.cells w) idx;
        segmentFrom fuel w include (r + dr) (c + dc) dr dc (seg ++ [Seg.mk r c idx (Cell.char cell)])
    end
  else Some (r, c, seg).

Definition scanFuel (w : World.t) : nat :=
  S (Z.to_nat (Grid.rows (World.grid w) + Grid.cols (World.grid w))).

Fixpoint segmentsFrom (fuel : nat) (w : World.t) (include : list bool) (r c dr dc : Z)
    (out : list Cand.t) : option (list Cand.t) :=
  if inBounds w r c then
    match fuel with
    | O => None
    | S fuel =>
        '(r, c, seg) ← segmentFrom (scanFuel w) w include r c dr dc [];
        let out := match seg with
                   | [] => out
                   | _ => scanSegmentWithTrie (World.nextRef w) seg (World.trie w) out
                   end in
        segmentsFrom fuel w include (r + dr) (c + dc) dr dc out
    end
  else Some out.

Definition scanLine (w : World.t) (include : list bool) (rStart cStart dr dc : Z)
    (out : list Cand.t) : option (list Cand.t) :=
  '(r, c) ← lineStart (scanFuel w) w rStart cStart dr dc;
  segmentsFrom (scanFuel w) w include r c dr dc out.

(** The candidates of [wordUnderSpotlight] before the length filter:
    one [scanLine] per row, horizontal only. *)
Definition scanCandidates (w : World.t) : option (list Cand.t) :=
  include ← computeInclude w;
  fold_left (fun out rI => out ← out; scanLine w include rI 0 0 1 out)
    (seqZ 0 (Grid.rows (World.grid w))) (Some []).

(** [filtered.sort((a, b) => b.word.length - a.word.length)], which is
    stable. *)
Fixpoint insertByLength (k : Cand.t) (l : list Cand.t) : list Cand.t :=
  match l with
  | [] => [k]
  | k' :: l' =>
      if strLen (Cand.word k) <? strLen (Cand.word k')
      then k' :: insertByLength k l'
      else k :: l
  end.

Definition sortByLength (l : list Cand.t) : list Cand.t := foldr insertByLength [] l.

Definition wordUnderSpotlight (w : World.t) : option (option Cand.t * World.t) :=
  candidates ← scanCandidates w;
  let w := World.set_nextRef (World.nextRef w + length candidates)%nat w in
  let filtered := List.filter
    (fun k => lengthWithin (minWordLength prefs) (maxWordLength prefs) (Cand.word k)) candidates in
  match sortByLength filtered with
  | [] => Some (None, w)
  | (k0 :: _) as sorted =>
      let longestLen := strLen (Cand.word k0) in
      let longest := List.filter (fun k => strLen (Cand.word k) =? longestLen) sorted in
      let '(x, rng) := rngNext (World.rng w) in
      Some (jsIndex longest (floorMul x (Z.of_nat (length longest))), World.set_rng rng w)
  end.

(* ------------------------------ capture ------------------------------------ *)

(** The body of the loop of [finalizeCapture]: the cell of [part] is
    unlocked and sent fading out, its staged character dropped. *)
Definition releasePart (acc : option (list Cell.t)) (part : Seg.t) : option (list Cell.t) :=
  cells ← acc;
  cell ← jsIndex cells (Seg.idx part);
  let cell := Cell.set_nextChar None (Cell.set_fadeDir (-1) (Cell.set_locked false cell)) in
  Some (<[Z.to_nat (Seg.idx part) := cell]> cells).

(** [world.words.indexOf(wordObj)]: the position of the object itself. *)
Fixpoint indexOfRef (ref : nat) (l : list Placed.t) : option nat :=
  match l with
  | [] => None
  | pw :: l => if (Placed.ref pw =? ref)%nat then Some O else S <$> indexOfRef ref l
  end.

(** [push] then, over the cap, one [shift]. *)
Definition pushCapped (sentence : list string) (word : string) : list string :=
  let sentence := sentence ++ [word] in
  if Z.of_nat (length sentence) >? maxSentenceWords prefs then tail sentence else sentence.

Definition finalizeCapture (w : World.t) (wordObj : Cand.t) : option World.t :=
  cells ← fold_left releasePart (Cand.cells wordObj) (Some (World.cells w));
  let w := World.set_cells cells w in
  let w := World.set_sentence (pushCapped (World.sentence w) (Cand.word wordObj)) w in
  match indexOfRef (Cand.ref wordObj) (World.words w) with
  | Some idx => Some (World.set_words (delete idx (World.words w)) w)
  | None => Some w
  end.

Definition keyDiffers (key : option string) (currentKey : string) : bool :=
  match key with
  | None => true
  | Some k => negb (String.eqb k currentKey)
  end.

Definition idleCapture (cap : Capture.t) : Capture.t :=
  Capture.mk false (Capture.startMs cap) None 0 (Some EmptyString).

(** [updateCapture(world, dt)]; [now] is the reading of [performance.now()]. *)
Definition updateCapture (w : World.t) (now : Q) : option World.t :=
  '(detected, w) ← wordUnderSpotlight w;
  let cap := World.capture w in
  let current :=
    match Capture.wordUnderSpot cap with
    | Some k => if Capture.active cap then Some k else detected
    | None => detected
    end in
  let currentKey := candidateKey current in
  match current with
  | Some cur =>
      if Mouse.down (World.mouse w) then
        if negb (Capture.active cap) || keyDiffers (Capture.key cap) currentKey then
          Some (World.set_capture (Capture.mk true now (Some cur) 0 (Some currentKey)) w)
        else
          let progress :=
            clamp (fdiv (fsub now (Capture.startMs cap))
                     (fmul (holdToCaptureSeconds prefs) 1000)) 0 1 in
          if Qle_bool 1 progress then
            wordObj ← Capture.wordUnderSpot cap;
            w ← finalizeCapture w wordObj;
            Some (World.set_capture (idleCapture cap) w)
          else
            Some (World.set_capture
                    (Capture.mk true (Capture.startMs cap) (Capture.wordUnderSpot cap)
                       progress (Capture.key cap)) w)
      else Some (World.set_capture (idleCapture cap) w)
  | None => Some (World.set_capture (idleCapture cap) w)
  end.

(* ============================== MAIN LOOP ================================== *)

(** [Math.min(0.05, Math.max(0, (now - lastMs) / 1000))] *)
Definition frameDt (now lastMs : Q) : Q := Qmin (5 # 100) (Qmax 0 ((now - lastMs) / 1000)).

(** [step(now)], on the world and [lastMs]; drawing is left out. *)
Definition step (s : World.t * Q) (f : Frame.t) : option (World.t * Q) :=
  let '(w, lastMs) := s in
  let w := World.set_mouse (Frame.pointer f) w in
  let dt := frameDt (Frame.now f) lastMs in
  let w := updateLetters w dt (Frame.nowLetters f) in
  w ← ensureWordSeeding w dt;
  w ← updateCapture w (Frame.nowCapture f);
  Some (w, Frame.now f).

Definition run (s : World.t * Q) (frames : list Frame.t) : option (World.t * Q) :=
  fold_left (fun s f => s ← s; step s f) frames (Some s).

End Systems.

(* ============================== SCENARIOS ================================== *)

(** Concrete worlds and frames at which the properties are instantiated. *)

Definition demoPrefs : Prefs := {|
  fadeDurationRangeSec := (1, 2)%Q;
  changeProbabilityPerCycle := (1 # 2)%Q;
  minActiveWords := 1;
  maxActiveWords := 3;
  seedWordsPerMinute := 900%Q;
  minWordLength := 3;
  maxWordLength := 7;
  spotlightRadiusPx := 12%Q;
  detectionAlphaThreshold := (1 # 2)%Q;
  holdToCaptureSeconds := 1%Q;
  maxSentenceWords := 3
|}.

(** A steady, fully visible, unlocked cell of a grid with a pitch of 10
    pixels. *)
Definition demoCell (r : Z) (cch : Z * ascii) : Cell.t :=
  Cell.mk (inject_Z (10 * fst cch)) (inject_Z (10 * r)) (snd cch) 0 1 0 1 0 1000000 false None.

Definition demoCells (rows : list string) : list Cell.t :=
  concat (zip_with (fun r s => map (demoCell r) (indexed s))
            (seqZ 0 (Z.of_nat (length rows))) rows).

Definition lockAt (cells : list Cell.t) (idx : nat) : list Cell.t :=
  alter (Cell.set_locked true) idx cells.

(** The generator of [createWorld] after [n] draws. *)
Definition rngAfter (n : nat) : Rng :=
  Nat.iter n (fun t => snd (rngNext t)) (createMulberry32 (hashStringToSeed "text-discovery")).

(** The scenario of the design document: a 5x5 grid, the dictionary
    ["cat"], one word "cat" placed horizontally at row 2, columns 0-2, its
    cells fully visible. *)
Definition catWord : Placed.t :=
  Placed.mk 0 "cat" 2 0 Dir.H [Part.mk 2 0 10; Part.mk 2 1 11; Part.mk 2 2 12].

Definition catWorld : World.t :=
  World.mk (rngAfter 184) 1 (Grid.mk 5 5)
    (fold_left lockAt [10; 11; 12]%nat
       (demoCells ["xxxxx"; "xxxxx"; "catxx"; "xxxxx"; "xxxxx"]%string))
    [catWord] [] (Capture.mk false 0 None 0 None) (Mouse.mk 10 20 false)
    (buildTrie ["cat"%string]).

(** The pointer over the middle of the word, button down. *)
Definition overCat : Mouse.t := Mouse.mk 10 20 true.

(** The same grid with the word placed vertically at column 1, rows 1-3. *)
Definition catDown : Placed.t :=
  Placed.mk 0 "cat" 1 1 Dir.V [Part.mk 1 1 6; Part.mk 2 1 11; Part.mk 3 1 16].

Definition catDownWorld : World.t :=
  World.mk (rngAfter 184) 1 (Grid.mk 5 5)
    (fold_left lockAt [6; 11; 16]%nat
       (demoCells ["xxxxx"; "xcxxx"; "xaxxx"; "xtxxx"; "xxxxx"]%string))
    [catDown] [] (Capture.mk false 0 None 0 None) overCat
    (buildTrie ["cat"%string]).

(** Frames of a hold over the word: the hold starts at 1000.3 ms, is half
    way at 1500.3, at 99% at 1990.3, and complete at 2000.3; one more
    frame follows. *)
Definition frameAt (now : Q) : Frame.t :=
  Frame.mk now (now + (1 # 10)) (now + (3 # 10)) overCat.

Definition frameStart : Frame.t := frameAt 1000.
Definition frameFull : Frame.t := frameAt 2000.
Definition frameAfter : Frame.t := frameAt 2016.

(** The candidate that the scanner finds over the word. *)
Definition catCand : Cand.t :=
  Cand.mk 1 "cat" 2 0 Dir.H [Seg.mk 2 0 10 "c"; Seg.mk 2 1 11 "a"; Seg.mk 2 2 12 "t"].

(** The world after the frame that starts the hold. *)
Definition heldWorld : World.t :=
  match run demoPrefs ["cat"%string] (catWorld, 984%Q) [frameStart] with
  | Some (w, _) => w
  | None => catWorld
  end.

(** The held world after the middle letter of the word has changed. *)
Definition driftWorld : World.t :=
  World.set_cells (alter (Cell.set_char "x") 11%nat (World.cells heldWorld)) heldWorld.

(** The scenario world with its first cell sent fading out. *)
Definition fadingWorld : World.t :=
  World.set_cells (alter (Cell.set_fadeDir (-1)) 0%nat (World.cells catWorld)) catWorld.

(** A configuration whose length bounds no word of [DICTIONARY_js] meets,
    and the 5x5 grid without any placed word. *)
Definition longPrefs : Prefs := {|
  fadeDurationRangeSec := (1, 2)%Q;
  changeProbabilityPerCycle := (1 # 2)%Q;
  minActiveWords := 1;
  maxActiveWords := 3;
  seedWordsPerMinute := 900%Q;
  minWordLength := 10;
  maxWordLength := 12;
  spotlightRadiusPx := 12%Q;
  detectionAlphaThreshold := (1 # 2)%Q;
  holdToCaptureSeconds := 1%Q;
  maxSentenceWords := 3
|}.

Definition blankWorld : World.t :=
  World.mk (rngAfter 184) 0 (Grid.mk 5 5)
    (demoCells ["xxxxx"; "xxxxx"; "xxxxx"; "xxxxx"; "xxxxx"]%string)
    [] [] (Capture.mk false 0 None 0 None) (Mouse.mk 10 20 false)
    (buildTrie DICTIONARY_js).





(** The options of [prefs.js] as the sketch ships them. *)
Definition prefs_js : Prefs := {|
  fadeDurationRangeSec := (3, 7)%Q;
  changeProbabilityPerCycle := (1 # 2)%Q;
  minActiveWords := 20;
  maxActiveWords := 40;
  seedWordsPerMinute := 120%Q;
  minWordLength := 3;
  maxWordLength := 8;
  spotlightRadiusPx := 140%Q;
  detectionAlphaThreshold := (1 # 4)%Q;
  holdToCaptureSeconds := round64 (12 # 10);
  maxSentenceWords := 50
|}.

(** The demonstration options with a negative maximum of active words. *)
Definition hangPrefs : Prefs := {|
  fadeDurationRangeSec := (1, 2)%Q;
  changeProbabilityPerCycle := (1 # 2)%Q;
  minActiveWords := 1;
  maxActiveWords := -1;
  seedWordsPerMinute := 900%Q;
  minWordLength := 3;
  maxWordLength := 7;
  spotlightRadiusPx := 12%Q;
  detectionAlphaThreshold := (1 # 2)%Q;
  holdToCaptureSeconds := 1%Q;
  maxSentenceWords := 3
|}.

(** The scenario world with the pointer over the word and the button
    down, and with the button up during a hold. *)
Definition pressedWorld : World.t := World.set_mouse overCat catWorld.

Definition letGoWorld : World.t := World.set_mouse (Mouse.mk 10 20 false) heldWorld.

(** A world that lists one word more than [demoPrefs] allows. *)
Definition crowdedWorld : World.t :=
  World.set_words
    [catWord; Placed.mk 1 "a" 0 0 Dir.H [Part.mk 0 0 0];
     Placed.mk 2 "b" 0 1 Dir.H [Part.mk 0 1 1]; Placed.mk 3 "c" 0 2 Dir.H [Part.mk 0 2 2]]
    catWorld.

(** A frame with the button up. *)
Definition idleFrame (now : Q) : Frame.t :=
  Frame.mk now (now + (1 # 10)) (now + (3 # 10)) (Mouse.mk 10 20 false).

(* ============================== VOCABULARY ================================= *)

(** The predicates and measures in which the properties are stated. *)

Definition accepts (node : Trie.node) (w : string) : bool :=
  match walk node w with
  | Some n => Trie.t n
  | None => false
  end.

Definition validPart (cells : list Cell.t) (p : Seg.t) : Prop :=
  0 <= Seg.idx p < Z.of_nat (length cells).

Definition validCand (cells : list Cell.t) (k : Cand.t) : Prop :=
  Forall (validPart cells) (Cand.cells k).

(** A sequence of commits, in capture order. *)
Definition captureAll (prefs : Prefs) (w : World.t) (ks : list Cand.t) : option World.t :=
  fold_left (fun acc k => w ← acc; finalizeCapture prefs w k) ks (Some w).

Definition wfWorld (w : World.t) : Prop :=
  0 <= Grid.rows (World.grid w) /\
  0 <= Grid.cols (World.grid w) /\
  Z.of_nat (length (World.cells w)) = Grid.rows (World.grid w) * Grid.cols (World.grid w).

(** Whether the scanner counts a cell as readable: inside the circle and
    at or above the visibility threshold. *)
Definition visible (prefs : Prefs) (w : World.t) (cell : Cell.t) : bool :=
  inside prefs w (Cell.x cell) (Cell.y cell)
  && Qle_bool (detectionAlphaThreshold prefs) (clamp (Cell.fadeT cell) 0 1).

(** [include] holds the visibility of the cells below index [n] and is
    unset from [n] on. *)
Definition includeUpTo (prefs : Prefs) (w : World.t) (n : Z) (include : list bool) : Prop :=
  length include = length (World.cells w) /\
  forall (j : nat) (cell : Cell.t),
    World.cells w !! j = Some cell ->
    include !! j = Some (if Z.of_nat j <? n then visible prefs w cell else false).

Definition segWord (l : list Seg.t) : string := string_of_list_ascii (map Seg.ch l).

(** The character shown at a cell index, and the entries that a scan of
    row [r] builds for the cells from column [c] on. *)
Definition charAt (w : World.t) (idx : Z) : ascii :=
  match jsIndex (World.cells w) idx with
  | Some cell => Cell.char cell
  | None => "a"%char
  end.

Definition rowSeg (w : World.t) (r c : Z) : Seg.t :=
  Seg.mk r c (getCellIndex w r c) (charAt w (getCellIndex w r c)).

Definition rowRun (w : World.t) (r c len : Z) : list Seg.t := map (rowSeg w r) (seqZ c len).

(** The candidates that a row scan owes for the runs of included cells of
    row [r] that start at column [c] or later. *)
Definition rowComplete (w : World.t) (include : list bool) (r c : Z) (out : list Cand.t) : Prop :=
  forall (c0 len : Z) (n : Trie.node),
    c <= c0 -> 0 < len -> c0 + len <= Grid.cols (World.grid w) ->
    (forall j, c0 <= j < c0 + len -> included include (getCellIndex w r j) = true) ->
    walk (World.trie w) (segWord (rowRun w r c0 len)) = Some n -> Trie.t n = true ->
    exists k,
      In k out /\
      Cand.word k = segWord (rowRun w r c0 len) /\
      Cand.r k = r /\ Cand.c k = c0 /\ Cand.dir k = Dir.H /\
      Cand.cells k = rowRun w r c0 len.

(** Whether the cell at row [r], column [c] is readable under the
    spotlight. *)
Definition readable (prefs : Prefs) (w : World.t) (r c : Z) : bool :=
  match jsIndex (World.cells w) (getCellIndex w r c) with
  | Some cell => visible prefs w cell
  | None => false
  end.

(** What the letter update and the seeder leave alone, and what they do
    to the active list: every word of the list afterwards was there before
    or is an object allocated in between. *)
Definition keeps (w w' : World.t) : Prop :=
  World.grid w' = World.grid w /\
  World.capture w' = World.capture w /\
  World.mouse w' = World.mouse w /\
  World.sentence w' = World.sentence w /\
  length (World.cells w') = length (World.cells w) /\
  (World.nextRef w <= World.nextRef w')%nat /\
  forall p, In p (World.words w') ->
    In p (World.words w) \/ (World.nextRef w <= Placed.ref p < World.nextRef w')%nat.

(** The machine is Holding: a capture is active on the frozen candidate
    [k], started at [t0]. *)
Definition holding (w : World.t) (k : Cand.t) (t0 : Q) : Prop :=
  Capture.active (World.capture w) = true /\
  Capture.wordUnderSpot (World.capture w) = Some k /\
  Capture.key (World.capture w) = Some (candidateKey (Some k)) /\
  Capture.startMs (World.capture w) = t0.

(** The hold duration in milliseconds and the time held at [now], as the
    capture machine computes them, and the fraction of the hold that has
    elapsed. *)
Definition holdMs (prefs : Prefs) : Q := fmul (holdToCaptureSeconds prefs) 1000.

Definition heldMs (t0 now : Q) : Q := fsub now t0.

Definition holdProgress (prefs : Prefs) (t0 now : Q) : Q :=
  clamp (fdiv (heldMs t0 now) (holdMs prefs)) 0 1.

(** [v] is [m * 2^e] for a mantissa and an exponent of the double format
    (normal, or subnormal at the least exponent). *)
Definition repr (v : Q) (m e : Z) : Prop :=
  (v == inject_Z m * 2 ^ e)%Q /\ -1074 <= e /\ 0 <= m <= 2 ^ 53 /\
  (e = -1074 \/ 2 ^ 52 <= m).


(** The entries of a run of [len] cells down column [c] from row [r]. *)
Definition colRun (w : World.t) (r c len : Z) : list Seg.t :=
  map (fun i => rowSeg w i c) (seqZ r len).

(** The placed words were allocated before [nextRef], and the frozen
    candidate is an object of its own: none of the placed words. *)
Definition refsFresh (w : World.t) : Prop :=
  Forall (fun p => (Placed.ref p < World.nextRef w)%nat) (World.words w) /\
  forall k, Capture.wordUnderSpot (World.capture w) = Some k ->
    (Cand.ref k < World.nextRef w)%nat /\
    Forall (fun p => Placed.ref p <> Cand.ref k) (World.words w).

(** The candidates of one scan are numbered from [base] on. *)
Definition refsFrom (base : nat) (out : list Cand.t) : Prop :=
  Forall (fun k => (base <= Cand.ref k < base + length out)%nat) out.

(** The cell indices that a placed word claims, and those of the whole
    active list. *)
Definition wordIdxs (p : Placed.t) : list Z := map Part.idx (Placed.cells p).

Definition claimedIdxs (words : list Placed.t) : list Z := concat (map wordIdxs words).

Definition lockedAt (cells : list Cell.t) (idx : Z) : Prop :=
  exists cell, jsIndex cells idx = Some cell /\ Cell.locked cell = true.

(** No cell is claimed twice, and every claimed cell is locked. *)
Definition exclusive (w : World.t) : Prop :=
  NoDup (claimedIdxs (World.words w)) /\
  Forall (lockedAt (World.cells w)) (claimedIdxs (World.words w)).

(** What a candidate of a row scan is: a run of [len] included cells of
    row [r] from column [c] on, with the word that they spell, which the
    tree holds. *)
Definition rowCandidate (w : World.t) (include : list bool) (k : Cand.t) : Prop :=
  exists r c len : Z,
    0 <= r < Grid.rows (World.grid w) /\
    0 <= c /\ 0 < len /\ c + len <= Grid.cols (World.grid w) /\
    Cand.cells k = rowRun w r c len /\
    Cand.word k = segWord (rowRun w r c len) /\
    Cand.r k = r /\ Cand.c k = c /\ Cand.dir k = Dir.H /\
    accepts (World.trie w) (Cand.word k) = true /\
    forall j, c <= j < c + len -> included include (getCellIndex w r j) = true.

(** Whether the walk along [w] finds a node. *)
Definition walks (node : Trie.node) (w : string) : bool :=
  match walk node w with Some _ => true | None => false end.

(** What [finalizeCapture] does to a cell of the captured word: unlocked,
    sent fading out, the staged character dropped. *)
Definition released (cell : Cell.t) : Cell.t :=
  Cell.set_nextChar None (Cell.set_fadeDir (-1) (Cell.set_locked false cell)).

(** Whether [idx] is among the indices [idxs]. *)
Definition among (idx : Z) (idxs : list Z) : bool := existsb (Z.eqb idx) idxs.

(** What [seedOneWord] does to a free cell that takes the letter [ch]: the
    letter is staged, the cell is sent fading out and locked; what it
    shows and its fade level are as before. *)
Definition staged (ch : ascii) (cell : Cell.t) : Cell.t :=
  Cell.set_locked true (Cell.set_nextChar (Some ch) (Cell.set_fadeDir (-1) cell)).

(** The entry of the cell at offset [i] of a word placed at [r], [c]. *)
Definition partAt (w : World.t) (r c : Z) (dir : Dir.t) (i : Z) : Part.t :=
  match dir with
  | Dir.H => Part.mk r (c + i) (runIndex w r c dir i)
  | Dir.V => Part.mk (r + i) c (runIndex w r c dir i)
  end.

(** [w'] is [w] with [word] placed at [r], [c] in direction [dir]: the
    word fits the grid there, it is the new last entry of the active list,
    each of its cells was free and has its letter staged, and every other
    cell is as before. *)
Definition placedAt (w w' : World.t) (word : string) (r c : Z) (dir : Dir.t) : Prop :=
  0 <= r /\ 0 <= c /\
  match dir with
  | Dir.H => r < Grid.rows (World.grid w) /\ c + strLen word <= Grid.cols (World.grid w)
  | Dir.V => r + strLen word <= Grid.rows (World.grid w) /\ c < Grid.cols (World.grid w)
  end /\
  World.words w' =
    World.words w ++
    [Placed.mk (World.nextRef w) word r c dir (map (partAt w r c dir) (seqZ 0 (strLen word)))] /\
  (forall (i : nat) (ch : ascii),
     list_ascii_of_string word !! i = Some ch ->
     exists cell,
       jsIndex (World.cells w) (runIndex w r c dir (Z.of_nat i)) = Some cell /\
       Cell.locked cell = false /\
       jsIndex (World.cells w') (runIndex w r c dir (Z.of_nat i)) = Some (staged ch cell)) /\
  (forall idx,
     (forall i, 0 <= i < strLen word -> idx <> runIndex w r c dir i) ->
     jsIndex (World.cells w') idx = jsIndex (World.cells w) idx).

(** A state from which the frame loop can go on: the grid is well formed,
    an active capture has its frozen candidate, and the cells of a frozen
    candidate are on the grid. *)
Definition sane (w : World.t) : Prop :=
  wfWorld w /\
  (Capture.active (World.capture w) = true ->
   exists k, Capture.wordUnderSpot (World.capture w) = Some k) /\
  (forall k, Capture.wordUnderSpot (World.capture w) = Some k ->
     validCand (World.cells w) k).

(* ============================== PROPERTIES ================================= *)

(** ** Numbers *)

Lemma rngNext_range (t : Rng) : (0 <= fst (rngNext t) < 1)%Q.
Proof.
  unfold rngNext; cbn [fst].
  set (u := toUint32 _).
  assert (Hu : 0 <= u < 2 ^ 32) by (apply Z.mod_pos_bound; lia).
  split.
  - apply Qle_shift_div_l; [reflexivity |].
    rewrite Qmult_0_l. change 0%Q with (inject_Z 0). rewrite <- Zle_Qle. lia.
  - apply Qlt_shift_div_r; [reflexivity |].
    rewrite Qmult_1_l. change 4294967296%Q with (inject_Z 4294967296).
    rewrite <- Zlt_Qlt. lia.
Qed.

Lemma floorMul_range (x : Q) (n : Z) :
  (0 <= x < 1)%Q -> 0 < n -> 0 <= floorMul x n < n.
Proof.
  intros [Hx0 Hx1] Hn. unfold floorMul.
  assert (Hn' : (0 < inject_Z n)%Q) by (change 0%Q with (inject_Z 0); rewrite <- Zlt_Qlt; lia).
  split.
  - rewrite <- (Qfloor_Z 0). apply Qfloor_resp_le.
    change (inject_Z 0) with 0%Q. apply Qmult_le_0_compat; [done | by apply Qlt_le_weak].
  - rewrite Zlt_Qlt. eapply Qle_lt_trans; [apply Qfloor_le |].
    rewrite <- (Qmult_1_l (inject_Z n)) at 2. by apply Qmult_lt_compat_r.
Qed.

Lemma jsIndex_Some {A} (l : list A) (i : Z) :
  0 <= i < Z.of_nat (length l) -> exists a, jsIndex l i = Some a /\ In a l.
Proof.
  intros Hi. unfold jsIndex.
  destruct (Z.ltb_spec i 0) as [|_]; [lia |].
  destruct (lookup_lt_is_Some_2 l (Z.to_nat i)) as [a Ha]; [lia |].
  exists a. split; [done |]. apply list_elem_of_In. by eapply list_elem_of_lookup_2.
Qed.

Lemma jsIndex_In {A} (l : list A) (i : Z) (a : A) : jsIndex l i = Some a -> In a l.
Proof.
  unfold jsIndex. destruct (i <? 0); [done |].
  intros Ha. apply list_elem_of_In. by eapply list_elem_of_lookup_2.
Qed.

(** ** Doubles *)

(** Powers of two, the binary logarithm and rounding to the nearest
    integer; then [round64]: monotone, the identity on its own results,
    and with results that are a unit in the last place apart. *)

Lemma pow2_pos (e : Z) : (0 < 2 ^ e)%Q.
Proof. apply Qpower_0_lt. reflexivity. Qed.

Lemma pow2_add (a b : Z) : (2 ^ (a + b) == 2 ^ a * 2 ^ b)%Q.
Proof. apply Qpower_plus. discriminate. Qed.

Lemma pow2_le (a b : Z) : a <= b -> (2 ^ a <= 2 ^ b)%Q.
Proof. intros H. apply Qpower_le_compat_l; [exact H | discriminate]. Qed.


Lemma pow2_lt_inv (a b : Z) : (2 ^ a < 2 ^ b)%Q -> a < b.
Proof. intros H. apply (Qpower_lt_compat_l_inv 2); [exact H | reflexivity]. Qed.

Lemma pow2_Z (n : Z) : 0 <= n -> (inject_Z (2 ^ n) == 2 ^ n)%Q.
Proof. intros H. apply (Zpower_Qpower 2 n H). Qed.

Lemma Qdiv_pow2_le (x y : Q) (e : Z) : (x <= y)%Q -> (x / 2 ^ e <= y / 2 ^ e)%Q.
Proof.
  intros H. unfold Qdiv. apply Qmult_le_compat_r; [exact H |].
  apply Qlt_le_weak, Qinv_lt_0_compat, pow2_pos.
Qed.


Lemma log2Q_spec (x : Q) : (0 < x)%Q -> (2 ^ log2Q x <= x < 2 ^ (log2Q x + 1))%Q.
Proof.
  intros Hx. destruct x as [n d]. unfold log2Q. cbn [Qnum Qden].
  assert (Hn : 0 < n) by (unfold Qlt in Hx; cbn in Hx; lia).
  set (a := Z.log2 n). set (b := Z.log2 (Z.pos d)).
  destruct (Z.log2_spec n Hn) as [Ha1 Ha2]. fold a in Ha1, Ha2.
  destruct (Z.log2_spec (Z.pos d) ltac:(lia)) as [Hb1 Hb2]. fold b in Hb1, Hb2.
  assert (Ha0 : 0 <= a) by apply Z.log2_nonneg.
  assert (Hb0 : 0 <= b) by apply Z.log2_nonneg.
  assert (HN1 : (2 ^ a <= inject_Z n)%Q).
  { rewrite <- pow2_Z by done. rewrite <- Zle_Qle. exact Ha1. }
  assert (HN2 : (inject_Z n < 2 ^ (a + 1))%Q).
  { rewrite <- pow2_Z by lia. rewrite <- Zlt_Qlt. replace (a + 1) with (Z.succ a) by lia. exact Ha2. }
  assert (HD1 : (2 ^ b <= inject_Z (Z.pos d))%Q).
  { rewrite <- pow2_Z by done. rewrite <- Zle_Qle. exact Hb1. }
  assert (HD2 : (inject_Z (Z.pos d) < 2 ^ (b + 1))%Q).
  { rewrite <- pow2_Z by lia. rewrite <- Zlt_Qlt. replace (b + 1) with (Z.succ b) by lia. exact Hb2. }
  assert (Hxd : (n # d == inject_Z n / inject_Z (Z.pos d))%Q) by apply Qmake_Qdiv.
  set (N := inject_Z n) in *. set (D := inject_Z (Z.pos d)) in *. set (x := (n # d)%Q) in *.
  assert (HD0 : (0 < D)%Q) by (pose proof (pow2_pos b); lra).
  assert (HxD : (x * D == N)%Q) by (rewrite Hxd; field; lra).
  pose proof (pow2_pos (a - b)) as Hp0.
  assert (Hup : (x < 2 ^ (a - b + 1))%Q).
  { replace (a - b + 1) with ((a + 1) + (- b)) by lia. rewrite pow2_add.
    assert (E : (2 ^ (- b) * 2 ^ b == 1)%Q).
    { rewrite <- pow2_add. replace (- b + b) with 0 by lia. reflexivity. }
    pose proof (pow2_pos (- b)) as Hnb. pose proof (pow2_pos (a + 1)) as Ha1p.
    pose proof (pow2_pos b) as Hbp.
    apply Qnot_le_lt. intros Hc.
    assert (H1 : (2 ^ (a + 1) * 2 ^ (- b) * D <= x * D)%Q)
      by (apply Qmult_le_compat_r; [exact Hc | lra]).
    assert (H2 : (2 ^ (a + 1) * 2 ^ (- b) * 2 ^ b <= 2 ^ (a + 1) * 2 ^ (- b) * D)%Q).
    { apply Qmult_le_l; [| exact HD1]. apply Qmult_lt_0_compat; lra. }
    assert (H3 : (2 ^ (a + 1) * 2 ^ (- b) * 2 ^ b == 2 ^ (a + 1))%Q).
    { rewrite <- Qmult_assoc, E. ring. }
    lra. }
  assert (Hlow : (2 ^ (a - b - 1) <= x)%Q).
  { replace (a - b - 1) with (a + (- (b + 1))) by lia. rewrite pow2_add.
    assert (E : (2 ^ (- (b + 1)) * 2 ^ (b + 1) == 1)%Q).
    { rewrite <- pow2_add. replace (- (b + 1) + (b + 1)) with 0 by lia. reflexivity. }
    pose proof (pow2_pos (- (b + 1))) as Hnb. pose proof (pow2_pos a) as Hap.
    pose proof (pow2_pos (b + 1)) as Hbp.
    apply Qnot_lt_le. intros Hc.
    assert (H1 : (x * D < 2 ^ a * 2 ^ (- (b + 1)) * D)%Q)
      by (apply Qmult_lt_compat_r; [lra | exact Hc]).
    assert (H2 : (2 ^ a * 2 ^ (- (b + 1)) * D <= 2 ^ a * 2 ^ (- (b + 1)) * 2 ^ (b + 1))%Q).
    { apply Qmult_le_l; [| lra]. apply Qmult_lt_0_compat; lra. }
    assert (H3 : (2 ^ a * 2 ^ (- (b + 1)) * 2 ^ (b + 1) == 2 ^ a)%Q).
    { rewrite <- Qmult_assoc, E. ring. }
    lra. }
  destruct (Qle_bool (2 ^ (a - b)) x) eqn:Hle.
  - apply Qle_bool_iff in Hle. split; [exact Hle | exact Hup].
  - assert (Hlt : (x < 2 ^ (a - b))%Q).
    { apply Qnot_le_lt. intros Hc. apply Qle_bool_iff in Hc. congruence. }
    replace (a - b - 1 + 1) with (a - b) by lia. split; [exact Hlow | exact Hlt].
Qed.


Lemma log2Q_mono (x y : Q) : (0 < x)%Q -> (x <= y)%Q -> log2Q x <= log2Q y.
Proof.
  intros Hx Hxy.
  destruct (log2Q_spec x Hx) as [Hx1 _].
  destruct (log2Q_spec y ltac:(lra)) as [_ Hy2].
  assert (log2Q x < log2Q y + 1) by (apply pow2_lt_inv; lra).
  lia.
Qed.

Lemma rne_bounds (q : Q) : Qfloor q <= rne q <= Qfloor q + 1.
Proof.
  unfold rne. destruct (_ ?= _)%Q; [destruct (Z.even _) | |]; lia.
Qed.

Lemma rne_int (q : Q) (z : Z) : (q == inject_Z z)%Q -> rne q = z.
Proof.
  intros Hq. unfold rne. rewrite (Qfloor_comp _ _ Hq), Qfloor_Z.
  destruct (Qcompare_spec (q - inject_Z z) (1 # 2)) as [Hc | Hc | Hc]; [| done |];
    rewrite Hq in Hc; lra.
Qed.

Lemma rne_mono (q1 q2 : Q) : (q1 <= q2)%Q -> rne q1 <= rne q2.
Proof.
  intros Hle. pose proof (Qfloor_resp_le _ _ Hle) as Hf.
  destruct (Z.eq_dec (Qfloor q1) (Qfloor q2)) as [Heq | Hne].
  - unfold rne. rewrite <- Heq. set (f := Qfloor q1).
    destruct (Qcompare_spec (q1 - inject_Z f) (1 # 2)) as [H1 | H1 | H1];
      destruct (Qcompare_spec (q2 - inject_Z f) (1 # 2)) as [H2 | H2 | H2];
      try (destruct (Z.even f)); try lia; lra.
  - pose proof (rne_bounds q1). pose proof (rne_bounds q2). lia.
Qed.

Lemma rne_comp (q1 q2 : Q) : (q1 == q2)%Q -> rne q1 = rne q2.
Proof.
  intros Heq. apply Z.le_antisymm; apply rne_mono; rewrite Heq; apply Qle_refl.
Qed.

Lemma rne_pow2 (q : Q) (n : Z) : 0 <= n ->
  ((2 ^ n <= q)%Q -> 2 ^ n <= rne q) /\ ((q <= 2 ^ n)%Q -> rne q <= 2 ^ n).
Proof.
  intros Hn.
  assert (Hr : rne (2 ^ n)%Q = 2 ^ n) by (apply rne_int; symmetry; by apply pow2_Z).
  split; intros H; apply rne_mono in H; lia.
Qed.

(** The exponent of the unit in the last place around a positive [x]. *)
Lemma roundPos_scaled (x : Q) :
  (0 < x)%Q ->
  let e := Z.max (-1074) (log2Q x - 52) in
  (x / 2 ^ e < 2 ^ 53)%Q /\ (-1074 < e -> (2 ^ 52 <= x / 2 ^ e)%Q).
Proof.
  intros Hx e. destruct (log2Q_spec x Hx) as [Hl1 Hl2].
  pose proof (pow2_pos e) as He.
  split.
  - apply Qlt_shift_div_r; [exact He |]. rewrite <- pow2_add.
    eapply Qlt_le_trans; [exact Hl2 |]. apply pow2_le. lia.
  - intros Hnorm. apply Qle_shift_div_l; [exact He |]. rewrite <- pow2_add.
    eapply Qle_trans; [| exact Hl1]. apply pow2_le. lia.
Qed.

Lemma roundPos_mono (x y : Q) : (0 < x)%Q -> (x <= y)%Q -> (roundPos x <= roundPos y)%Q.
Proof.
  intros Hx Hxy. assert (Hy : (0 < y)%Q) by lra.
  pose proof (log2Q_mono x y Hx Hxy) as Hl.
  destruct (roundPos_scaled x Hx) as [Hx53 _].
  destruct (roundPos_scaled y Hy) as [_ Hy52].
  unfold roundPos.
  set (ex := Z.max (-1074) (log2Q x - 52)) in *.
  set (ey := Z.max (-1074) (log2Q y - 52)) in *.
  destruct (Z.eq_dec ex ey) as [Heq | Hne].
  - rewrite <- Heq. apply Qmult_le_compat_r; [| apply Qlt_le_weak, pow2_pos].
    rewrite <- Zle_Qle. apply rne_mono. by apply Qdiv_pow2_le.
  - assert (Hlt : ex < ey) by lia.
    specialize (Hy52 ltac:(lia)).
    apply (proj1 (rne_pow2 _ 52 ltac:(lia))) in Hy52.
    apply Qlt_le_weak in Hx53. apply (proj2 (rne_pow2 _ 53 ltac:(lia))) in Hx53.
    apply Qle_trans with (inject_Z (2 ^ 53) * 2 ^ ex)%Q.
    { apply Qmult_le_compat_r; [| apply Qlt_le_weak, pow2_pos]. by rewrite <- Zle_Qle. }
    apply Qle_trans with (inject_Z (2 ^ 52) * 2 ^ ey)%Q.
    { rewrite !pow2_Z by lia. rewrite <- !pow2_add. apply pow2_le. lia. }
    apply Qmult_le_compat_r; [| apply Qlt_le_weak, pow2_pos]. by rewrite <- Zle_Qle.
Qed.

Lemma roundPos_nonneg (x : Q) : (0 < x)%Q -> (0 <= roundPos x)%Q.
Proof.
  intros Hx. unfold roundPos. apply Qmult_le_0_compat; [| apply Qlt_le_weak, pow2_pos].
  replace 0%Q with (inject_Z 0) by reflexivity. rewrite <- Zle_Qle.
  rewrite <- (rne_int 0 0 ltac:(reflexivity)). apply rne_mono.
  apply Qlt_le_weak, Qlt_shift_div_l; [apply pow2_pos | lra].
Qed.

Lemma round64_pos (x : Q) : (0 < x)%Q -> round64 x = roundPos x.
Proof.
  intros Hx. unfold round64. destruct x as [[| n | n] d]; [| done |];
    unfold Qlt in Hx; cbn in Hx; lia.
Qed.

Lemma round64_neg (x : Q) : (x < 0)%Q -> round64 x = (- roundPos (- x))%Q.
Proof.
  intros Hx. unfold round64. destruct x as [[| n | n] d]; [| | done];
    unfold Qlt in Hx; cbn in Hx; lia.
Qed.

Lemma round64_zero (x : Q) : (x == 0)%Q -> round64 x = 0%Q.
Proof.
  intros Hx. unfold round64. destruct x as [[| n | n] d]; [done | |];
    unfold Qeq in Hx; cbn in Hx; lia.
Qed.

(** Rounding is monotone. *)
Lemma round64_mono (x y : Q) : (x <= y)%Q -> (round64 x <= round64 y)%Q.
Proof.
  intros Hxy.
  destruct (Q_dec x 0) as [[Hx | Hx] | Hx]; destruct (Q_dec y 0) as [[Hy | Hy] | Hy];
    try lra.
  - rewrite (round64_neg x Hx), (round64_neg y Hy).
    assert (roundPos (- y) <= roundPos (- x))%Q by (apply roundPos_mono; lra). lra.
  - rewrite (round64_neg x Hx), (round64_pos y Hy).
    pose proof (roundPos_nonneg (- x) ltac:(lra)). pose proof (roundPos_nonneg y Hy). lra.
  - rewrite (round64_neg x Hx), (round64_zero y Hy).
    pose proof (roundPos_nonneg (- x) ltac:(lra)). lra.
  - rewrite (round64_pos x Hx), (round64_pos y Hy). by apply roundPos_mono.
  - rewrite (round64_zero x Hx), (round64_pos y Hy). by apply roundPos_nonneg.
  - rewrite (round64_zero x Hx), (round64_zero y Hy). lra.
Qed.

Lemma round64_comp (x y : Q) : (x == y)%Q -> (round64 x == round64 y)%Q.
Proof.
  intros Heq. apply Qle_antisym; apply round64_mono; rewrite Heq; apply Qle_refl.
Qed.

Lemma roundPos_repr (x : Q) : (0 < x)%Q -> exists m e, repr (roundPos x) m e.
Proof.
  intros Hx. destruct (roundPos_scaled x Hx) as [H53 H52].
  set (e := Z.max (-1074) (log2Q x - 52)) in *.
  exists (rne (x / 2 ^ e)), e. split; [reflexivity |]. split; [lia |]. split.
  - split.
    + rewrite <- (rne_int 0 0 ltac:(reflexivity)). apply rne_mono.
      apply Qlt_le_weak, Qlt_shift_div_l; [apply pow2_pos | lra].
    + apply (proj2 (rne_pow2 _ 53 ltac:(lia))). by apply Qlt_le_weak.
  - destruct (Z.eq_dec e (-1074)) as [He | He]; [by left | right].
    apply (proj1 (rne_pow2 _ 52 ltac:(lia))). apply H52. lia.
Qed.




(** Two positive doubles that differ are at least one unit in the last
    place of the larger apart. *)
Lemma repr_gap (v1 v2 : Q) (m1 e1 m2 e2 : Z) :
  repr v1 m1 e1 -> repr v2 m2 e2 ->
  (0 < v1)%Q -> (v1 < v2)%Q ->
  (v1 <= v2 * (1 - (1 # 2 ^ 53)))%Q.
Proof.
  intros (Hv1 & He1 & [Hm10 Hm1] & Hn1) (Hv2 & He2 & [Hm20 Hm2] & Hn2) Hpos Hlt.
  pose proof (pow2_pos e1) as Hp1. pose proof (pow2_pos e2) as Hp2.
  destruct (Z_le_gt_dec e1 e2) as [Hle | Hgt].
  - set (k := e2 - e1). set (M := m2 * 2 ^ k).
    assert (Hk : 0 <= k) by lia.
    assert (HM : (v2 == inject_Z M * 2 ^ e1)%Q).
    { rewrite Hv2. subst M. rewrite inject_Z_mult, pow2_Z by done.
      replace e2 with (k + e1) at 1 by lia. rewrite pow2_add. ring. }
    assert (HmM : m1 < M).
    { rewrite Hv1, HM in Hlt. apply Qmult_lt_r in Hlt; [| exact Hp1]. by rewrite <- Zlt_Qlt in Hlt. }
    assert (Hgap : m1 * 2 ^ 53 <= M * (2 ^ 53 - 1)).
    { destruct (Z.eq_dec k 0) as [Hk0 | Hk0].
      - subst M. rewrite Hk0 in *. change (2 ^ 0) with 1 in *. nia.
      - assert (Hnorm : 2 ^ 52 <= m2) by lia.
        assert (HP : 2 <= 2 ^ k).
        { change 2 with (2 ^ 1) at 1. apply Z.pow_le_mono_r; lia. }
        subst M. set (P := 2 ^ k) in *.
        change (2 ^ 53) with 9007199254740992 in *.
        change (2 ^ 52) with 4503599627370496 in *.
        destruct (Z.eq_dec (m2 * P) 9007199254740992) as [Htop | Hnot]; [nia |].
        assert (9007199254740992 + 2 <= m2 * P) by nia.
        nia. }
    rewrite Hv1, HM.
    assert (E : (inject_Z M * 2 ^ e1 * (1 - (1 # 2 ^ 53))
                 == inject_Z (M * (2 ^ 53 - 1)) * 2 ^ e1 / inject_Z (2 ^ 53))%Q).
    { rewrite inject_Z_mult. change (inject_Z (2 ^ 53 - 1)) with (9007199254740991 # 1)%Q.
      change (inject_Z (2 ^ 53)) with (9007199254740992 # 1)%Q.
      change (1 # 2 ^ 53)%Q with (1 # 9007199254740992)%Q. field. }
    rewrite E. apply Qle_shift_div_l; [reflexivity |].
    rewrite <- Qmult_assoc, (Qmult_comm (2 ^ e1)), Qmult_assoc, <- inject_Z_mult.
    apply Qmult_le_compat_r; [| lra]. by rewrite <- Zle_Qle.
  - assert (Hnorm : 2 ^ 52 <= m1) by lia.
    assert (H1 : (2 ^ (52 + e1) <= v1)%Q).
    { rewrite Hv1, pow2_add, <- (pow2_Z 52) by lia.
      apply Qmult_le_compat_r; [by rewrite <- Zle_Qle | lra]. }
    assert (H2 : (v2 <= 2 ^ (53 + e2))%Q).
    { rewrite Hv2, pow2_add, <- (pow2_Z 53) by lia.
      apply Qmult_le_compat_r; [by rewrite <- Zle_Qle | lra]. }
    assert (H3 : (2 ^ (53 + e2) <= 2 ^ (52 + e1))%Q) by (apply pow2_le; lia).
    lra.
Qed.

(** The quotient of two doubles, rounded, is below 1 exactly when the
    dividend is below the (positive) divisor: the rounding of a division
    never lifts a quotient to 1. *)
Lemma fdiv_below_one (x y : Q) :
  (0 < round64 y)%Q ->
  (round64 (round64 x / round64 y) < 1)%Q <-> (round64 x < round64 y)%Q.
Proof.
  intros HH. set (E := round64 x) in *. set (H := round64 y) in *.
  assert (Hone : (round64 1 == 1)%Q) by (vm_compute; reflexivity).
  split.
  - intros Hp. apply Qnot_le_lt. intros Hc.
    assert (H1 : (1 <= E / H)%Q) by (apply Qle_shift_div_l; lra).
    apply round64_mono in H1. lra.
  - intros Hlt.
    set (c := (1 - (1 # 2 ^ 53))%Q).
    assert (Hc : (round64 c == c)%Q) by (vm_compute; reflexivity).
    assert (Hc1 : (c < 1)%Q) by (vm_compute; reflexivity).
    assert (Hc0 : (0 <= c)%Q) by (vm_compute; discriminate).
    assert (Hq : (E / H <= c)%Q).
    { apply Qle_shift_div_r; [exact HH |].
      destruct (Qlt_le_dec 0 E) as [Hpos | Hneg].
      - assert (Hx : (0 < x)%Q).
        { apply Qnot_le_lt. intros Hx. apply round64_mono in Hx.
          change (round64 0) with 0%Q in Hx. subst E. lra. }
        assert (Hy : (0 < y)%Q).
        { apply Qnot_le_lt. intros Hy. apply round64_mono in Hy.
          change (round64 0) with 0%Q in Hy. subst H. lra. }
        subst E H. rewrite (round64_pos x Hx), (round64_pos y Hy) in *.
        destruct (roundPos_repr x Hx) as (m1 & e1 & Hr1).
        destruct (roundPos_repr y Hy) as (m2 & e2 & Hr2).
        pose proof (repr_gap _ _ _ _ _ _ Hr1 Hr2 Hpos Hlt) as Hgap.
        fold c in Hgap. lra.
      - assert (0 <= c * H)%Q by (apply Qmult_le_0_compat; lra). lra. }
    apply round64_mono in Hq. lra.
Qed.

(** ** Prefix tree *)

Lemma accepts_emptyNode (w : string) : accepts emptyNode w = false.
Proof. destruct w; reflexivity. Qed.

Lemma accepts_cons (node : Trie.node) (ch : ascii) (w : string) :
  accepts node (String ch w) =
  match Trie.c node !! ch with Some n => accepts n w | None => false end.
Proof. unfold accepts; cbn [walk]. by destruct (Trie.c node !! ch). Qed.

Lemma accepts_insertWord (w' : string) :
  forall (node : Trie.node) (w : string),
    accepts (insertWord w' node) w = String.eqb w w' || accepts node w.
Proof.
  induction w' as [| ch' w' IH]; intros node w.
  - destruct w as [| ch w]; [reflexivity |].
    rewrite !accepts_cons. reflexivity.
  - destruct w as [| ch w]; [reflexivity |].
    cbn [insertWord String.eqb]. rewrite !accepts_cons. cbn [Trie.c].
    destruct (Ascii.eqb_spec ch ch') as [-> | Hne].
    + rewrite lookup_insert_eq, IH.
      destruct (Trie.c node !! ch'); [done |]. by rewrite accepts_emptyNode.
    + rewrite lookup_insert_ne by congruence. reflexivity.
Qed.

Lemma accepts_fold (words : list string) :
  forall (node : Trie.node) (w : string),
    accepts (fold_left (fun root w => insertWord w root) words node) w
    = existsb (String.eqb w) words || accepts node w.
Proof.
  induction words as [| w0 words IH]; intros node w; cbn [fold_left existsb]; [done |].
  rewrite IH, accepts_insertWord. by rewrite orb_assoc, (orb_comm (existsb _ _)).
Qed.

Lemma accepts_buildTrie (words : list string) (w : string) :
  accepts (buildTrie words) w = existsb (String.eqb w) words.
Proof. unfold buildTrie. rewrite accepts_fold, accepts_emptyNode. apply orb_false_r. Qed.

Lemma existsb_eqb_In (words : list string) (w : string) :
  existsb (String.eqb w) words = true <-> In w words.
Proof.
  rewrite existsb_exists. split.
  - intros (v & Hv & Heq). apply String.eqb_eq in Heq. by subst.
  - intros Hin. exists w. split; [done | apply String.eqb_refl].
Qed.

(** C6 (trie correctness).  For every word list: the walk from the root
    along a word of the list succeeds and ends at a node whose complete-word
    flag is set; for a string that is not in the list the walk stops at a
    missing child or ends at a node whose flag is not set. *)
Theorem buildTrie_walk_correct (words : list string) (w : string) :
  (In w words ->
     exists n, walk (buildTrie words) w = Some n /\ Trie.t n = true) /\
  (~ In w words ->
     walk (buildTrie words) w = None \/
     exists n, walk (buildTrie words) w = Some n /\ Trie.t n = false).
Proof.
  pose proof (accepts_buildTrie words w) as Hacc.
  pose proof (existsb_eqb_In words w) as Hin.
  unfold accepts in Hacc. split; intros Hw.
  - apply Hin in Hw. rewrite Hw in Hacc.
    destruct (walk (buildTrie words) w) as [n |]; [by exists n | done].
  - destruct (walk (buildTrie words) w) as [n |]; [right | by left].
    exists n. split; [done |]. rewrite Hacc.
    destruct (existsb (String.eqb w) words) eqn:He; [| done].
    exfalso. by apply Hw, Hin.
Qed.

Lemma buildTrie_walk_correct_witness :
  (In "fade"%string DICTIONARY_js /\
   exists n, walk (buildTrie DICTIONARY_js) "fade" = Some n /\ Trie.t n = true) /\
  (~ In "fad"%string DICTIONARY_js /\
   (walk (buildTrie DICTIONARY_js) "fad" = None \/
    exists n, walk (buildTrie DICTIONARY_js) "fad" = Some n /\ Trie.t n = false)).
Proof.
  assert (Hin : In "fade"%string DICTIONARY_js) by (vm_compute; tauto).
  assert (Hout : ~ In "fad"%string DICTIONARY_js).
  { intros Hc. apply existsb_eqb_In in Hc. vm_compute in Hc. discriminate. }
  split; split; try assumption.
  - exact (proj1 (buildTrie_walk_correct DICTIONARY_js "fade") Hin).
  - exact (proj2 (buildTrie_walk_correct DICTIONARY_js "fad") Hout).
Defined.

(** ** Choosing and selecting words *)

Lemma In_sortByLength (k : Cand.t) (l : list Cand.t) : In k (sortByLength l) <-> In k l.
Proof.
  assert (Hins : forall a l', In k (insertByLength a l') <-> k = a \/ In k l').
  { intros a l'. induction l' as [| b l' IH]; cbn [insertByLength].
    - cbn. intuition.
    - destruct (strLen (Cand.word a) <? strLen (Cand.word b)); cbn [In]; [rewrite IH |];
        intuition congruence. }
  induction l as [| a l IH]; [done |].
  unfold sortByLength in *. cbn [foldr]. rewrite Hins, IH. cbn [In]. intuition congruence.
Qed.

(** The candidate returned by the scanner passed the length filter. *)
Lemma wordUnderSpotlight_lengthWithin (prefs : Prefs) (w w' : World.t) (k : Cand.t) :
  wordUnderSpotlight prefs w = Some (Some k, w') ->
  lengthWithin (minWordLength prefs) (maxWordLength prefs) (Cand.word k) = true.
Proof.
  unfold wordUnderSpotlight.
  destruct (scanCandidates prefs w) as [candidates |]; [| done]. cbn [mbind option_bind].
  set (filtered := List.filter _ candidates).
  destruct (sortByLength filtered) as [| k0 sorted] eqn:Hs; [done |].
  set (longest := List.filter _ (k0 :: sorted)).
  assert (Hsub : forall k', In k' longest -> In k' (k0 :: sorted)).
  { intros k' Hk'. by apply filter_In in Hk' as [Hk' _]. }
  clearbody longest.
  destruct (rngNext _) as [x rng]. intros [= Hk _].
  apply jsIndex_In, Hsub in Hk.
  rewrite <- Hs in Hk. apply (proj1 (In_sortByLength _ _)) in Hk.
  subst filtered. by apply filter_In in Hk as [_ Hk].
Qed.

(** [chooseWord] on a non-empty dictionary: the word comes from the filtered
    list, or from the whole dictionary when the filtered list is empty. *)
Lemma chooseWord_source (DICTIONARY : list string) (rng : Rng) (minLen maxLen : Z) :
  DICTIONARY <> [] ->
  exists word,
    fst (chooseWord DICTIONARY rng minLen maxLen) = Some word /\
    ((List.filter (lengthWithin minLen maxLen) DICTIONARY = [] /\ In word DICTIONARY) \/
     In word (List.filter (lengthWithin minLen maxLen) DICTIONARY)).
Proof.
  intros Hne. unfold chooseWord.
  set (filtered := List.filter (lengthWithin minLen maxLen) DICTIONARY).
  set (source := match filtered with [] => DICTIONARY | _ => filtered end).
  pose proof (rngNext_range rng) as Hx. destruct (rngNext rng) as [x rng']. cbn [fst] in *.
  assert (Hsrc : source <> []) by (subst source; by destruct filtered).
  destruct (jsIndex_Some source (floorMul x (Z.of_nat (length source)))) as (word & Hw & Hin).
  { apply floorMul_range; [done |]. destruct source; [done | cbn [length]; lia]. }
  exists word. split; [done |].
  subst source. destruct filtered; [by left | by right].
Qed.


(** ** Letter grid *)

Lemma clamp_range (v : Q) : (0 <= clamp v 0 1 <= 1)%Q.
Proof.
  unfold clamp. split; [apply Q.le_max_l |].
  apply Q.max_lub; [done | apply Q.le_min_l].
Qed.

Lemma clamp_down (x d : Q) : (0 <= x)%Q -> (d <= 0)%Q -> (clamp (x + d) 0 1 <= x)%Q.
Proof.
  intros Hx Hd. unfold clamp. apply Q.max_lub; [done |].
  eapply Qle_trans; [apply Q.le_min_r | lra].
Qed.

Lemma clamp_up (x d : Q) : (x <= 1)%Q -> (0 <= d)%Q -> (x <= clamp (x + d) 0 1)%Q.
Proof.
  intros Hx Hd. unfold clamp. eapply Qle_trans; [| apply Q.le_max_r].
  apply Q.min_glb; lra.
Qed.

(** The time step that [step] hands to the systems is never negative. *)
Lemma frameDt_range (now lastMs : Q) : (0 <= frameDt now lastMs <= 5 # 100)%Q.
Proof.
  unfold frameDt. split; [| apply Q.le_min_l].
  apply Q.min_glb; [done | apply Q.le_max_l].
Qed.

Lemma randBetween_range (rng : Rng) (a b : Q) :
  (a <= b)%Q -> (a <= fst (randBetween rng a b))%Q.
Proof.
  intros Hab. unfold randBetween.
  pose proof (rngNext_range rng) as [Hx _]. destruct (rngNext rng) as [x rng']. cbn [fst] in *.
  assert (0 <= (b - a) * x)%Q by (apply Qmult_le_0_compat; lra). lra.
Qed.

Lemma rate_nonneg (d dt : Q) : (0 < d)%Q -> (0 <= dt)%Q -> (0 <= 1 / d * dt)%Q.
Proof.
  intros Hd Hdt. apply Qmult_le_0_compat; [| done].
  apply Qlt_le_weak. unfold Qdiv. rewrite Qmult_1_l. by apply Qinv_lt_0_compat.
Qed.

Lemma randomGridChar_letter (rng : Rng) : In (fst (randomGridChar rng)) alphabet.
Proof.
  unfold randomGridChar.
  pose proof (rngNext_range rng) as Hx. destruct (rngNext rng) as [x rng']. cbn [fst] in *.
  destruct (jsIndex_Some alphabet (floorMul x 26)) as (ch & -> & Hin); [| done].
  change (Z.of_nat (length alphabet)) with 26. by apply floorMul_range.
Qed.

(** The fade of one cell: what [updateCell] does to [fadeT] and [fadeDir]
    of a cell whose fade is active. *)
Lemma updateCell_fade (prefs : Prefs) (now dt : Q) (cell : Cell.t) (rng : Rng) :
  (0 < fst (fadeDurationRangeSec prefs) <= snd (fadeDurationRangeSec prefs))%Q ->
  (0 <= dt)%Q ->
  (0 <= Cell.fadeT cell <= 1)%Q ->
  Cell.fadeDir cell <> 0 ->
  let cell' := fst (updateCell prefs now dt cell rng) in
  (0 <= Cell.fadeT cell' <= 1)%Q /\
  (Cell.fadeDir cell < 0 ->
     (Cell.fadeT cell' <= Cell.fadeT cell)%Q /\
     ((Cell.fadeT cell' == 0)%Q -> Cell.fadeDir cell' = 1) /\
     (~ (Cell.fadeT cell' == 0)%Q -> Cell.fadeDir cell' = Cell.fadeDir cell)) /\
  (0 < Cell.fadeDir cell ->
     (Cell.fadeT cell <= Cell.fadeT cell')%Q /\
     ((Cell.fadeT cell' == 1)%Q -> Cell.fadeDir cell' = 0) /\
     (~ (Cell.fadeT cell' == 1)%Q -> Cell.fadeDir cell' = Cell.fadeDir cell)).
Proof.
  intros Hab Hdt HT Hdir. unfold updateCell.
  destruct (fadeDurationRangeSec prefs) as [a b]. cbn [fst snd] in Hab.
  destruct (Z.eqb_spec (Cell.fadeDir cell) 0) as [| _]; [done |]. cbn [negb].
  pose proof (randBetween_range rng a b (proj2 Hab)) as Hd.
  destruct (randBetween rng a b) as [d rng1]. cbn [fst] in Hd.
  assert (Hrate : (0 <= 1 / d * dt)%Q) by (apply rate_nonneg; lra).
  set (ft := clamp _ 0 1).
  pose proof (clamp_range (Cell.fadeT cell + inject_Z (Cell.fadeDir cell) * (1 / d) * dt)) as Hft.
  fold ft in Hft.
  assert (Hdown : Cell.fadeDir cell < 0 -> (ft <= Cell.fadeT cell)%Q).
  { intros Hneg. apply clamp_down; [lra |].
    assert (inject_Z (Cell.fadeDir cell) <= 0)%Q
      by (change 0%Q with (inject_Z 0); rewrite <- Zle_Qle; lia).
    set (k := inject_Z (Cell.fadeDir cell)) in *.
    assert (Hprod : (0 <= - k * (1 / d * dt))%Q) by (apply Qmult_le_0_compat; lra).
    assert (Heq : (k * (1 / d) * dt == - (- k * (1 / d * dt)))%Q) by ring.
    rewrite Heq. lra. }
  assert (Hup : 0 < Cell.fadeDir cell -> (Cell.fadeT cell <= ft)%Q).
  { intros Hpos. apply clamp_up; [lra |].
    assert (0 <= inject_Z (Cell.fadeDir cell))%Q
      by (change 0%Q with (inject_Z 0); rewrite <- Zle_Qle; lia).
    rewrite <- Qmult_assoc. by apply Qmult_le_0_compat. }
  cbn [Cell.fadeT Cell.set_fadeT].
  destruct (Qeq_bool ft 0) eqn:E0; cbn [andb].
  - apply Qeq_bool_iff in E0.
    destruct (Z.ltb_spec (Cell.fadeDir cell) 0) as [Hneg | Hnn].
    + destruct (match Cell._nextChar _ with Some ch => _ | None => _ end) as [ch rng2].
      cbn. split; [done |]. split; [| lia].
      intros _. split; [by apply Hdown |]. split; [done | by intros []].
    + assert (E1 : Qeq_bool ft 1 = false).
      { apply not_true_is_false. intros E1. apply Qeq_bool_iff in E1. rewrite E0 in E1. done. }
      rewrite E1. cbn. split; [done |]. split; [lia |].
      intros Hpos. split; [by apply Hup |]. split; [| done].
      intros E1'. rewrite E0 in E1'. done.
  - assert (Hn0 : ~ (ft == 0)%Q) by (intros E; apply Qeq_bool_iff in E; congruence).
    destruct (Qeq_bool ft 1) eqn:E1; cbn [andb].
    + apply Qeq_bool_iff in E1.
      destruct (Z.gtb_spec (Cell.fadeDir cell) 0) as [Hpos | Hnp].
      * destruct (randBetween rng1 a b) as [d2 rng2]. cbn.
        split; [done |]. split; [lia |].
        intros _. split; [by apply Hup |]. split; [done | by intros []].
      * cbn. split; [done |]. split; [| lia].
        intros Hneg. split; [by apply Hdown |]. split; [by intros E | done].
    + assert (Hn1 : ~ (ft == 1)%Q) by (intros E; apply Qeq_bool_iff in E; congruence).
      cbn. split; [done |]. split.
      * intros Hneg. split; [by apply Hdown |]. split; [by intros E | done].
      * intros Hpos. split; [by apply Hup |]. split; [by intros E | done].
Qed.

Lemma updateCells_lookup (prefs : Prefs) (now dt : Q) (cells : list Cell.t) :
  forall (rng : Rng) (i : nat) (cell : Cell.t),
    cells !! i = Some cell ->
    exists rng_i,
      fst (updateCells prefs now dt cells rng) !! i
      = Some (fst (updateCell prefs now dt cell rng_i)).
Proof.
  induction cells as [| cell0 cells IH]; intros rng i cell Hi; [done |].
  cbn [updateCells].
  destruct (updateCell prefs now dt cell0 rng) as [cell0' rng1] eqn:E0.
  specialize (IH rng1). destruct (updateCells prefs now dt cells rng1) as [rest rng2].
  destruct i as [| i]; cbn in Hi |- *.
  - injection Hi as <-. exists rng. by rewrite E0.
  - exact (IH i cell Hi).
Qed.

Lemma updateCells_length (prefs : Prefs) (now dt : Q) (cells : list Cell.t) :
  forall rng, length (fst (updateCells prefs now dt cells rng)) = length cells.
Proof.
  induction cells as [| cell0 cells IH]; intros rng; [done |].
  cbn [updateCells]. destruct (updateCell _ _ _ _ _) as [cell0' rng1].
  specialize (IH rng1). destruct (updateCells _ _ _ _ _) as [rest rng2].
  cbn in *. by rewrite IH.
Qed.

Lemma updateLetters_cells (prefs : Prefs) (w : World.t) (dt now : Q) :
  World.cells (updateLetters prefs w dt now)
  = fst (updateCells prefs now dt (World.cells w) (World.rng w)).
Proof. unfold updateLetters. by destruct (updateCells _ _ _ _ _). Qed.

(** C8 (fade monotonicity).  For every cell and every per-frame update:
    while a fade direction is active the fade fraction stays in [0,1] and
    moves monotonically toward its bound, 0 when fading out and 1 when
    fading in; on reaching 0 while fading out the direction becomes fading
    in, on reaching 1 while fading in the cell becomes steady, and before
    the bound is reached the direction is kept. *)
Theorem updateLetters_fade_monotone (prefs : Prefs) (w : World.t) (dt now : Q)
    (i : nat) (cell : Cell.t) :
  (0 < fst (fadeDurationRangeSec prefs) <= snd (fadeDurationRangeSec prefs))%Q ->
  (0 <= dt)%Q ->
  World.cells w !! i = Some cell ->
  (0 <= Cell.fadeT cell <= 1)%Q ->
  Cell.fadeDir cell <> 0 ->
  exists cell',
    World.cells (updateLetters prefs w dt now) !! i = Some cell' /\
    (0 <= Cell.fadeT cell' <= 1)%Q /\
    (Cell.fadeDir cell < 0 ->
       (Cell.fadeT cell' <= Cell.fadeT cell)%Q /\
       ((Cell.fadeT cell' == 0)%Q -> Cell.fadeDir cell' = 1) /\
       (~ (Cell.fadeT cell' == 0)%Q -> Cell.fadeDir cell' = Cell.fadeDir cell)) /\
    (0 < Cell.fadeDir cell ->
       (Cell.fadeT cell <= Cell.fadeT cell')%Q /\
       ((Cell.fadeT cell' == 1)%Q -> Cell.fadeDir cell' = 0) /\
       (~ (Cell.fadeT cell' == 1)%Q -> Cell.fadeDir cell' = Cell.fadeDir cell)).
Proof.
  intros Hab Hdt Hi HT Hdir.
  destruct (updateCells_lookup prefs now dt (World.cells w) (World.rng w) i cell Hi)
    as [rng_i Hlook].
  exists (fst (updateCell prefs now dt cell rng_i)).
  split; [by rewrite updateLetters_cells |].
  by apply updateCell_fade.
Qed.

Lemma updateLetters_fade_monotone_witness :
  World.cells fadingWorld !! 0%nat = Some (Cell.set_fadeDir (-1) (demoCell 0 (0, "x"%char))) /\
  exists cell',
    World.cells (updateLetters demoPrefs fadingWorld (1 # 50) 1000) !! 0%nat = Some cell' /\
    (0 <= Cell.fadeT cell' <= 1)%Q /\
    (Cell.fadeT cell' <= 1)%Q.
Proof.
  assert (Hcell : World.cells fadingWorld !! 0%nat
                  = Some (Cell.set_fadeDir (-1) (demoCell 0 (0, "x"%char)))) by reflexivity.
  split; [exact Hcell |].
  destruct (updateLetters_fade_monotone demoPrefs fadingWorld (1 # 50) 1000 0
              (Cell.set_fadeDir (-1) (demoCell 0 (0, "x"%char))))
    as (cell' & Hlook & Hrange & Hout & _).
  - vm_compute. split; [reflexivity | discriminate].
  - vm_compute. discriminate.
  - exact Hcell.
  - vm_compute. split; discriminate.
  - vm_compute. discriminate.
  - exists cell'. split; [exact Hlook |]. split; [exact Hrange |].
    apply Hout. reflexivity.
Defined.

(** A steady cell that is locked is left as it is by [updateCell], its
    jitter phase apart, and draws nothing from the generator. *)
Lemma updateCell_locked_steady (prefs : Prefs) (now dt : Q) (cell : Cell.t) (rng : Rng) :
  Cell.locked cell = true ->
  Cell.fadeDir cell = 0 ->
  updateCell prefs now dt cell rng
  = (Cell.set_phase (Cell.phase cell + Cell.speed cell * dt) cell, rng).
Proof.
  intros Hl Hd. unfold updateCell. destruct (fadeDurationRangeSec prefs) as [a b].
  by rewrite Hd, Hl.
Qed.

(** [updateCell] never touches the lock, and changes the character only at
    the black point of a fade-out, to the staged character when one is
    staged. *)
Lemma updateCell_char (prefs : Prefs) (now dt : Q) (cell : Cell.t) (rng : Rng) :
  let cell' := fst (updateCell prefs now dt cell rng) in
  Cell.locked cell' = Cell.locked cell /\
  (Cell.char cell' <> Cell.char cell ->
     Cell.fadeDir cell < 0 /\ (Cell.fadeT cell' == 0)%Q /\
     forall ch, Cell._nextChar cell = Some ch -> Cell.char cell' = ch).
Proof.
  unfold updateCell. destruct (fadeDurationRangeSec prefs) as [a b].
  destruct (Cell.fadeDir cell =? 0); cbn [negb].
  - destruct (negb (Cell.locked cell) && Qle_bool (Cell.nextAt cell) now); [| done].
    destruct (rngNext rng) as [x rng1].
    destruct (Qltb x (changeProbabilityPerCycle prefs)); [done |].
    by destruct (randBetween rng1 a b).
  - destruct (randBetween rng a b) as [d rng1].
    set (ft := clamp _ 0 1). cbn [Cell.fadeT Cell.set_fadeT].
    destruct (Qeq_bool ft 0) eqn:E0; cbn [andb].
    + destruct (Z.ltb_spec (Cell.fadeDir cell) 0) as [Hneg | Hnn].
      * apply Qeq_bool_iff in E0. cbn [Cell._nextChar Cell.set_fadeT].
        destruct (Cell._nextChar cell) as [staged |].
        -- cbn. split; [done |]. intros _. split; [done |]. split; [done |]. congruence.
        -- destruct (randomGridChar rng1) as [ch rng2]. cbn.
           split; [done |]. intros _. split; [done |]. split; [done |]. congruence.
      * destruct (Qeq_bool ft 1 && (Cell.fadeDir cell >? 0)); [| done].
        by destruct (randBetween rng1 a b).
    + destruct (Qeq_bool ft 1 && (Cell.fadeDir cell >? 0)); [| done].
      by destruct (randBetween rng1 a b).
Qed.

(** C9 (locked cells do not mutate by themselves).  In the per-frame letter
    update a cell whose lock flag is set never enters the
    scheduled-mutation branch: it stays locked; when steady it keeps its
    character, its fade fraction and direction, its staged character and
    its schedule, whatever the time and the draws; and its character
    changes only at the black point of a fade-out started by staging or
    release, to the staged character when one is staged. *)
Theorem updateLetters_locked_no_mutation (prefs : Prefs) (w : World.t) (dt now : Q)
    (i : nat) (cell : Cell.t) :
  World.cells w !! i = Some cell ->
  Cell.locked cell = true ->
  exists cell',
    World.cells (updateLetters prefs w dt now) !! i = Some cell' /\
    Cell.locked cell' = true /\
    (Cell.fadeDir cell = 0 ->
       Cell.char cell' = Cell.char cell /\
       Cell.fadeT cell' = Cell.fadeT cell /\
       Cell.fadeDir cell' = 0 /\
       Cell._nextChar cell' = Cell._nextChar cell /\
       Cell.nextAt cell' = Cell.nextAt cell) /\
    (Cell.char cell' <> Cell.char cell ->
       Cell.fadeDir cell < 0 /\ (Cell.fadeT cell' == 0)%Q /\
       forall ch, Cell._nextChar cell = Some ch -> Cell.char cell' = ch).
Proof.
  intros Hi Hl.
  destruct (updateCells_lookup prefs now dt (World.cells w) (World.rng w) i cell Hi)
    as [rng_i Hlook].
  exists (fst (updateCell prefs now dt cell rng_i)).
  split; [by rewrite updateLetters_cells |].
  pose proof (updateCell_char prefs now dt cell rng_i) as [Hlock Hchar].
  split; [congruence |]. split; [| exact Hchar].
  intros Hd. rewrite updateCell_locked_steady by done. cbn. by rewrite Hd.
Qed.

Lemma updateLetters_locked_no_mutation_witness :
  World.cells catWorld !! 10%nat = Some (Cell.set_locked true (demoCell 2 (0, "c"%char))) /\
  exists cell',
    World.cells (updateLetters demoPrefs catWorld (1 # 50) 2000000) !! 10%nat = Some cell' /\
    Cell.locked cell' = true /\
    Cell.char cell' = "c"%char /\
    Cell.fadeDir cell' = 0.
Proof.
  assert (Hcell : World.cells catWorld !! 10%nat
                  = Some (Cell.set_locked true (demoCell 2 (0, "c"%char)))) by reflexivity.
  split; [exact Hcell |].
  destruct (updateLetters_locked_no_mutation demoPrefs catWorld (1 # 50) 2000000 10
              (Cell.set_locked true (demoCell 2 (0, "c"%char))) Hcell eq_refl)
    as (cell' & Hlook & Hlock & Hsteady & _).
  destruct (Hsteady eq_refl) as (Hchar & _ & Hdir & _).
  exists cell'. split; [exact Hlook |]. split; [exact Hlock |]. split; [exact Hchar | exact Hdir].
Defined.

(** ** Sentence *)

Lemma releasePart_fold (parts : list Seg.t) :
  forall cells : list Cell.t,
    Forall (validPart cells) parts ->
    exists cells',
      fold_left releasePart parts (Some cells) = Some cells' /\
      length cells' = length cells.
Proof.
  induction parts as [| p parts IH]; intros cells Hv; [by exists cells |].
  apply Forall_cons in Hv as [Hp Hv]. cbn [fold_left releasePart mbind option_bind].
  destruct (jsIndex_Some cells (Seg.idx p) Hp) as (cell & -> & _). cbn [mbind option_bind].
  set (cells1 := <[_ := _]> cells).
  assert (Hlen : length cells1 = length cells) by apply length_insert.
  destruct (IH cells1) as (cells' & Hfold & Hlen').
  { unfold validPart in *. by rewrite Hlen. }
  exists cells'. split; [done | congruence].
Qed.

Lemma finalizeCapture_Some (prefs : Prefs) (w : World.t) (k : Cand.t) :
  validCand (World.cells w) k ->
  exists w',
    finalizeCapture prefs w k = Some w' /\
    World.sentence w' = pushCapped prefs (World.sentence w) (Cand.word k) /\
    length (World.cells w') = length (World.cells w) /\
    World.grid w' = World.grid w /\
    World.capture w' = World.capture w /\
    World.mouse w' = World.mouse w.
Proof.
  intros Hv. unfold finalizeCapture.
  destruct (releasePart_fold (Cand.cells k) (World.cells w) Hv) as (cells' & -> & Hlen).
  cbn [mbind option_bind].
  destruct (indexOfRef _ _); eexists; (split; [reflexivity | by cbn]).
Qed.

Lemma pushCapped_step (prefs : Prefs) (s : list string) (word : string) :
  pushCapped prefs s word = s ++ [word] \/ pushCapped prefs s word = drop 1 (s ++ [word]).
Proof.
  unfold pushCapped. destruct (_ >? _); [right | by left]. by destruct (s ++ [word]).
Qed.

Lemma pushCapped_fold (prefs : Prefs) (ws : list string) :
  forall s : list string,
    0 <= maxSentenceWords prefs ->
    Z.of_nat (length s) <= maxSentenceWords prefs ->
    fold_left (pushCapped prefs) ws s
    = drop (length (s ++ ws) - Z.to_nat (maxSentenceWords prefs)) (s ++ ws).
Proof.
  induction ws as [| word ws IH]; intros s Hcap Hs.
  - cbn [fold_left]. rewrite app_nil_r.
    replace (length s - _)%nat with O by lia. done.
  - cbn [fold_left]. unfold pushCapped at 2. rewrite length_app. cbn [length].
    destruct (Z.gtb_spec (Z.of_nat (length s + 1)) (maxSentenceWords prefs)) as [Hover | Hfit].
    + destruct (s ++ [word]) as [| h s'] eqn:Es; [by destruct s |].
      assert (Hlen : length (h :: s') = (length s + 1)%nat) by (rewrite <- Es, length_app; done).
      cbn [tail length] in *.
      rewrite IH by lia.
      replace (s ++ word :: ws) with (h :: s' ++ ws).
      2: { change (h :: s' ++ ws) with ((h :: s') ++ ws). rewrite <- Es, <- app_assoc. done. }
      cbn [length]. rewrite !length_app.
      replace (S (length s' + length ws) - Z.to_nat (maxSentenceWords prefs))%nat
        with (S (length s' + length ws - Z.to_nat (maxSentenceWords prefs))) by lia.
      done.
    + rewrite IH by (rewrite ?length_app; cbn [length]; lia).
      by rewrite <- app_assoc.
Qed.

Lemma captureAll_sentence (prefs : Prefs) (ks : list Cand.t) :
  forall w : World.t,
    Forall (validCand (World.cells w)) ks ->
    exists w',
      captureAll prefs w ks = Some w' /\
      World.sentence w' = fold_left (pushCapped prefs) (map Cand.word ks) (World.sentence w).
Proof.
  unfold captureAll.
  induction ks as [| k ks IH]; intros w Hv; [by exists w |].
  apply Forall_cons in Hv as [Hk Hv]. cbn [fold_left map mbind option_bind].
  destruct (finalizeCapture_Some prefs w k Hk) as (w1 & -> & Hs & Hlen & _).
  destruct (IH w1) as (w' & Hfold & Hs').
  { unfold validCand, validPart in *. by rewrite Hlen. }
  exists w'. split; [done | congruence].
Qed.

(** C7 (sentence capping).  For every sequence of captures from a sentence
    within the cap, the sentence afterwards consists of the most recent
    cap-many words in capture order; once more words than the cap were
    appended its length equals the cap; and a single commit appends one
    word and evicts at most the one oldest entry. *)
Theorem sentence_capped (prefs : Prefs) (w : World.t) (ks : list Cand.t) :
  0 <= maxSentenceWords prefs ->
  Z.of_nat (length (World.sentence w)) <= maxSentenceWords prefs ->
  Forall (validCand (World.cells w)) ks ->
  exists w',
    captureAll prefs w ks = Some w' /\
    let all := World.sentence w ++ map Cand.word ks in
    let cap := Z.to_nat (maxSentenceWords prefs) in
    World.sentence w' = drop (length all - cap) all /\
    (cap < length all -> length (World.sentence w') = cap)%nat /\
    (forall w1 k w2,
       finalizeCapture prefs w1 k = Some w2 ->
       World.sentence w2 = World.sentence w1 ++ [Cand.word k] \/
       World.sentence w2 = drop 1 (World.sentence w1 ++ [Cand.word k])).
Proof.
  intros Hcap Hs Hv.
  destruct (captureAll_sentence prefs ks w Hv) as (w' & Hall & Hsent).
  exists w'. split; [done |]. cbn zeta.
  rewrite Hsent, pushCapped_fold by done.
  split; [done |]. split.
  - intros Hlt. rewrite length_drop. lia.
  - intros w1 k w2. unfold finalizeCapture.
    destruct (fold_left releasePart _ _) as [cells' |]; [| done]. cbn [mbind option_bind].
    destruct (indexOfRef _ _); intros [= <-]; cbn; apply pushCapped_step.
Qed.

Lemma sentence_capped_witness :
  0 <= maxSentenceWords demoPrefs /\
  Z.of_nat (length (World.sentence catWorld)) <= maxSentenceWords demoPrefs /\
  exists w',
    captureAll demoPrefs catWorld [catCand; catCand; catCand; catCand] = Some w' /\
    World.sentence w' = ["cat"; "cat"; "cat"]%string /\
    length (World.sentence w') = 3%nat.
Proof.
  assert (Hcap : 0 <= maxSentenceWords demoPrefs) by (vm_compute; discriminate).
  assert (Hlen : Z.of_nat (length (World.sentence catWorld)) <= maxSentenceWords demoPrefs)
    by (vm_compute; discriminate).
  assert (Hvalid : Forall (validCand (World.cells catWorld)) [catCand; catCand; catCand; catCand]).
  { assert (Hk : validCand (World.cells catWorld) catCand).
    { unfold validCand, validPart.
      repeat (apply Forall_cons; split; [vm_compute; split; [discriminate | reflexivity] |]).
      apply Forall_nil_2. }
    repeat (apply Forall_cons; split; [exact Hk |]). apply Forall_nil_2. }
  split; [exact Hcap |]. split; [exact Hlen |].
  destruct (sentence_capped demoPrefs catWorld [catCand; catCand; catCand; catCand]
              Hcap Hlen Hvalid) as (w' & Hall & Hsent & Hfull & _).
  exists w'. split; [exact Hall |]. split; [exact Hsent |].
  apply Hfull. vm_compute. lia.
Defined.

(** ** Spotlight scan *)

Lemma getCellIndex_bounds (w : World.t) (r c : Z) :
  wfWorld w ->
  0 <= r < Grid.rows (World.grid w) -> 0 <= c < Grid.cols (World.grid w) ->
  0 <= getCellIndex w r c < Z.of_nat (length (World.cells w)).
Proof.
  intros (Hr & Hc & Hlen) Hri Hci. unfold getCellIndex. rewrite Hlen. nia.
Qed.

Lemma jsIndex_lookup {A} (l : list A) (i : Z) :
  0 <= i -> jsIndex l i = l !! Z.to_nat i.
Proof. intros Hi. unfold jsIndex. destruct (Z.ltb_spec i 0); [lia | done]. Qed.

Lemma includeCell_step (prefs : Prefs) (w : World.t) (ri ci : Z) (include : list bool) :
  wfWorld w ->
  0 <= ri < Grid.rows (World.grid w) -> 0 <= ci < Grid.cols (World.grid w) ->
  includeUpTo prefs w (getCellIndex w ri ci) include ->
  exists include',
    includeCell prefs w ri (Some include) ci = Some include' /\
    includeUpTo prefs w (getCellIndex w ri ci + 1) include'.
Proof.
  intros Hwf Hri Hci [Hlen Hinc].
  pose proof (getCellIndex_bounds w ri ci Hwf Hri Hci) as Hidx.
  unfold includeCell. cbn [mbind option_bind].
  rewrite jsIndex_lookup by lia.
  destruct (lookup_lt_is_Some_2 (World.cells w) (Z.to_nat (getCellIndex w ri ci))) as [cell Hcell];
    [lia |].
  rewrite Hcell. cbn [mbind option_bind]. eexists. split; [reflexivity |].
  split; [by rewrite length_insert |].
  intros j cellj Hj.
  destruct (decide (j = Z.to_nat (getCellIndex w ri ci))) as [-> | Hne].
  - rewrite list_lookup_insert_eq by lia.
    assert (cellj = cell) as -> by congruence.
    destruct (Z.ltb_spec (Z.of_nat (Z.to_nat (getCellIndex w ri ci))) (getCellIndex w ri ci + 1));
      [done | lia].
  - rewrite list_lookup_insert_ne by done. rewrite (Hinc j cellj Hj).
    destruct (Z.ltb_spec (Z.of_nat j) (getCellIndex w ri ci)),
             (Z.ltb_spec (Z.of_nat j) (getCellIndex w ri ci + 1)); try done; lia.
Qed.

Lemma includeRow (prefs : Prefs) (w : World.t) (ri : Z) (k : nat) :
  forall (c0 : Z) (include : list bool),
    wfWorld w ->
    0 <= ri < Grid.rows (World.grid w) ->
    0 <= c0 -> c0 + Z.of_nat k <= Grid.cols (World.grid w) ->
    includeUpTo prefs w (getCellIndex w ri c0) include ->
    exists include',
      fold_left (includeCell prefs w ri) (seqZ c0 (Z.of_nat k)) (Some include) = Some include' /\
      includeUpTo prefs w (getCellIndex w ri c0 + Z.of_nat k) include'.
Proof.
  induction k as [| k IH]; intros c0 include Hwf Hri Hc0 Hck Hinc.
  - exists include. split; [done |]. by rewrite Z.add_0_r.
  - rewrite seqZ_cons by lia. cbn [fold_left].
    destruct (includeCell_step prefs w ri c0 include) as (include1 & -> & Hinc1); [done | done | lia | done |].
    replace (Z.succ c0) with (c0 + 1) by lia.
    replace (Z.pred (Z.of_nat (S k))) with (Z.of_nat k) by lia.
    destruct (IH (c0 + 1) include1) as (include' & Hfold & Hinc'); [done | done | lia | lia | |].
    { unfold getCellIndex in *. by rewrite Z.add_assoc. }
    exists include'. split; [done |].
    unfold getCellIndex in *. replace (ri * _ + c0 + Z.of_nat (S k)) with (ri * Grid.cols (World.grid w) + (c0 + 1) + Z.of_nat k) by lia. done.
Qed.

Lemma includeRows (prefs : Prefs) (w : World.t) (k : nat) :
  forall (r0 : Z) (include : list bool),
    wfWorld w ->
    0 <= r0 -> r0 + Z.of_nat k <= Grid.rows (World.grid w) ->
    includeUpTo prefs w (getCellIndex w r0 0) include ->
    exists include',
      fold_left
        (fun acc ri => fold_left (includeCell prefs w ri) (seqZ 0 (Grid.cols (World.grid w))) acc)
        (seqZ r0 (Z.of_nat k)) (Some include) = Some include' /\
      includeUpTo prefs w (getCellIndex w (r0 + Z.of_nat k) 0) include'.
Proof.
  induction k as [| k IH]; intros r0 include Hwf Hr0 Hrk Hinc.
  - exists include. split; [done |]. by rewrite Z.add_0_r.
  - rewrite (seqZ_cons r0) by lia. cbn [fold_left].
    pose proof Hwf as (_ & Hcols & _).
    destruct (includeRow prefs w r0 (Z.to_nat (Grid.cols (World.grid w))) 0 include)
      as (include1 & Hrow & Hinc1); [done | lia | lia | lia | done |].
    rewrite Z2Nat.id in Hrow, Hinc1 by done. rewrite Hrow.
    replace (Z.succ r0) with (r0 + 1) by lia.
    replace (Z.pred (Z.of_nat (S k))) with (Z.of_nat k) by lia.
    destruct (IH (r0 + 1) include1) as (include' & Hfold & Hinc'); [done | lia | lia | |].
    { unfold getCellIndex in *. replace ((r0 + 1) * Grid.cols (World.grid w) + 0) with (r0 * Grid.cols (World.grid w) + 0 + Grid.cols (World.grid w)) by lia. done. }
    exists include'. split; [done |].
    replace (r0 + Z.of_nat (S k)) with (r0 + 1 + Z.of_nat k) by lia. done.
Qed.

Lemma computeInclude_spec (prefs : Prefs) (w : World.t) :
  wfWorld w ->
  exists include,
    computeInclude prefs w = Some include /\
    forall (idx : Z) (cell : Cell.t),
      jsIndex (World.cells w) idx = Some cell ->
      included include idx = visible prefs w cell.
Proof.
  intros Hwf. pose proof Hwf as (Hrows & Hcols & Hlen).
  destruct (includeRows prefs w (Z.to_nat (Grid.rows (World.grid w))) 0
              (replicate (length (World.cells w)) false)) as (include & Hfold & Hlen' & Hinc);
    [done | lia | lia | |].
  { split; [apply length_replicate |]. intros j cell Hj.
    rewrite lookup_replicate_2 by (by eapply lookup_lt_Some).
    destruct (Z.ltb_spec (Z.of_nat j) (getCellIndex w 0 0)); [| done].
    unfold getCellIndex in *. lia. }
  rewrite Z2Nat.id in Hfold, Hinc by done.
  exists include. split; [exact Hfold |].
  intros idx cell Hcell. unfold included, jsIndex in *.
  destruct (idx <? 0) eqn:E; [done |].
  rewrite (Hinc _ _ Hcell).
  apply lookup_lt_Some in Hcell.
  destruct (Z.ltb_spec (Z.of_nat (Z.to_nat idx)) (getCellIndex w (0 + Grid.rows (World.grid w)) 0)); [done |].
  unfold getCellIndex in *. lia.
Qed.

Lemma append_snoc (word : string) (ch : ascii) (s : string) :
  (word +:+ String ch EmptyString) +:+ s = word +:+ String ch s.
Proof.
  induction word as [| a word IH]; [done |].
  change (String a ((word +:+ String ch EmptyString) +:+ s) = String a (word +:+ String ch s)).
  by rewrite IH.
Qed.

Lemma scanFromStart_mono (base : nat) (first : Seg.t) (rest : list Seg.t) :
  forall node word taken out k,
    In k out -> In k (scanFromStart base first rest node word taken out).
Proof.
  induction rest as [| sj rest IH]; intros node word taken out k Hk; [done |].
  cbn [scanFromStart]. destruct (Trie.c node !! Seg.ch sj) as [node' |]; [| done].
  apply IH. destruct (Trie.t node'); [| done]. apply in_or_app. by left.
Qed.

Lemma scanSegmentWithTrie_mono (base : nat) (trie : Trie.node) (seg : list Seg.t) :
  forall out k, In k out -> In k (scanSegmentWithTrie base seg trie out).
Proof.
  induction seg as [| si seg IH]; intros out k Hk; [done |].
  cbn [scanSegmentWithTrie]. by apply IH, scanFromStart_mono.
Qed.

(** The inner loop records every complete word that starts at [first]. *)
Lemma scanFromStart_complete (base : nat) (first : Seg.t) (mid : list Seg.t) :
  forall post node word taken out n,
    mid <> [] ->
    walk node (segWord mid) = Some n -> Trie.t n = true ->
    Forall (fun s => Seg.r s = Seg.r first) mid ->
    exists k,
      In k (scanFromStart base first (mid ++ post) node word taken out) /\
      Cand.word k = word +:+ segWord mid /\
      Cand.r k = Seg.r first /\ Cand.c k = Seg.c first /\
      Cand.dir k = Dir.H /\
      Cand.cells k = taken ++ mid.
Proof.
  induction mid as [| sj mid IH]; intros post node word taken out n Hne Hwalk Ht Hrow; [done |].
  apply Forall_cons in Hrow as [Hr Hrow].
  cbn [segWord map string_of_list_ascii walk] in Hwalk.
  cbn [app scanFromStart].
  destruct (Trie.c node !! Seg.ch sj) as [node' |]; [| done].
  destruct mid as [| sj' mid].
  - cbn in Hwalk. injection Hwalk as ->. rewrite Ht.
    eexists. split.
    + apply scanFromStart_mono. apply in_or_app. right. by left.
    + cbn. rewrite Hr, Z.eqb_refl. done.
  - edestruct (IH post node' (word +:+ String (Seg.ch sj) EmptyString) (taken ++ [sj])) as (k & Hk & Hw & Hkr & Hkc & Hd & Hcells);
      [done | exact Hwalk | exact Ht | exact Hrow |].
    exists k. split; [exact Hk |].
    rewrite Hw, Hcells, append_snoc, <- app_assoc. done.
Qed.

(** [scanSegmentWithTrie] records every complete word spelled by a
    sub-run of the segment. *)
Lemma scanSegmentWithTrie_complete (base : nat) (trie : Trie.node) (pre : list Seg.t) :
  forall mid post out first n,
    head mid = Some first ->
    walk trie (segWord mid) = Some n -> Trie.t n = true ->
    Forall (fun s => Seg.r s = Seg.r first) mid ->
    exists k,
      In k (scanSegmentWithTrie base (pre ++ mid ++ post) trie out) /\
      Cand.word k = segWord mid /\
      Cand.r k = Seg.r first /\ Cand.c k = Seg.c first /\
      Cand.dir k = Dir.H /\
      Cand.cells k = mid.
Proof.
  induction pre as [| p pre IH]; intros mid post out first n Hhd Hwalk Ht Hrow.
  - destruct mid as [| si mid]; [done |]. injection Hhd as ->.
    cbn [app scanSegmentWithTrie].
    destruct (scanFromStart_complete base first (first :: mid) post trie EmptyString [] out n)
      as (k & Hk & Hrest); [done | done | done | done |].
    exists k. split; [| exact Hrest].
    by apply scanSegmentWithTrie_mono.
  - cbn [app scanSegmentWithTrie]. by eapply IH.
Qed.

Lemma rowRun_cons (w : World.t) (r c len : Z) :
  0 < len -> rowRun w r c len = rowSeg w r c :: rowRun w r (c + 1) (len - 1).
Proof.
  intros Hlen. unfold rowRun. rewrite seqZ_cons by done. cbn [map].
  by replace (Z.succ c) with (c + 1) by lia.
Qed.

Lemma rowRun_app (w : World.t) (r c n1 n2 : Z) :
  0 <= n1 -> 0 <= n2 -> rowRun w r c (n1 + n2) = rowRun w r c n1 ++ rowRun w r (c + n1) n2.
Proof. intros H1 H2. unfold rowRun. by rewrite seqZ_app, map_app. Qed.

Lemma rowRun_row (w : World.t) (r c len : Z) :
  Forall (fun s => Seg.r s = r) (rowRun w r c len).
Proof. unfold rowRun. apply Forall_map, Forall_forall. done. Qed.

Lemma inBounds_true (w : World.t) (r c : Z) :
  inBounds w r c = true <->
  0 <= r < Grid.rows (World.grid w) /\ 0 <= c < Grid.cols (World.grid w).
Proof. unfold inBounds. rewrite !andb_true_iff, !Z.leb_le, !Z.ltb_lt. lia. Qed.

(** The loop that builds a segment of a row stops at the first cell that
    is not included, or at the end of the row. *)
Lemma segmentFrom_row (w : World.t) (include : list bool) (r : Z) (fuel : nat) :
  forall (c : Z) (seg : list Seg.t),
    wfWorld w ->
    0 <= r < Grid.rows (World.grid w) ->
    0 <= c <= Grid.cols (World.grid w) ->
    (Z.to_nat (Grid.cols (World.grid w) - c) < fuel)%nat ->
    exists e,
      segmentFrom fuel w include r c 0 1 seg = Some (r, e, seg ++ rowRun w r c (e - c)) /\
      c <= e <= Grid.cols (World.grid w) /\
      (e < Grid.cols (World.grid w) -> included include (getCellIndex w r e) = false) /\
      (forall j, c <= j < e -> included include (getCellIndex w r j) = true).
Proof.
  induction fuel as [| fuel IH]; intros c seg Hwf Hr Hc Hfuel; [lia |].
  cbn [segmentFrom].
  destruct (inBounds w r c && included include (getCellIndex w r c)) eqn:Hcond.
  - apply andb_true_iff in Hcond as [Hin Hinc]. apply inBounds_true in Hin as [_ Hcc].
    pose proof (getCellIndex_bounds w r c Hwf Hr Hcc) as Hidx.
    destruct (jsIndex_Some (World.cells w) (getCellIndex w r c) Hidx) as (cell & Hcell & _).
    rewrite Hcell. cbn [mbind option_bind]. rewrite Z.add_0_r.
    destruct (IH (c + 1) (seg ++ [Seg.mk r c (getCellIndex w r c) (Cell.char cell)]))
      as (e & Hseg & He & Hstop & Hall); [done | done | lia | lia |].
    exists e. split; [| split; [lia | split; [done |]]].
    + rewrite Hseg. rewrite (rowRun_cons w r c (e - c)) by lia.
      rewrite <- app_assoc. cbn [app]. unfold rowSeg, charAt. rewrite Hcell.
      by replace (e - c - 1) with (e - (c + 1)) by lia.
    + intros j Hj. destruct (decide (j = c)) as [-> | Hne]; [done |]. apply Hall. lia.
  - exists c. rewrite Z.sub_diag. unfold rowRun. cbn. rewrite app_nil_r.
    split; [done |]. split; [lia |]. split; [| lia].
    intros Hlt. apply andb_false_iff in Hcond as [Hout | Hinc]; [| done].
    assert (inBounds w r c = true) by (apply inBounds_true; lia). congruence.
Qed.

Lemma segmentsFrom_row (w : World.t) (include : list bool) (r : Z) (fuel : nat) :
  forall (c : Z) (out : list Cand.t),
    wfWorld w ->
    0 <= r < Grid.rows (World.grid w) ->
    0 <= c ->
    (Z.to_nat (Grid.cols (World.grid w) - c) < fuel)%nat ->
    exists out',
      segmentsFrom fuel w include r c 0 1 out = Some out' /\
      (forall k, In k out -> In k out') /\
      rowComplete w include r c out'.
Proof.
  induction fuel as [| fuel IH]; intros c out Hwf Hr Hc Hfuel; [lia |].
  cbn [segmentsFrom].
  destruct (inBounds w r c) eqn:Hin.
  - apply inBounds_true in Hin as [_ Hcc].
    destruct (segmentFrom_row w include r (scanFuel w) c []) as (e & Hseg & He & Hstop & Hall);
      [done | done | lia | unfold scanFuel; lia |].
    rewrite Hseg. cbn [mbind option_bind app]. rewrite Z.add_0_r.
    set (out1 := match rowRun w r c (e - c) with [] => out | _ => _ end).
    assert (Hmono1 : forall k, In k out -> In k out1).
    { intros k Hk. subst out1. destruct (rowRun w r c (e - c)); [done |].
      by apply scanSegmentWithTrie_mono. }
    destruct (IH (e + 1) out1) as (out' & Hrec & Hmono & Hcompl); [done | done | lia | lia |].
    exists out'. split; [done |]. split; [by intros k Hk; apply Hmono, Hmono1 |].
    intros c0 len n Hc0 Hlen Hfit Hrun Hwalk Ht.
    destruct (Z.lt_ge_cases c0 e) as [Hlt | Hge].
    + assert (Hend : c0 + len <= e).
      { destruct (Z.le_gt_cases (c0 + len) e) as [| Hgt]; [done |].
        rewrite Hrun in Hstop by lia. discriminate Hstop. lia. }
      assert (Hsplit : rowRun w r c (e - c)
                       = rowRun w r c (c0 - c) ++ rowRun w r c0 len ++ rowRun w r (c0 + len) (e - (c0 + len))).
      { replace (e - c) with ((c0 - c) + (len + (e - (c0 + len)))) by lia.
        rewrite rowRun_app by lia. rewrite rowRun_app by lia.
        by replace (c + (c0 - c)) with c0 by lia. }
      destruct (scanSegmentWithTrie_complete (World.nextRef w) (World.trie w)
                  (rowRun w r c (c0 - c)) (rowRun w r c0 len)
                  (rowRun w r (c0 + len) (e - (c0 + len))) out (rowSeg w r c0) n)
        as (k & Hk & Hrest); [by rewrite rowRun_cons | done | done | apply rowRun_row |].
      exists k. split; [| exact Hrest].
      apply Hmono. subst out1. rewrite Hsplit in *.
      destruct (rowRun w r c (c0 - c) ++ rowRun w r c0 len ++ _) eqn:E; [| done].
      apply app_eq_nil in E as [_ E]. apply app_eq_nil in E as [E _].
      rewrite rowRun_cons in E by done. discriminate.
    + assert (c0 <> e).
      { intros ->. rewrite Hrun in Hstop by lia. discriminate Hstop. lia. }
      apply (Hcompl c0 len n); try done. lia.
  - exists out. split; [done |]. split; [done |].
    intros c0 len n Hc0 Hlen Hfit _ _ _. exfalso.
    assert (inBounds w r c = true) by (apply inBounds_true; lia). congruence.
Qed.

Lemma scanLine_row (w : World.t) (include : list bool) (r : Z) (out : list Cand.t) :
  wfWorld w ->
  0 <= r < Grid.rows (World.grid w) ->
  exists out',
    scanLine w include r 0 0 1 out = Some out' /\
    (forall k, In k out -> In k out') /\
    rowComplete w include r 0 out'.
Proof.
  intros Hwf Hr. unfold scanLine.
  assert (Hstart : lineStart (scanFuel w) w r 0 0 1 = Some (r, 0)).
  { unfold scanFuel. cbn [lineStart].
    replace (inBounds w (r - 0) (0 - 1)) with false; [done |].
    symmetry. apply not_true_is_false. rewrite inBounds_true. lia. }
  rewrite Hstart. cbn [mbind option_bind].
  apply segmentsFrom_row; [done | done | lia |].
  unfold scanFuel. destruct Hwf as (? & ? & _). lia.
Qed.

Lemma scanRows (w : World.t) (include : list bool) (count : nat) :
  forall (r0 : Z) (out : list Cand.t),
    wfWorld w ->
    0 <= r0 -> r0 + Z.of_nat count <= Grid.rows (World.grid w) ->
    exists out',
      fold_left (fun out rI => out ← out; scanLine w include rI 0 0 1 out)
        (seqZ r0 (Z.of_nat count)) (Some out) = Some out' /\
      (forall k, In k out -> In k out') /\
      (forall r, r0 <= r < r0 + Z.of_nat count -> rowComplete w include r 0 out').
Proof.
  induction count as [| count IH]; intros r0 out Hwf Hr0 Hfit.
  - exists out. split; [done |]. split; [done |]. intros r Hr. lia.
  - rewrite (seqZ_cons r0) by lia. cbn [fold_left mbind option_bind].
    destruct (scanLine_row w include r0 out) as (out1 & -> & Hmono1 & Hcompl1); [done | lia |].
    replace (Z.succ r0) with (r0 + 1) by lia.
    replace (Z.pred (Z.of_nat (S count))) with (Z.of_nat count) by lia.
    destruct (IH (r0 + 1) out1) as (out' & Hfold & Hmono & Hcompl); [done | lia | lia |].
    exists out'. split; [done |]. split; [by intros k Hk; apply Hmono, Hmono1 |].
    intros r Hr. destruct (decide (r = r0)) as [-> | Hne].
    + intros c0 len n Hc0 Hlen Hcols Hrun Hwalk Ht.
      destruct (Hcompl1 c0 len n) as (k & Hk & Hrest); try done.
      exists k. split; [by apply Hmono | done].
    + apply Hcompl. lia.
Qed.

(** On a well-formed world the scan returns: its loops end within their
    fuel and every cell they read exists. *)
Lemma scanCandidates_Some (prefs : Prefs) (w : World.t) :
  wfWorld w -> exists candidates, scanCandidates prefs w = Some candidates.
Proof.
  intros Hwf. unfold scanCandidates.
  destruct (computeInclude_spec prefs w Hwf) as (include & -> & _).
  cbn [mbind option_bind].
  pose proof Hwf as (Hrows & Hcols & _).
  destruct (scanRows w include (Z.to_nat (Grid.rows (World.grid w))) 0 []) as (out & Hfold & _);
    [done | lia | lia |].
  rewrite Z2Nat.id in Hfold by done. by exists out.
Qed.

(** Soundness of the scan: what is recorded is a run of a row. *)

Lemma scanFromStart_sound (base : nat) (first : Seg.t) (rest : list Seg.t) :
  forall node word taken out k,
    In k (scanFromStart base first rest node word taken out) ->
    In k out \/
    exists mid post n,
      rest = mid ++ post /\ mid <> [] /\
      walk node (segWord mid) = Some n /\ Trie.t n = true /\
      Cand.word k = word +:+ segWord mid /\
      Cand.cells k = taken ++ mid /\
      Cand.r k = Seg.r first /\ Cand.c k = Seg.c first /\
      (Forall (fun s => Seg.r s = Seg.r first) mid -> Cand.dir k = Dir.H).
Proof.
  induction rest as [| sj rest IH]; intros node word taken out k Hk; [by left |].
  cbn [scanFromStart] in Hk.
  destruct (Trie.c node !! Seg.ch sj) as [node' |] eqn:Hchild; [| by left].
  apply IH in Hk as [Hk | (mid & post & n & -> & Hne & Hwalk & Ht & Hw & Hcells & Hr & Hc & Hd)].
  - destruct (Trie.t node') eqn:Ht; [| by left].
    apply in_app_or in Hk as [Hk | [<- | []]]; [by left |].
    right. exists [sj], rest, node'. cbn.
    rewrite Hchild. repeat (split; [done |]).
    intros Hrow. apply Forall_cons in Hrow as [Hrow _]. by rewrite Hrow, Z.eqb_refl.
  - right. exists (sj :: mid), post, n. split; [done |]. split; [done |].
    cbn [segWord map string_of_list_ascii walk]. rewrite Hchild.
    split; [exact Hwalk |]. split; [done |].
    rewrite Hw, Hcells, append_snoc, <- app_assoc. do 4 (split; [done |]).
    intros Hrow. apply Forall_cons in Hrow as [_ Hrow]. by apply Hd.
Qed.

Lemma scanSegmentWithTrie_sound (base : nat) (trie : Trie.node) (seg : list Seg.t) :
  forall out k,
    In k (scanSegmentWithTrie base seg trie out) ->
    In k out \/
    exists pre mid post first,
      seg = pre ++ mid ++ post /\ head mid = Some first /\
      accepts trie (segWord mid) = true /\
      Cand.word k = segWord mid /\ Cand.cells k = mid /\
      Cand.r k = Seg.r first /\ Cand.c k = Seg.c first /\
      (Forall (fun s => Seg.r s = Seg.r first) mid -> Cand.dir k = Dir.H).
Proof.
  induction seg as [| si seg IH]; intros out k Hk; [by left |].
  cbn [scanSegmentWithTrie] in Hk.
  apply IH in Hk as [Hk | (pre & mid & post & first & -> & Hrest)].
  - apply scanFromStart_sound in Hk
      as [Hk | (mid & post & n & Hseg & Hne & Hwalk & Ht & Hw & Hcells & Hr & Hc & Hd)]; [by left |].
    right. exists [], mid, post, si. cbn [app].
    split; [done |]. split.
    { destruct mid as [| s0 mid]; [done |]. by injection Hseg as <- _. }
    split; [unfold accepts; by rewrite Hwalk |]. by repeat split.
  - right. by exists (si :: pre), mid, post, first.
Qed.

Lemma rowRun_length (w : World.t) (r c len : Z) : length (rowRun w r c len) = Z.to_nat len.
Proof. unfold rowRun. by rewrite length_map, length_seqZ. Qed.

(** A sublist of a row run is the row run of its own span. *)
Lemma rowRun_split (w : World.t) (r c len : Z) (pre mid post : list Seg.t) :
  0 <= len ->
  rowRun w r c len = pre ++ mid ++ post ->
  mid = rowRun w r (c + Z.of_nat (length pre)) (Z.of_nat (length mid)) /\
  Z.of_nat (length pre) + Z.of_nat (length mid) <= len.
Proof.
  intros Hlen Hsplit.
  assert (Hn : len = Z.of_nat (length pre) + (Z.of_nat (length mid) + Z.of_nat (length post))).
  { apply (f_equal length) in Hsplit. rewrite rowRun_length, !length_app in Hsplit. lia. }
  split; [| lia].
  rewrite Hn in Hsplit. rewrite rowRun_app in Hsplit by lia.
  apply app_inj_1 in Hsplit as [_ Hsplit]; [| rewrite rowRun_length; lia].
  rewrite rowRun_app in Hsplit by lia.
  apply app_inj_1 in Hsplit as [Hmid _]; [done | rewrite rowRun_length; lia].
Qed.

Lemma segmentsFrom_row_sound (w : World.t) (include : list bool) (r : Z) (fuel : nat) :
  forall (c : Z) (out out' : list Cand.t),
    wfWorld w ->
    0 <= r < Grid.rows (World.grid w) ->
    Forall (rowCandidate w include) out ->
    segmentsFrom fuel w include r c 0 1 out = Some out' ->
    Forall (rowCandidate w include) out'.
Proof.
  induction fuel as [| fuel IH]; intros c out out' Hwf Hr Hout; cbn [segmentsFrom].
  - destruct (inBounds w r c); [done | by intros [= <-]].
  - destruct (inBounds w r c) eqn:Hin; [| by intros [= <-]].
    apply inBounds_true in Hin as [_ Hcc].
    destruct (segmentFrom_row w include r (scanFuel w) c []) as (e & Hseg & He & Hstop & Hall);
      [done | done | lia | unfold scanFuel; lia |].
    rewrite Hseg. cbn [mbind option_bind app]. rewrite Z.add_0_r.
    apply IH; [done | done |].
    destruct (rowRun w r c (e - c)) as [| s0 seg0] eqn:Hrun; [done |]. rewrite <- Hrun.
    apply Forall_forall. intros k Hk. apply list_elem_of_In in Hk.
    apply scanSegmentWithTrie_sound in Hk
      as [Hk | (pre & mid & post & first & Hsplit & Hhd & Hacc & Hw & Hcells & Hkr & Hkc & Hd)].
    { rewrite Forall_forall in Hout. apply Hout. by apply list_elem_of_In. }
    destruct (rowRun_split w r c (e - c) pre mid post ltac:(lia) Hsplit) as [Hmid Hfit].
    set (c0 := c + Z.of_nat (length pre)) in *. set (len := Z.of_nat (length mid)) in *.
    assert (Hpos : 0 < len) by (subst len; destruct mid; [done | cbn; lia]).
    assert (Hfirst : first = rowSeg w r c0).
    { rewrite Hmid, rowRun_cons in Hhd by done. by injection Hhd as <-. }
    exists r, c0, len. split; [done |]. split; [lia |]. split; [done |]. split; [lia |].
    rewrite <- Hmid. split; [done |]. split; [done |].
    split; [by rewrite Hkr, Hfirst |]. split; [by rewrite Hkc, Hfirst |].
    split.
    { apply Hd. rewrite Hmid, Hfirst. apply rowRun_row. }
    split; [by rewrite Hw |].
    intros j Hj. apply Hall. lia.
Qed.

Lemma scanRows_sound (w : World.t) (include : list bool) (rows : list Z) :
  forall out out' : list Cand.t,
    wfWorld w ->
    Forall (fun r => 0 <= r < Grid.rows (World.grid w)) rows ->
    Forall (rowCandidate w include) out ->
    fold_left (fun out rI => out ← out; scanLine w include rI 0 0 1 out) rows (Some out)
    = Some out' ->
    Forall (rowCandidate w include) out'.
Proof.
  induction rows as [| r rows IH]; intros out out' Hwf Hrows Hout; cbn [fold_left].
  - by intros [= <-].
  - apply Forall_cons in Hrows as [Hr Hrows]. cbn [mbind option_bind].
    destruct (scanLine_row w include r out Hwf Hr) as (out1 & Hline & _).
    rewrite Hline. apply IH; [done | done |].
    unfold scanLine in Hline.
    destruct (lineStart _ _ _ _ _ _) as [[r1 c1] |] eqn:Hstart; [| done].
    cbn [mbind option_bind] in Hline.
    assert (Hr1 : r1 = r).
    { unfold scanFuel in Hstart. cbn [lineStart] in Hstart.
      replace (inBounds w (r - 0) (0 - 1)) with false in Hstart; [by injection Hstart as <- _ |].
      symmetry. apply not_true_is_false. rewrite inBounds_true. lia. }
    subst r1. by eapply segmentsFrom_row_sound.
Qed.

(** ** Frames *)

Ltac keeps_same :=
  unfold keeps; cbn; do 5 (split; [done |]); split; [lia | by left].

Lemma keeps_refl (w : World.t) : keeps w w.
Proof. keeps_same. Qed.

Lemma keeps_trans (w1 w2 w3 : World.t) : keeps w1 w2 -> keeps w2 w3 -> keeps w1 w3.
Proof.
  unfold keeps.
  intros (? & ? & ? & ? & ? & Hn12 & Hw12) (? & ? & ? & ? & ? & Hn23 & Hw23).
  do 5 (split; [congruence |]). split; [lia |].
  intros p Hp. destruct (Hw23 p Hp) as [Hp2 | Hr]; [| right; lia].
  destruct (Hw12 p Hp2) as [Hp1 | Hr]; [by left | right; lia].
Qed.

Lemma keeps_set_rng (w : World.t) (rng : Rng) : keeps w (World.set_rng rng w).
Proof. keeps_same. Qed.

Lemma updateLetters_keeps (prefs : Prefs) (w : World.t) (dt now : Q) :
  keeps w (updateLetters prefs w dt now).
Proof.
  unfold keeps. rewrite updateLetters_cells, updateCells_length.
  unfold updateLetters. destruct (updateCells _ _ _ _ _). cbn.
  do 5 (split; [done |]). split; [lia | by left].
Qed.

Lemma unlockPart_length (parts : list Part.t) :
  forall cells, length (fold_left unlockPart parts cells) = length cells.
Proof.
  induction parts as [| p parts IH]; intros cells; [done |].
  cbn [fold_left]. rewrite IH. unfold unlockPart.
  destruct (jsIndex cells (Part.idx p)); [apply length_insert | done].
Qed.

Lemma dropOldestWord_keeps (w : World.t) : keeps w (dropOldestWord w).
Proof.
  unfold dropOldestWord. destruct (World.words w) as [| pw rest] eqn:Hwords; [apply keeps_refl |].
  unfold keeps. cbn. do 4 (split; [done |]). split; [apply unlockPart_length |].
  split; [lia |]. intros p Hp. left. rewrite Hwords. by right.
Qed.

Lemma evictLoop_Some (prefs : Prefs) (fuel : nat) :
  forall w : World.t,
    0 <= maxActiveWords prefs ->
    (length (World.words w) < fuel)%nat ->
    exists w', evictLoop prefs fuel w = Some w' /\ keeps w w'.
Proof.
  induction fuel as [| fuel IH]; intros w Hmax Hfuel; [lia |].
  cbn [evictLoop]. destruct (overMax prefs (length (World.words w))) eqn:Hover.
  - unfold overMax in Hover.
    destruct (maxActiveWords prefs =? 0); [done |]. apply Z.gtb_lt in Hover.
    destruct (IH (dropOldestWord w)) as (w' & Hw' & Hk); [done | |].
    { unfold dropOldestWord. destruct (World.words w); cbn in *; lia. }
    exists w'. split; [done |]. eapply keeps_trans; [apply dropOldestWord_keeps | done].
  - exists w. split; [done | apply keeps_refl].
Qed.

Lemma jsIndex_Some_range {A} (l : list A) (i : Z) (a : A) :
  jsIndex l i = Some a -> 0 <= i < Z.of_nat (length l).
Proof.
  unfold jsIndex. destruct (Z.ltb_spec i 0); [done |].
  intros Ha. apply lookup_lt_Some in Ha. lia.
Qed.

Lemma placeLetters_Some (w : World.t) (r c : Z) (dir : Dir.t) (items : list (Z * ascii)) :
  forall (cells : list Cell.t) (parts : list Part.t),
    Forall (fun ich => 0 <= runIndex w r c dir (fst ich) < Z.of_nat (length cells)) items ->
    exists cells' parts',
      fold_left (placeLetter w r c dir) items (Some (cells, parts)) = Some (cells', parts') /\
      length cells' = length cells.
Proof.
  induction items as [| [i ch] items IH]; intros cells parts Hv; [by exists cells, parts |].
  apply Forall_cons in Hv as [Hi Hv]. cbn [fst] in Hi.
  cbn [fold_left placeLetter mbind option_bind].
  destruct (jsIndex_Some cells (runIndex w r c dir i) Hi) as (cell & -> & _).
  cbn [mbind option_bind].
  set (cells1 := <[_ := _]> cells). set (parts1 := parts ++ _).
  assert (Hlen : length cells1 = length cells) by apply length_insert.
  destruct (IH cells1 parts1) as (cells' & parts' & Hfold & Hlen'); [by rewrite Hlen |].
  exists cells', parts'. split; [done | congruence].
Qed.

Lemma placeWord_Some (w : World.t) (word : string) (r c : Z) (dir : Dir.t) :
  placementFree w r c (strLen word) dir = true ->
  exists w', placeWord w word r c dir = Some w' /\ keeps w w'.
Proof.
  intros Hfree. unfold placeWord.
  destruct (placeLetters_Some w r c dir (indexed word) (World.cells w) []) as (cells' & parts' & -> & Hlen).
  { apply Forall_forall. intros [i ch] Hin. cbn [fst].
    unfold placementFree in Hfree. rewrite forallb_forall in Hfree.
    assert (Hi : In i (seqZ 0 (strLen word))).
    { rewrite <- list_elem_of_In.
      unfold indexed in Hin. by apply elem_of_zip_l in Hin. }
    specialize (Hfree i Hi).
    destruct (jsIndex (World.cells w) (runIndex w r c dir i)) eqn:E; [| done].
    by eapply jsIndex_Some_range. }
  cbn [mbind option_bind]. eexists. split; [reflexivity |].
  unfold keeps. cbn. do 4 (split; [done |]). split; [done |]. split; [lia |].
  intros p Hp. apply in_app_or in Hp as [Hp | [<- | []]]; [by left | right; cbn; lia].
Qed.

Lemma seedAttempts_Some (word : string) (n : nat) :
  forall w : World.t, exists ok w', seedAttempts n word w = Some (ok, w') /\ keeps w w'.
Proof.
  induction n as [| n IH]; intros w; [exists false, w; split; [done | apply keeps_refl] |].
  cbn [seedAttempts].
  destruct (rngNext (World.rng w)) as [x1 rng1].
  destruct (negb (Qltb x1 (1 # 2))).
  - cbn [World.rng World.set_rng World.grid].
    destruct (rngNext rng1) as [x2 rng2].
    destruct (_ <? 0); [eexists _, _; split; [reflexivity | keeps_same] |].
    destruct (rngNext rng2) as [x3 rng3].
    set (w3 := World.set_rng rng3 _).
    assert (Hk3 : keeps w w3) by keeps_same.
    destruct (placementFree w3 _ _ _ _) eqn:Hfree; cbn [negb].
    + destruct (placeWord_Some _ _ _ _ _ Hfree) as (w' & -> & Hk).
      cbn [mbind option_bind]. exists true, w'. split; [done |].
      exact (keeps_trans _ _ _ Hk3 Hk).
    + destruct (IH w3) as (ok & w' & -> & Hk). exists ok, w'. split; [done |].
      exact (keeps_trans _ _ _ Hk3 Hk).
  - cbn [World.rng World.set_rng World.grid].
    destruct (rngNext rng1) as [x2 rng2].
    destruct (_ <? 0); [eexists _, _; split; [reflexivity | keeps_same] |].
    destruct (rngNext rng2) as [x3 rng3].
    set (w3 := World.set_rng rng3 _).
    assert (Hk3 : keeps w w3) by keeps_same.
    destruct (placementFree w3 _ _ _ _) eqn:Hfree; cbn [negb].
    + destruct (placeWord_Some _ _ _ _ _ Hfree) as (w' & -> & Hk).
      cbn [mbind option_bind]. exists true, w'. split; [done |].
      exact (keeps_trans _ _ _ Hk3 Hk).
    + destruct (IH w3) as (ok & w' & -> & Hk). exists ok, w'. split; [done |].
      exact (keeps_trans _ _ _ Hk3 Hk).
Qed.

(** With a non-empty dictionary [seedOneWord] returns: the cells of a run
    that [placementFree] accepted exist. *)
Lemma seedOneWord_Some (prefs : Prefs) (DICTIONARY : list string) (w : World.t) :
  DICTIONARY <> [] ->
  exists ok w', seedOneWord prefs DICTIONARY w = Some (ok, w') /\ keeps w w'.
Proof.
  intros Hne. unfold seedOneWord.
  destruct (chooseWord_source DICTIONARY (World.rng w) (minWordLength prefs) (maxWordLength prefs) Hne)
    as (word & Hword & _).
  destruct (chooseWord _ _ _ _) as [oword rng]. cbn [fst] in Hword. subst oword.
  cbn [mbind option_bind].
  destruct (seedAttempts_Some word 40 (World.set_rng rng w)) as (ok & w' & -> & Hk).
  exists ok, w'. split; [done |]. eapply keeps_trans; [apply keeps_set_rng | done].
Qed.

Lemma seedLoop_Some (prefs : Prefs) (DICTIONARY : list string) (guard : nat) :
  forall w : World.t,
    DICTIONARY <> [] ->
    exists w', seedLoop prefs DICTIONARY guard w = Some w' /\ keeps w w'.
Proof.
  induction guard as [| guard IH]; intros w Hne; cbn [seedLoop].
  - destruct (_ <? _); exists w; (split; [done | apply keeps_refl]).
  - destruct (_ <? _); [| exists w; split; [done | apply keeps_refl]].
    destruct (seedOneWord_Some prefs DICTIONARY w Hne) as (ok & w1 & -> & Hk1).
    destruct ok; [| exists w1; by split].
    destruct (IH w1 Hne) as (w' & -> & Hk). exists w'. split; [done |]. by eapply keeps_trans.
Qed.

(** The seeder returns, and leaves grid shape, capture, pointer and
    sentence alone. *)
Lemma ensureWordSeeding_Some (prefs : Prefs) (DICTIONARY : list string) (w : World.t) (dt : Q) :
  DICTIONARY <> [] -> 0 <= maxActiveWords prefs ->
  exists w', ensureWordSeeding prefs DICTIONARY w dt = Some w' /\ keeps w w'.
Proof.
  intros Hne Hmax. unfold ensureWordSeeding.
  destruct (evictLoop_Some prefs (S (length (World.words w))) w Hmax) as (w1 & -> & Hk1); [lia |].
  cbn [mbind option_bind].
  destruct (seedLoop_Some prefs DICTIONARY 20 w1 Hne) as (w2 & -> & Hk2).
  cbn [mbind option_bind].
  assert (Hk12 : keeps w w2) by (by eapply keeps_trans).
  destruct (underMax prefs _); [| by exists w2].
  destruct (rngNext (World.rng w2)) as [x rng].
  destruct (Qltb x _); [| exists (World.set_rng rng w2); split; [done |];
                          eapply keeps_trans; [done | apply keeps_set_rng]].
  destruct (seedOneWord_Some prefs DICTIONARY (World.set_rng rng w2) Hne) as (ok & w3 & -> & Hk3).
  cbn [mbind option_bind]. exists w3. split; [done |].
  eapply keeps_trans; [done |]. eapply keeps_trans; [apply keeps_set_rng | done].
Qed.

(** ** Capture *)

(** On a well-formed world the scanner returns; it changes the generator
    and the allocation counter only. *)
Lemma wordUnderSpotlight_Some (prefs : Prefs) (w : World.t) :
  wfWorld w ->
  exists live rng ref,
    wordUnderSpotlight prefs w = Some (live, World.set_rng rng (World.set_nextRef ref w)).
Proof.
  intros Hwf. unfold wordUnderSpotlight.
  destruct (scanCandidates_Some prefs w Hwf) as (candidates & ->).
  cbn [mbind option_bind].
  destruct (sortByLength _) as [| k0 sorted].
  - by exists None, (World.rng w), (World.nextRef w + length candidates)%nat.
  - destruct (rngNext _) as [x rng]. by eexists _, rng, _.
Qed.

Lemma keyDiffers_same (k : Cand.t) :
  keyDiffers (Some (candidateKey (Some k))) (candidateKey (Some k)) = false.
Proof. unfold keyDiffers. by rewrite String.eqb_refl. Qed.

(** One update of a Holding machine: the live candidate plays no part. *)
Lemma updateCapture_holding (prefs : Prefs) (w : World.t) (now : Q) (k : Cand.t) (t0 : Q) :
  wfWorld w -> holding w k t0 ->
  exists live rng ref,
    let w1 := World.set_rng rng (World.set_nextRef ref w) in
    wordUnderSpotlight prefs w = Some (live, w1) /\
    updateCapture prefs w now =
      if Mouse.down (World.mouse w) then
        if Qle_bool 1 (holdProgress prefs t0 now) then
          w2 ← finalizeCapture prefs w1 k;
          Some (World.set_capture (idleCapture (World.capture w)) w2)
        else
          Some (World.set_capture
                  (Capture.mk true t0 (Some k) (holdProgress prefs t0 now)
                     (Some (candidateKey (Some k)))) w1)
      else Some (World.set_capture (idleCapture (World.capture w)) w1).
Proof.
  intros Hwf (Hact & Hspot & Hkey & Hstart).
  destruct (wordUnderSpotlight_Some prefs w Hwf) as (live & rng & ref & Hscan).
  exists live, rng, ref. cbn zeta. split; [exact Hscan |].
  unfold updateCapture. rewrite Hscan. cbn [mbind option_bind].
  cbn [World.capture World.set_rng World.set_nextRef World.mouse].
  rewrite Hspot, Hact, Hkey, Hstart. cbn [negb orb].
  rewrite keyDiffers_same. unfold holdProgress.
  destruct (Mouse.down (World.mouse w)); [| done].
  by destruct (Qle_bool 1 _).
Qed.


(** The hold is complete exactly when the time held, as the double
    subtraction gives it, has reached the duration: the division and the
    clamp decide nothing of their own. *)
Lemma holdProgress_complete (prefs : Prefs) (t0 now : Q) :
  (0 < holdMs prefs)%Q ->
  Qle_bool 1 (holdProgress prefs t0 now) = true <->
  (holdMs prefs <= heldMs t0 now)%Q.
Proof.
  intros Hh. rewrite Qle_bool_iff. unfold holdProgress, clamp.
  rewrite Q.max_le_iff, Q.min_glb_iff.
  pose proof (fdiv_below_one (now - t0) (holdToCaptureSeconds prefs * 1000) Hh) as Hdiv.
  fold (fsub now t0) (fmul (holdToCaptureSeconds prefs) 1000) in Hdiv.
  fold (heldMs t0 now) (holdMs prefs) in Hdiv.
  fold (fdiv (heldMs t0 now) (holdMs prefs)) in Hdiv.
  split.
  - intros [H0 | [_ Hx]]; [lra |].
    apply Qnot_lt_le. intros Hc. apply Hdiv in Hc. lra.
  - intros Hnow. right. split; [lra |].
    apply Qnot_lt_le. intros Hc. apply Hdiv in Hc. lra.
Qed.


Lemma wfWorld_keeps (w w' : World.t) : keeps w w' -> wfWorld w -> wfWorld w'.
Proof. intros (Hg & _ & _ & _ & Hl & _). unfold wfWorld. by rewrite Hg, Hl. Qed.

Lemma validCand_length (cells cells' : list Cell.t) (k : Cand.t) :
  length cells' = length cells -> validCand cells k -> validCand cells' k.
Proof. intros Hl. unfold validCand, validPart. by rewrite Hl. Qed.

Lemma holding_keeps (w w' : World.t) (k : Cand.t) (t0 : Q) :
  keeps w w' -> holding w k t0 -> holding w' k t0.
Proof. intros (_ & Hc & _). unfold holding. by rewrite Hc. Qed.


Lemma run_snoc (prefs : Prefs) (DICTIONARY : list string) (s : World.t * Q)
    (frames : list Frame.t) (f : Frame.t) :
  run prefs DICTIONARY s (frames ++ [f])
  = s' ← run prefs DICTIONARY s frames; step prefs DICTIONARY s' f.
Proof. unfold run. by rewrite fold_left_app. Qed.


(** ** Placement *)

Lemma placeLetters_None (w : World.t) (r c : Z) (dir : Dir.t) (items : list (Z * ascii)) :
  fold_left (placeLetter w r c dir) items None = None.
Proof. induction items as [| [i ch] items IH]; [done | exact IH]. Qed.

Lemma placeLetters_parts (w : World.t) (r c : Z) (dir : Dir.t) (items : list (Z * ascii)) :
  forall cells parts cells' parts',
    fold_left (placeLetter w r c dir) items (Some (cells, parts)) = Some (cells', parts') ->
    map Part.idx parts'
    = map Part.idx parts ++ map (fun ich => runIndex w r c dir (fst ich)) items.
Proof.
  induction items as [| [i ch] items IH]; intros cells parts cells' parts'.
  - intros [= <- <-]. by rewrite app_nil_r.
  - cbn [fold_left placeLetter mbind option_bind].
    destruct (jsIndex cells (runIndex w r c dir i)) as [cell |]; cbn [mbind option_bind].
    + intros Hfold. rewrite (IH _ _ _ _ Hfold), map_app, <- app_assoc. cbn.
      by destruct dir.
    + by rewrite placeLetters_None.
Qed.

(** The cells of a word that [placeWord] has placed after [placementFree]
    accepted the run: each of them existed and was unlocked. *)
Lemma placeWord_on_unlocked (w w' : World.t) (word : string) (r c : Z) (dir : Dir.t) :
  placementFree w r c (strLen word) dir = true ->
  placeWord w word r c dir = Some w' ->
  exists p,
    World.words w' = World.words w ++ [p] /\ Placed.word p = word /\
    Forall (fun idx => exists cell,
              jsIndex (World.cells w) idx = Some cell /\ Cell.locked cell = false)
      (map Part.idx (Placed.cells p)).
Proof.
  intros Hfree. unfold placeWord.
  destruct (fold_left _ _ _) as [[cells' parts'] |] eqn:Hfold; [| done].
  cbn [mbind option_bind]. intros [= <-]. eexists. split; [reflexivity |]. split; [done |].
  cbn [Placed.cells]. rewrite (placeLetters_parts _ _ _ _ _ _ _ _ _ Hfold). cbn [map app].
  apply Forall_map, Forall_forall. intros [i ch] Hin. cbn [fst].
  unfold placementFree in Hfree. rewrite forallb_forall in Hfree.
  assert (Hi : In i (seqZ 0 (strLen word))).
  { rewrite <- list_elem_of_In. unfold indexed in Hin. by apply elem_of_zip_l in Hin. }
  specialize (Hfree i Hi).
  destruct (jsIndex (World.cells w) (runIndex w r c dir i)) as [cell |]; [| done].
  exists cell. split; [done |]. by destruct (Cell.locked cell).
Qed.

Lemma seedAttempts_on_unlocked (word : string) (n : nat) :
  forall w w' : World.t,
    seedAttempts n word w = Some (true, w') ->
    exists p,
      World.words w' = World.words w ++ [p] /\ Placed.word p = word /\
      Forall (fun idx => exists cell,
                jsIndex (World.cells w) idx = Some cell /\ Cell.locked cell = false)
        (map Part.idx (Placed.cells p)).
Proof.
  induction n as [| n IH]; intros w w'; [done |].
  cbn [seedAttempts].
  destruct (rngNext (World.rng w)) as [x1 rng1].
  destruct (negb (Qltb x1 (1 # 2))).
  - cbn [World.rng World.set_rng World.grid].
    destruct (rngNext rng1) as [x2 rng2].
    destruct (_ <? 0); [done |].
    destruct (rngNext rng2) as [x3 rng3].
    set (w3 := World.set_rng rng3 _).
    destruct (placementFree w3 _ _ _ _) eqn:Hfree; cbn [negb].
    + destruct (placeWord w3 _ _ _ _) as [w4 |] eqn:Hplace; [| done].
      cbn [mbind option_bind]. intros [= <-].
      exact (placeWord_on_unlocked w3 w4 _ _ _ _ Hfree Hplace).
    + intros Hrec. exact (IH w3 w' Hrec).
  - cbn [World.rng World.set_rng World.grid].
    destruct (rngNext rng1) as [x2 rng2].
    destruct (_ <? 0); [done |].
    destruct (rngNext rng2) as [x3 rng3].
    set (w3 := World.set_rng rng3 _).
    destruct (placementFree w3 _ _ _ _) eqn:Hfree; cbn [negb].
    + destruct (placeWord w3 _ _ _ _) as [w4 |] eqn:Hplace; [| done].
      cbn [mbind option_bind]. intros [= <-].
      exact (placeWord_on_unlocked w3 w4 _ _ _ _ Hfree Hplace).
    + intros Hrec. exact (IH w3 w' Hrec).
Qed.

(** Placement checks the lock flag of every cell of the run before it
    commits: a word that [seedOneWord] adds lies on cells that were all
    unlocked. *)
Lemma seedOneWord_on_unlocked (prefs : Prefs) (DICTIONARY : list string) (w w' : World.t) :
  seedOneWord prefs DICTIONARY w = Some (true, w') ->
  exists p,
    World.words w' = World.words w ++ [p] /\
    Forall (fun idx => exists cell,
              jsIndex (World.cells w) idx = Some cell /\ Cell.locked cell = false)
      (map Part.idx (Placed.cells p)).
Proof.
  unfold seedOneWord. destruct (chooseWord _ _ _ _) as [[word |] rng]; [| done].
  cbn [mbind option_bind]. intros Hseed.
  destruct (seedAttempts_on_unlocked word 40 _ _ Hseed) as (p & Hw & _ & Hfree).
  by exists p.
Qed.

(** The word that [seedOneWord] places is the one that [chooseWord]
    returned for the configured bounds. *)
Lemma seedOneWord_word (prefs : Prefs) (DICTIONARY : list string) (w w' : World.t) :
  seedOneWord prefs DICTIONARY w = Some (true, w') ->
  exists p,
    World.words w' = World.words w ++ [p] /\
    fst (chooseWord DICTIONARY (World.rng w) (minWordLength prefs) (maxWordLength prefs))
    = Some (Placed.word p).
Proof.
  unfold seedOneWord. destruct (chooseWord _ _ _ _) as [[word |] rng]; [| done].
  cbn [mbind option_bind fst]. intros Hseed.
  destruct (seedAttempts_on_unlocked word 40 _ _ Hseed) as (p & Hw & Hword & _).
  exists p. split; [done | by rewrite Hword].
Qed.

(** ** Placement exclusivity, captures apart *)

Lemma updateLetters_lockedAt (prefs : Prefs) (w : World.t) (dt now : Q) (idx : Z) :
  lockedAt (World.cells w) idx -> lockedAt (World.cells (updateLetters prefs w dt now)) idx.
Proof.
  intros (cell & Hcell & Hlock). unfold lockedAt, jsIndex in *.
  destruct (idx <? 0); [done |].
  destruct (updateCells_lookup prefs now dt (World.cells w) (World.rng w) _ cell Hcell)
    as [rng_i Hlook].
  rewrite updateLetters_cells, Hlook. eexists. split; [reflexivity |].
  destruct (updateCell_char prefs now dt cell rng_i) as [-> _]. done.
Qed.

Lemma updateLetters_exclusive (prefs : Prefs) (w : World.t) (dt now : Q) :
  exclusive w -> exclusive (updateLetters prefs w dt now).
Proof.
  intros [Hnd Hlock].
  assert (Hwords : World.words (updateLetters prefs w dt now) = World.words w).
  { unfold updateLetters. by destruct (updateCells _ _ _ _ _). }
  split; rewrite Hwords; [done |].
  eapply Forall_impl; [exact Hlock |]. intros idx. apply updateLetters_lockedAt.
Qed.

Lemma unlockPart_other (parts : list Part.t) :
  forall (cells : list Cell.t) (idx : Z),
    ~ In idx (map Part.idx parts) ->
    jsIndex (fold_left unlockPart parts cells) idx = jsIndex cells idx.
Proof.
  induction parts as [| p parts IH]; intros cells idx Hnot; [done |].
  cbn [fold_left map In] in *. rewrite IH by tauto.
  unfold unlockPart. destruct (jsIndex cells (Part.idx p)) as [cell |] eqn:Hp; [| done].
  unfold jsIndex in *. destruct (idx <? 0) eqn:Hneg; [done |].
  destruct (Part.idx p <? 0) eqn:Hneg'; [done |].
  apply list_lookup_insert_ne. apply Z.ltb_ge in Hneg, Hneg'. intros Heq.
  apply Hnot. left. lia.
Qed.

Lemma dropOldestWord_exclusive (w : World.t) : exclusive w -> exclusive (dropOldestWord w).
Proof.
  intros [Hnd Hlock]. unfold dropOldestWord.
  destruct (World.words w) as [| pw rest] eqn:Hwords; [by rewrite <- Hwords in * |].
  unfold claimedIdxs in *. cbn [map concat] in *.
  apply NoDup_app in Hnd as (_ & Hdisj & Hrest). apply Forall_app in Hlock as [_ Hlrest].
  split; cbn; [done |].
  apply Forall_forall. intros idx Hidx.
  rewrite Forall_forall in Hlrest. destruct (Hlrest idx Hidx) as (cell & Hcell & Hl).
  exists cell. split; [| done]. rewrite unlockPart_other; [done |].
  intros Hin. apply list_elem_of_In in Hin. exact (Hdisj idx Hin Hidx).
Qed.

Lemma evictLoop_exclusive (prefs : Prefs) (fuel : nat) :
  forall w w' : World.t,
    exclusive w -> evictLoop prefs fuel w = Some w' -> exclusive w'.
Proof.
  induction fuel as [| fuel IH]; intros w w' Hex; cbn [evictLoop].
  - destruct (overMax prefs _); [done | by intros [= <-]].
  - destruct (overMax prefs _); [| by intros [= <-]].
    apply IH. by apply dropOldestWord_exclusive.
Qed.

Lemma length_list_ascii_of_string (s : string) :
  length (list_ascii_of_string s) = String.length s.
Proof. induction s as [| ch s IH]; [done |]. cbn. by rewrite IH. Qed.

Lemma map_fst_indexed (word : string) : map fst (indexed word) = seqZ 0 (strLen word).
Proof.
  unfold indexed. apply (fst_zip (seqZ 0 (strLen word)) (list_ascii_of_string word)).
  rewrite length_seqZ, length_list_ascii_of_string. unfold strLen. lia.
Qed.

(** The cells after the placement loop: those of the run are locked, the
    others are as before. *)
Lemma placeLetters_cells (w : World.t) (r c : Z) (dir : Dir.t) (items : list (Z * ascii)) :
  forall cells parts cells' parts',
    fold_left (placeLetter w r c dir) items (Some (cells, parts)) = Some (cells', parts') ->
    (forall idx, ~ In idx (map (fun ich => runIndex w r c dir (fst ich)) items) ->
       jsIndex cells' idx = jsIndex cells idx) /\
    (forall idx, In idx (map (fun ich => runIndex w r c dir (fst ich)) items) ->
       lockedAt cells' idx).
Proof.
  induction items as [| [i ch] items IH]; intros cells parts cells' parts'.
  - intros [= <- <-]. by split.
  - cbn [fold_left placeLetter mbind option_bind map fst In].
    destruct (jsIndex cells (runIndex w r c dir i)) as [cell |] eqn:Hcell;
      cbn [mbind option_bind]; [| by rewrite placeLetters_None].
    set (cell1 := Cell.set_locked true _). set (idx0 := runIndex w r c dir i) in *.
    intros Hfold. destruct (IH _ _ _ _ Hfold) as [Hother Hin].
    pose proof (jsIndex_Some_range _ _ _ Hcell) as Hrange.
    assert (Hat : jsIndex (<[Z.to_nat idx0 := cell1]> cells) idx0 = Some cell1).
    { rewrite jsIndex_lookup by lia. apply list_lookup_insert_eq. lia. }
    split.
    + intros idx Hnot. rewrite Hother by tauto.
      unfold jsIndex. destruct (Z.ltb_spec idx 0); [done |].
      apply list_lookup_insert_ne. intros Heq. apply Hnot. left. lia.
    + intros idx [<- | Hidx]; [| by apply Hin].
      destruct (in_dec Z.eq_dec idx0 (map (fun ich => runIndex w r c dir (fst ich)) items))
        as [Hyes | Hno]; [by apply Hin |].
      exists cell1. split; [by rewrite Hother | done].
Qed.

Lemma runIndex_inj (w : World.t) (r c : Z) (dir : Dir.t) :
  Grid.cols (World.grid w) <> 0 -> Inj eq eq (runIndex w r c dir).
Proof. intros Hcols i j. unfold runIndex, getCellIndex. destruct dir; nia. Qed.

(** A placement that [placementFree] has accepted keeps exclusivity. *)
Lemma placeWord_exclusive (w w' : World.t) (word : string) (r c : Z) (dir : Dir.t) :
  wfWorld w -> exclusive w ->
  placementFree w r c (strLen word) dir = true ->
  placeWord w word r c dir = Some w' ->
  exclusive w'.
Proof.
  intros Hwf [Hnd Hlock] Hfree. unfold placeWord.
  destruct (fold_left _ _ _) as [[cells' parts'] |] eqn:Hfold; [| done].
  cbn [mbind option_bind]. intros [= <-].
  pose proof (placeLetters_parts _ _ _ _ _ _ _ _ _ Hfold) as Hparts. cbn [map app] in Hparts.
  destruct (placeLetters_cells _ _ _ _ _ _ _ _ _ Hfold) as [Hother Hnew].
  set (run := map (fun ich => runIndex w r c dir (fst ich)) (indexed word)) in *.
  assert (Hrun : run = map (runIndex w r c dir) (seqZ 0 (strLen word))).
  { subst run. by rewrite <- map_fst_indexed, map_map. }
  assert (Hunlocked : forall idx, In idx run -> ~ lockedAt (World.cells w) idx).
  { intros idx Hidx (cell & Hcell & Hl). rewrite Hrun in Hidx.
    apply in_map_iff in Hidx as (i & <- & Hi).
    unfold placementFree in Hfree. rewrite forallb_forall in Hfree.
    specialize (Hfree i Hi). rewrite Hcell, Hl in Hfree. done. }
  assert (Hdisj : forall idx, In idx (claimedIdxs (World.words w)) -> ~ In idx run).
  { intros idx Hold Hidx. apply (Hunlocked idx Hidx).
    rewrite Forall_forall in Hlock. apply Hlock. by apply list_elem_of_In. }
  assert (Hndrun : NoDup run).
  { rewrite Hrun. destruct (seqZ 0 (strLen word)) as [| i0 rest] eqn:Hseq; [constructor |].
    rewrite <- Hseq. apply NoDup_fmap_2; [| apply NoDup_seqZ].
    apply runIndex_inj. intros Hcols.
    unfold placementFree in Hfree. rewrite forallb_forall in Hfree.
    specialize (Hfree i0). rewrite Hseq in Hfree. specialize (Hfree (or_introl eq_refl)).
    destruct (jsIndex (World.cells w) (runIndex w r c dir i0)) as [cell |] eqn:Hcell; [| done].
    apply jsIndex_Some_range in Hcell. destruct Hwf as (_ & _ & Hlen). rewrite Hcols in Hlen. lia. }
  unfold exclusive, claimedIdxs. cbn [World.words World.set_words World.cells World.set_cells
                                      World.set_nextRef].
  rewrite map_app, concat_app. cbn [map concat]. rewrite app_nil_r.
  unfold wordIdxs at 2 4. cbn [Placed.cells]. rewrite Hparts. fold (claimedIdxs (World.words w)).
  split.
  - apply NoDup_app. split; [done |]. split; [| done].
    intros idx Hold Hidx. apply list_elem_of_In in Hold, Hidx. exact (Hdisj idx Hold Hidx).
  - apply Forall_app. split; [| apply Forall_forall; intros idx Hidx; apply Hnew;
                                 by apply list_elem_of_In].
    apply Forall_forall. intros idx Hold.
    rewrite Forall_forall in Hlock. destruct (Hlock idx Hold) as (cell & Hcell & Hl).
    exists cell. split; [| done]. rewrite Hother; [done |].
    apply Hdisj. by apply list_elem_of_In.
Qed.

Lemma seedAttempts_exclusive (word : string) (n : nat) :
  forall (w w' : World.t) (ok : bool),
    wfWorld w -> exclusive w ->
    seedAttempts n word w = Some (ok, w') -> exclusive w'.
Proof.
  induction n as [| n IH]; intros w w' ok Hwf Hex; [by intros [= _ <-] |].
  cbn [seedAttempts].
  destruct (rngNext (World.rng w)) as [x1 rng1].
  destruct (negb (Qltb x1 (1 # 2))).
  - cbn [World.rng World.set_rng World.grid].
    destruct (rngNext rng1) as [x2 rng2].
    destruct (_ <? 0); [by intros [= _ <-] |].
    destruct (rngNext rng2) as [x3 rng3].
    set (w3 := World.set_rng rng3 _).
    assert (Hwf3 : wfWorld w3) by done. assert (Hex3 : exclusive w3) by done.
    destruct (placementFree w3 _ _ _ _) eqn:Hfree; cbn [negb].
    + destruct (placeWord w3 _ _ _ _) as [w4 |] eqn:Hplace; [| done].
      cbn [mbind option_bind]. intros [= _ <-].
      exact (placeWord_exclusive w3 w4 _ _ _ _ Hwf3 Hex3 Hfree Hplace).
    + apply IH; done.
  - cbn [World.rng World.set_rng World.grid].
    destruct (rngNext rng1) as [x2 rng2].
    destruct (_ <? 0); [by intros [= _ <-] |].
    destruct (rngNext rng2) as [x3 rng3].
    set (w3 := World.set_rng rng3 _).
    assert (Hwf3 : wfWorld w3) by done. assert (Hex3 : exclusive w3) by done.
    destruct (placementFree w3 _ _ _ _) eqn:Hfree; cbn [negb].
    + destruct (placeWord w3 _ _ _ _) as [w4 |] eqn:Hplace; [| done].
      cbn [mbind option_bind]. intros [= _ <-].
      exact (placeWord_exclusive w3 w4 _ _ _ _ Hwf3 Hex3 Hfree Hplace).
    + apply IH; done.
Qed.

Lemma seedOneWord_exclusive (prefs : Prefs) (DICTIONARY : list string) (w w' : World.t)
    (ok : bool) :
  wfWorld w -> exclusive w ->
  seedOneWord prefs DICTIONARY w = Some (ok, w') -> exclusive w'.
Proof.
  intros Hwf Hex. unfold seedOneWord.
  destruct (chooseWord _ _ _ _) as [[word |] rng]; [| done].
  cbn [mbind option_bind]. by apply seedAttempts_exclusive.
Qed.

Lemma seedLoop_exclusive (prefs : Prefs) (DICTIONARY : list string) (guard : nat) :
  forall w w' : World.t,
    DICTIONARY <> [] -> wfWorld w -> exclusive w ->
    seedLoop prefs DICTIONARY guard w = Some w' -> exclusive w'.
Proof.
  induction guard as [| guard IH]; intros w w' Hne Hwf Hex; cbn [seedLoop].
  - destruct (_ <? _); by intros [= <-].
  - destruct (_ <? _); [| by intros [= <-]].
    destruct (seedOneWord_Some prefs DICTIONARY w Hne) as (ok & w1 & Hseed & Hk1).
    rewrite Hseed. pose proof (seedOneWord_exclusive _ _ _ _ _ Hwf Hex Hseed) as Hex1.
    destruct ok; [| by intros [= <-]].
    apply IH; [done | by eapply wfWorld_keeps | done].
Qed.

(** The seeder keeps exclusivity. *)
Lemma ensureWordSeeding_exclusive (prefs : Prefs) (DICTIONARY : list string)
    (w w' : World.t) (dt : Q) :
  DICTIONARY <> [] -> 0 <= maxActiveWords prefs ->
  wfWorld w -> exclusive w ->
  ensureWordSeeding prefs DICTIONARY w dt = Some w' -> exclusive w'.
Proof.
  intros Hne Hmax Hwf Hex. unfold ensureWordSeeding.
  destruct (evictLoop_Some prefs (S (length (World.words w))) w Hmax) as (w1 & Hevict & Hk1); [lia |].
  rewrite Hevict. cbn [mbind option_bind].
  pose proof (evictLoop_exclusive _ _ _ _ Hex Hevict) as Hex1.
  pose proof (wfWorld_keeps _ _ Hk1 Hwf) as Hwf1.
  destruct (seedLoop_Some prefs DICTIONARY 20 w1 Hne) as (w2 & Hloop & Hk2).
  rewrite Hloop. cbn [mbind option_bind].
  pose proof (seedLoop_exclusive _ _ _ _ _ Hne Hwf1 Hex1 Hloop) as Hex2.
  pose proof (wfWorld_keeps _ _ Hk2 Hwf1) as Hwf2.
  destruct (underMax prefs _); [| by intros [= <-]].
  destruct (rngNext (World.rng w2)) as [x rng].
  destruct (Qltb x _); [| by intros [= <-]].
  destruct (seedOneWord prefs DICTIONARY (World.set_rng rng w2)) as [[ok w3] |] eqn:Hseed; [| done].
  cbn [mbind option_bind]. intros [= <-].
  by apply (seedOneWord_exclusive prefs DICTIONARY (World.set_rng rng w2) w3 ok).
Qed.

(** Letters and seeding keep the active words exclusive; over frames in
    which the button is up, so does the whole loop. *)
Lemma step_exclusive_button_up (prefs : Prefs) (DICTIONARY : list string) (w w' : World.t)
    (lastMs lastMs' : Q) (f : Frame.t) :
  DICTIONARY <> [] -> 0 <= maxActiveWords prefs ->
  wfWorld w -> exclusive w ->
  Mouse.down (Frame.pointer f) = false ->
  step prefs DICTIONARY (w, lastMs) f = Some (w', lastMs') ->
  wfWorld w' /\ exclusive w'.
Proof.
  intros Hne Hmax Hwf Hex Hup. unfold step.
  set (wa := World.set_mouse (Frame.pointer f) w).
  set (wb := updateLetters prefs wa _ _).
  assert (Hwfa : wfWorld wa) by done. assert (Hexa : exclusive wa) by done.
  pose proof (updateLetters_keeps prefs wa (frameDt (Frame.now f) lastMs) (Frame.nowLetters f)) as Hkb.
  pose proof (updateLetters_exclusive prefs wa (frameDt (Frame.now f) lastMs) (Frame.nowLetters f) Hexa)
    as Hexb.
  fold wb in Hkb, Hexb. pose proof (wfWorld_keeps _ _ Hkb Hwfa) as Hwfb.
  destruct (ensureWordSeeding_Some prefs DICTIONARY wb (frameDt (Frame.now f) lastMs) Hne Hmax)
    as (wc & Hseed & Hkc).
  rewrite Hseed. cbn [mbind option_bind].
  pose proof (ensureWordSeeding_exclusive _ _ _ _ _ Hne Hmax Hwfb Hexb Hseed) as Hexc.
  pose proof (wfWorld_keeps _ _ Hkc Hwfb) as Hwfc.
  assert (Hmouse : Mouse.down (World.mouse wc) = false).
  { destruct Hkb as (_ & _ & Hmb & _), Hkc as (_ & _ & Hmc & _). by rewrite Hmc, Hmb. }
  unfold updateCapture.
  destruct (wordUnderSpotlight_Some prefs wc Hwfc) as (live & rng & ref & ->).
  cbn [mbind option_bind World.capture World.mouse World.set_rng World.set_nextRef].
  rewrite Hmouse.
  destruct (match Capture.wordUnderSpot (World.capture wc) with
            | Some k => _ | None => _ end); cbn [mbind option_bind]; by intros [= <- _].
Qed.

(** X15.  Placement exclusivity without captures.  Over frames in which
    the button is up, from a well-formed world in which no cell is claimed
    by two active words and every claimed cell is locked, the letter
    update, the eviction and the seeding keep it so. *)
Lemma run_exclusive_button_up (prefs : Prefs) (DICTIONARY : list string)
    (frames : list Frame.t) :
  forall (w w' : World.t) (lastMs lastMs' : Q),
    DICTIONARY <> [] -> 0 <= maxActiveWords prefs ->
    wfWorld w -> exclusive w ->
    Forall (fun f => Mouse.down (Frame.pointer f) = false) frames ->
    run prefs DICTIONARY (w, lastMs) frames = Some (w', lastMs') ->
    wfWorld w' /\ exclusive w'.
Proof.
  induction frames as [| f frames IH] using rev_ind;
    intros w w' lastMs lastMs' Hne Hmax Hwf Hex Hup.
  - by intros [= <- _].
  - apply Forall_app in Hup as [Hup Hf]. apply (proj1 (Forall_singleton _ _)) in Hf.
    rewrite run_snoc.
    destruct (run prefs DICTIONARY (w, lastMs) frames) as [[w1 l1] |] eqn:Hrun; [| done].
    cbn [mbind option_bind]. intros Hstep.
    destruct (IH w w1 lastMs l1 Hne Hmax Hwf Hex Hup Hrun) as [Hwf1 Hex1].
    exact (step_exclusive_button_up prefs DICTIONARY w1 w' l1 lastMs' f Hne Hmax Hwf1 Hex1 Hf Hstep).
Qed.

(** A world without placed words, as [createWorld] returns it, is
    exclusive. *)
Lemma exclusive_initial (w : World.t) : World.words w = [] -> exclusive w.
Proof. intros Hw. unfold exclusive. rewrite Hw. split; [constructor | constructor]. Qed.

(** ** Object identity *)

Lemma refsFresh_keeps (w w' : World.t) : keeps w w' -> refsFresh w -> refsFresh w'.
Proof.
  intros (_ & Hc & _ & _ & _ & Hn & Hw) [Hwords Hcap]. split.
  - apply Forall_forall. intros p Hp. apply list_elem_of_In in Hp.
    destruct (Hw p Hp) as [Hold | Hnew]; [| lia].
    rewrite Forall_forall in Hwords. apply list_elem_of_In in Hold.
    specialize (Hwords p Hold). cbn in Hwords. lia.
  - intros k Hk. rewrite Hc in Hk. destruct (Hcap k Hk) as [Hlt Hne].
    split; [lia |]. apply Forall_forall. intros p Hp. apply list_elem_of_In in Hp.
    destruct (Hw p Hp) as [Hold | Hnew]; [| lia].
    rewrite Forall_forall in Hne. apply list_elem_of_In in Hold. exact (Hne p Hold).
Qed.

Lemma refsFrom_snoc (base : nat) (out : list Cand.t) (k : Cand.t) :
  refsFrom base out -> Cand.ref k = (base + length out)%nat -> refsFrom base (out ++ [k]).
Proof.
  intros Hout Hk. unfold refsFrom in *. rewrite length_app. cbn [length].
  apply Forall_app. split.
  - eapply Forall_impl; [exact Hout |]. intros k' Hk'. cbn in *. lia.
  - apply Forall_singleton. lia.
Qed.

Lemma scanFromStart_refs (base : nat) (first : Seg.t) (rest : list Seg.t) :
  forall node word taken out,
    refsFrom base out -> refsFrom base (scanFromStart base first rest node word taken out).
Proof.
  induction rest as [| sj rest IH]; intros node word taken out Hout; [done |].
  cbn [scanFromStart]. destruct (Trie.c node !! Seg.ch sj) as [node' |]; [| done].
  apply IH. destruct (Trie.t node'); [| done]. by apply refsFrom_snoc.
Qed.

Lemma scanSegmentWithTrie_refs (base : nat) (trie : Trie.node) (seg : list Seg.t) :
  forall out, refsFrom base out -> refsFrom base (scanSegmentWithTrie base seg trie out).
Proof.
  induction seg as [| si seg IH]; intros out Hout; [done |].
  cbn [scanSegmentWithTrie]. by apply IH, scanFromStart_refs.
Qed.

Lemma segmentsFrom_refs (w : World.t) (include : list bool) (dr dc : Z) (fuel : nat) :
  forall r c out out',
    refsFrom (World.nextRef w) out ->
    segmentsFrom fuel w include r c dr dc out = Some out' ->
    refsFrom (World.nextRef w) out'.
Proof.
  induction fuel as [| fuel IH]; intros r c out out' Hout; cbn [segmentsFrom].
  - destruct (inBounds w r c); [done |]. by intros [= <-].
  - destruct (inBounds w r c); [| by intros [= <-]].
    destruct (segmentFrom _ _ _ _ _ _ _ _) as [[[r1 c1] seg] |]; [| done].
    cbn [mbind option_bind]. apply IH.
    destruct seg; [done |]. by apply scanSegmentWithTrie_refs.
Qed.

Lemma scanCandidates_refs (prefs : Prefs) (w : World.t) (candidates : list Cand.t) :
  scanCandidates prefs w = Some candidates -> refsFrom (World.nextRef w) candidates.
Proof.
  unfold scanCandidates. destruct (computeInclude prefs w) as [include |]; [| done].
  cbn [mbind option_bind].
  assert (Hfold : forall rows out out',
             refsFrom (World.nextRef w) out ->
             fold_left (fun out rI => out ← out; scanLine w include rI 0 0 1 out) rows (Some out)
             = Some out' ->
             refsFrom (World.nextRef w) out').
  { induction rows as [| r rows IH]; intros out out' Hout; cbn [fold_left].
    - by intros [= <-].
    - cbn [mbind option_bind]. unfold scanLine at 2.
      destruct (lineStart _ _ _ _ _ _) as [[r1 c1] |]; cbn [mbind option_bind].
      + destruct (segmentsFrom _ _ _ _ _ _ _ _) as [out1 |] eqn:Hseg.
        * apply IH. by eapply segmentsFrom_refs.
        * intros Hnone. exfalso. clear -Hnone.
          induction rows as [| r' rows IHr]; [done | exact (IHr Hnone)].
      + intros Hnone. exfalso. clear -Hnone.
        induction rows as [| r' rows IHr]; [done | exact (IHr Hnone)]. }
  apply Hfold. apply Forall_nil_2.
Qed.

(** The scanner changes the generator and the allocation counter only,
    and the candidate it returns is an object that it has just allocated. *)
Lemma wordUnderSpotlight_refs (prefs : Prefs) (w w1 : World.t) (live : option Cand.t) :
  wordUnderSpotlight prefs w = Some (live, w1) ->
  World.words w1 = World.words w /\
  World.capture w1 = World.capture w /\
  World.mouse w1 = World.mouse w /\
  (World.nextRef w <= World.nextRef w1)%nat /\
  forall k, live = Some k -> (World.nextRef w <= Cand.ref k < World.nextRef w1)%nat.
Proof.
  unfold wordUnderSpotlight.
  destruct (scanCandidates prefs w) as [candidates |] eqn:Hscan; [| done].
  apply scanCandidates_refs in Hscan. cbn [mbind option_bind].
  set (filtered := List.filter _ candidates).
  destruct (sortByLength filtered) as [| k0 sorted] eqn:Hs.
  - intros [= <- <-]. cbn. do 3 (split; [done |]). split; [lia | done].
  - set (longest := List.filter _ (k0 :: sorted)).
    assert (Hsub : forall k', In k' longest -> In k' candidates).
    { intros k' Hk'. apply filter_In in Hk' as [Hk' _]. rewrite <- Hs in Hk'.
      apply (proj1 (In_sortByLength _ _)) in Hk'. subst filtered.
      by apply filter_In in Hk' as [Hk' _]. }
    clearbody longest. destruct (rngNext _) as [x rng]. intros [= <- <-]. cbn.
    do 3 (split; [done |]). split; [lia |].
    intros k Hk. apply jsIndex_In, Hsub in Hk.
    unfold refsFrom in Hscan. rewrite Forall_forall in Hscan.
    apply list_elem_of_In in Hk. exact (Hscan k Hk).
Qed.

Lemma indexOfRef_None (ref : nat) (l : list Placed.t) :
  Forall (fun p => Placed.ref p <> ref) l -> indexOfRef ref l = None.
Proof.
  induction l as [| p l IH]; intros Hl; [done |].
  apply Forall_cons in Hl as [Hp Hl]. cbn [indexOfRef].
  destruct (Nat.eqb_spec (Placed.ref p) ref); [done |]. by rewrite IH.
Qed.

(** [finalizeCapture] on an object that is none of the placed words leaves
    the active list as it is. *)
Lemma finalizeCapture_words (prefs : Prefs) (w w' : World.t) (k : Cand.t) :
  Forall (fun p => Placed.ref p <> Cand.ref k) (World.words w) ->
  finalizeCapture prefs w k = Some w' ->
  World.words w' = World.words w /\ World.nextRef w' = World.nextRef w.
Proof.
  intros Hne. unfold finalizeCapture.
  destruct (fold_left releasePart _ _) as [cells |]; [| done]. cbn [mbind option_bind].
  cbn [World.words World.set_sentence World.set_cells].
  rewrite (indexOfRef_None _ _ Hne). by intros [= <-].
Qed.

(** No update of the capture machine changes the active list: the commit
    looks for the candidate object, which is none of the placed words. *)
Lemma updateCapture_words (prefs : Prefs) (w w' : World.t) (now : Q) :
  refsFresh w ->
  updateCapture prefs w now = Some w' ->
  World.words w' = World.words w /\ refsFresh w'.
Proof.
  intros [Hwords Hcap]. unfold updateCapture.
  destruct (wordUnderSpotlight prefs w) as [[live w1] |] eqn:Hscan; [| done].
  apply wordUnderSpotlight_refs in Hscan as (Hw1 & Hc1 & _ & Hn1 & Hlive).
  cbn [mbind option_bind]. rewrite Hc1.
  assert (Hwords1 : Forall (fun p => (Placed.ref p < World.nextRef w1)%nat) (World.words w1)).
  { rewrite Hw1. eapply Forall_impl; [exact Hwords |]. intros p Hp. cbn in *. lia. }
  assert (Hfrozen : forall k, Capture.wordUnderSpot (World.capture w) = Some k ->
            (Cand.ref k < World.nextRef w1)%nat /\
            Forall (fun p => Placed.ref p <> Cand.ref k) (World.words w1)).
  { intros k Hk. destruct (Hcap k Hk) as [Hlt Hne]. rewrite Hw1. split; [lia | done]. }
  assert (Hdetected : forall k, live = Some k ->
            (Cand.ref k < World.nextRef w1)%nat /\
            Forall (fun p => Placed.ref p <> Cand.ref k) (World.words w1)).
  { intros k Hk. destruct (Hlive k Hk) as [Hge Hlt]. split; [done |]. rewrite Hw1.
    eapply Forall_impl; [exact Hwords |]. intros p Hp. cbn in *. lia. }
  set (current := match Capture.wordUnderSpot (World.capture w) with
                  | Some k => if Capture.active (World.capture w) then Some k else live
                  | None => live
                  end).
  assert (Hcurrent : forall k, current = Some k ->
            (Cand.ref k < World.nextRef w1)%nat /\
            Forall (fun p => Placed.ref p <> Cand.ref k) (World.words w1)).
  { intros k Hk. subst current.
    destruct (Capture.wordUnderSpot (World.capture w)) as [k' |] eqn:Hspot; [| by apply Hdetected].
    destruct (Capture.active (World.capture w)); [| by apply Hdetected].
    injection Hk as <-. by apply Hfrozen. }
  assert (Hidle : refsFresh (World.set_capture (idleCapture (World.capture w)) w1)).
  { split; [done |]. by intros k. }
  destruct current as [cur |] eqn:Hcur; [| intros [= <-]; by rewrite <- Hw1].
  destruct (Mouse.down (World.mouse w1)); [| intros [= <-]; by rewrite <- Hw1].
  destruct (negb _ || _).
  { intros [= <-]. split; [done |]. split; [done |].
    intros k [= <-]. by apply Hcurrent. }
  destruct (Qle_bool 1 _).
  - destruct (Capture.wordUnderSpot (World.capture w)) as [wordObj |] eqn:Hspot; [| done].
    cbn [mbind option_bind].
    destruct (Hfrozen wordObj eq_refl) as [_ Hne].
    destruct (finalizeCapture prefs w1 wordObj) as [w2 |] eqn:Hfin; [| done].
    apply (finalizeCapture_words _ _ _ _ Hne) in Hfin as [Hw2 Hn2].
    cbn [mbind option_bind]. intros [= <-]. cbn. split; [congruence |].
    split; [cbn; by rewrite Hw2, Hn2 | by intros k].
  - intros [= <-]. split; [done |]. split; [done |]. cbn. intros k Hk. by apply Hfrozen.
Qed.

Lemma step_refsFresh (prefs : Prefs) (DICTIONARY : list string) (w w' : World.t)
    (lastMs lastMs' : Q) (f : Frame.t) :
  DICTIONARY <> [] -> 0 <= maxActiveWords prefs ->
  refsFresh w ->
  step prefs DICTIONARY (w, lastMs) f = Some (w', lastMs') ->
  refsFresh w'.
Proof.
  intros Hne Hmax Hfresh. unfold step.
  set (wa := World.set_mouse (Frame.pointer f) w).
  set (wb := updateLetters prefs wa _ _).
  assert (Hka : refsFresh wa) by done.
  pose proof (updateLetters_keeps prefs wa (frameDt (Frame.now f) lastMs) (Frame.nowLetters f)) as Hkb.
  fold wb in Hkb.
  destruct (ensureWordSeeding_Some prefs DICTIONARY wb (frameDt (Frame.now f) lastMs) Hne Hmax)
    as (wc & -> & Hkc).
  cbn [mbind option_bind].
  assert (Hfc : refsFresh wc) by (eapply refsFresh_keeps; [exact (keeps_trans _ _ _ Hkb Hkc) | done]).
  destruct (updateCapture prefs wc (Frame.nowCapture f)) as [wd |] eqn:Hupd; [| done].
  cbn [mbind option_bind]. intros [= <- _].
  by apply (updateCapture_words prefs wc wd _ Hfc) in Hupd as [_ Hfd].
Qed.

Lemma run_refsFresh (prefs : Prefs) (DICTIONARY : list string) (frames : list Frame.t) :
  forall (w w' : World.t) (lastMs lastMs' : Q),
    DICTIONARY <> [] -> 0 <= maxActiveWords prefs ->
    refsFresh w ->
    run prefs DICTIONARY (w, lastMs) frames = Some (w', lastMs') ->
    refsFresh w'.
Proof.
  induction frames as [| f frames IH] using rev_ind; intros w w' lastMs lastMs' Hne Hmax Hfresh.
  - by intros [= <- _].
  - rewrite run_snoc.
    destruct (run prefs DICTIONARY (w, lastMs) frames) as [[w1 l1] |] eqn:Hrun; [| done].
    cbn [mbind option_bind]. intros Hstep.
    eapply step_refsFresh; [done | done | | exact Hstep].
    by eapply IH.
Qed.

(** A world as [createWorld] returns it, without words and without a
    frozen candidate, is fresh. *)
Lemma refsFresh_initial (w : World.t) :
  World.words w = [] -> Capture.wordUnderSpot (World.capture w) = None -> refsFresh w.
Proof. intros Hw Hc. split; [by rewrite Hw | by rewrite Hc]. Qed.

(** X14.  In every state that frames lead to from a world whose objects
    are told apart (as [createWorld] makes it), an update of the capture
    machine, committing or not, leaves the active word list unchanged:
    [finalizeCapture] never finds the captured word in the list. *)
Lemma capture_never_removes (prefs : Prefs) (DICTIONARY : list string)
    (frames : list Frame.t) (w0 w w' : World.t) (lastMs0 lastMs now : Q) :
  DICTIONARY <> [] -> 0 <= maxActiveWords prefs ->
  refsFresh w0 ->
  run prefs DICTIONARY (w0, lastMs0) frames = Some (w, lastMs) ->
  updateCapture prefs w now = Some w' ->
  World.words w' = World.words w.
Proof.
  intros Hne Hmax Hfresh Hrun Hupd.
  apply (run_refsFresh prefs DICTIONARY frames w0 w lastMs0 lastMs Hne Hmax Hfresh) in Hrun.
  by apply (updateCapture_words prefs w w' now Hrun) in Hupd as [Hw _].
Qed.

(** ** The claims on the scanner, the capture machine and the seeder *)

(** C1, as the code has it (the scan is by rows, and by rows only).  On
    every well-formed world the scanner returns its candidates, and
    - every word of the prefix tree that is spelled by a contiguous run of
      readable cells within one row is recorded as a horizontal candidate
      over exactly those cells, before length filtering and selection;
    - nothing else is recorded: every candidate is horizontal and is such
      a run of readable cells of one row, with the word that they spell, a
      word of the tree;
    - so no candidate covers a run of two or more cells down a column. *)
Theorem scanCandidates_rows_only (prefs : Prefs) (w : World.t) :
  wfWorld w ->
  exists candidates,
    scanCandidates prefs w = Some candidates /\
    (forall (r c len : Z) (n : Trie.node),
       0 <= r < Grid.rows (World.grid w) ->
       0 <= c -> 0 < len -> c + len <= Grid.cols (World.grid w) ->
       (forall j, c <= j < c + len -> readable prefs w r j = true) ->
       walk (World.trie w) (segWord (rowRun w r c len)) = Some n -> Trie.t n = true ->
       exists k,
         In k candidates /\
         Cand.word k = segWord (rowRun w r c len) /\
         Cand.r k = r /\ Cand.c k = c /\ Cand.dir k = Dir.H /\
         Cand.cells k = rowRun w r c len) /\
    (forall k, In k candidates ->
       exists r c len : Z,
         0 <= r < Grid.rows (World.grid w) /\
         0 <= c /\ 0 < len /\ c + len <= Grid.cols (World.grid w) /\
         (forall j, c <= j < c + len -> readable prefs w r j = true) /\
         accepts (World.trie w) (segWord (rowRun w r c len)) = true /\
         Cand.word k = segWord (rowRun w r c len) /\
         Cand.r k = r /\ Cand.c k = c /\ Cand.dir k = Dir.H /\
         Cand.cells k = rowRun w r c len) /\
    (forall k, In k candidates ->
       forall r c len : Z, 2 <= len -> Cand.cells k <> colRun w r c len).
Proof.
  intros Hwf. unfold scanCandidates.
  destruct (computeInclude_spec prefs w Hwf) as (include & -> & Hinc).
  cbn [mbind option_bind].
  pose proof Hwf as (Hrows & Hcols & _).
  destruct (scanRows w include (Z.to_nat (Grid.rows (World.grid w))) 0 []) as (out & Hfold & _ & Hcompl);
    [done | lia | lia |].
  rewrite Z2Nat.id in Hfold, Hcompl by done.
  exists out. split; [exact Hfold |].
  assert (Hsound : forall k, In k out ->
            exists r c len : Z,
              0 <= r < Grid.rows (World.grid w) /\
              0 <= c /\ 0 < len /\ c + len <= Grid.cols (World.grid w) /\
              (forall j, c <= j < c + len -> readable prefs w r j = true) /\
              accepts (World.trie w) (segWord (rowRun w r c len)) = true /\
              Cand.word k = segWord (rowRun w r c len) /\
              Cand.r k = r /\ Cand.c k = c /\ Cand.dir k = Dir.H /\
              Cand.cells k = rowRun w r c len).
  { assert (Hall : Forall (rowCandidate w include) out).
    { apply (scanRows_sound w include (seqZ 0 (Grid.rows (World.grid w))) [] out Hwf);
        [| constructor | exact Hfold].
      apply Forall_forall. intros r Hr. apply elem_of_seqZ in Hr. lia. }
    rewrite Forall_forall in Hall. intros k Hk. apply list_elem_of_In in Hk.
    destruct (Hall k Hk)
      as (r & c & len & Hr & Hc & Hlen & Hfit & Hcells & Hw & Hkr & Hkc & Hd & Hacc & Hincl).
    exists r, c, len. do 4 (split; [done |]). split.
    - intros j Hj. specialize (Hincl j Hj). unfold readable.
      destruct (jsIndex_Some (World.cells w) (getCellIndex w r j)) as (cell & Hcell & _).
      { apply getCellIndex_bounds; [done | done | lia]. }
      rewrite Hcell. by rewrite <- (Hinc _ _ Hcell).
    - split; [by rewrite <- Hw |]. done. }
  split; [| split; [exact Hsound |]].
  - intros r c len n Hr Hc Hlen Hfit Hread Hwalk Ht.
    apply (Hcompl r ltac:(lia) c len n); try done.
    intros j Hj. specialize (Hread j Hj). unfold readable in Hread.
    destruct (jsIndex (World.cells w) (getCellIndex w r j)) as [cell |] eqn:Hcell; [| done].
    by rewrite (Hinc _ _ Hcell).
  - intros k Hk r c len Hlen Hcol.
    destruct (Hsound k Hk) as (r0 & c0 & len0 & _ & _ & _ & _ & _ & _ & _ & _ & _ & _ & Hcells).
    pose proof (rowRun_row w r0 c0 len0) as Hrow. rewrite <- Hcells, Hcol in Hrow.
    unfold colRun in Hrow. rewrite (seqZ_cons r) in Hrow by lia.
    rewrite (seqZ_cons (Z.succ r)) in Hrow by lia. cbn [map] in Hrow.
    apply Forall_cons in Hrow as [H1 Hrow]. apply Forall_cons in Hrow as [H2 _].
    cbn in H1, H2. lia.
Qed.

Lemma wfWorld_catWorld : wfWorld catWorld.
Proof. unfold wfWorld. vm_compute. repeat split; discriminate. Qed.

Lemma scanCandidates_rows_only_witness :
  wfWorld catWorld /\
  exists candidates k,
    scanCandidates demoPrefs catWorld = Some candidates /\
    In k candidates /\
    Cand.word k = "cat"%string /\ Cand.r k = 2 /\ Cand.c k = 0 /\ Cand.dir k = Dir.H /\
    Cand.cells k <> colRun catWorld 1 1 3.
Proof.
  split; [exact wfWorld_catWorld |].
  destruct (scanCandidates_rows_only demoPrefs catWorld wfWorld_catWorld)
    as (candidates & Hscan & Hcompl & _ & Hcol).
  destruct (Hcompl 2 0 3 (Trie.Node true ∅)) as (k & Hk & Hw & Hr & Hc & Hd & _).
  - vm_compute. split; [discriminate | reflexivity].
  - lia.
  - lia.
  - vm_compute. discriminate.
  - intros j Hj.
    assert (Hcases : j = 0 \/ j = 1 \/ j = 2) by lia.
    destruct Hcases as [-> | [-> | ->]]; vm_compute; reflexivity.
  - vm_compute. reflexivity.
  - reflexivity.
  - exists candidates, k. split; [exact Hscan |]. split; [exact Hk |].
    split; [exact Hw |]. split; [exact Hr |]. split; [exact Hc |]. split; [exact Hd |].
    apply (Hcol k Hk). lia.
Defined.

(** C1, as stated, fails: the word "cat" stands in column 1, rows 1-3, of
    [catDownWorld], its three cells are readable and the prefix tree holds
    it, and the scanner records no candidate at all. *)
Lemma vertical_word_not_scanned :
  wfWorld catDownWorld /\
  (forall i, 1 <= i < 1 + 3 -> readable demoPrefs catDownWorld i 1 = true) /\
  segWord (colRun catDownWorld 1 1 3) = "cat"%string /\
  accepts (World.trie catDownWorld) "cat" = true /\
  scanCandidates demoPrefs catDownWorld = Some [].
Proof.
  split; [unfold wfWorld; vm_compute; repeat split; discriminate |].
  split.
  { intros i Hi. assert (Hcases : i = 1 \/ i = 2 \/ i = 3) by lia.
    destruct Hcases as [-> | [-> | ->]]; vm_compute; reflexivity. }
  split; [vm_compute; reflexivity |]. split; vm_compute; reflexivity.
Qed.

(** C2, as the code has it.  During an active hold the candidate that the
    scanner recomputes plays no part, whatever its key: while the button
    stays down and the time held, as the machine computes it, is short of
    the hold duration, the machine stays Holding on the frozen candidate
    with the same start time and a progress below 1 computed from the time
    held; it returns to Idle with progress 0 when the button is
    released. *)
Theorem hold_ignores_live_candidate (prefs : Prefs) (w : World.t) (now : Q)
    (k : Cand.t) (t0 : Q) :
  wfWorld w -> holding w k t0 ->
  (0 < holdMs prefs)%Q ->
  exists live w1,
    wordUnderSpotlight prefs w = Some (live, w1) /\
    (Mouse.down (World.mouse w) = true ->
     (heldMs t0 now < holdMs prefs)%Q ->
     exists w',
       updateCapture prefs w now = Some w' /\
       holding w' k t0 /\
       Capture.progress01 (World.capture w') = holdProgress prefs t0 now /\
       (Capture.progress01 (World.capture w') < 1)%Q /\
       World.sentence w' = World.sentence w) /\
    (Mouse.down (World.mouse w) = false ->
     exists w',
       updateCapture prefs w now = Some w' /\
       Capture.active (World.capture w') = false /\
       Capture.wordUnderSpot (World.capture w') = None /\
       Capture.progress01 (World.capture w') = 0%Q /\
       World.sentence w' = World.sentence w).
Proof.
  intros Hwf Hhold Hh.
  destruct (updateCapture_holding prefs w now k t0 Hwf Hhold) as (live & rng & ref & Hscan & Hupd).
  cbn zeta in *. eexists live, _. split; [exact Hscan |]. split.
  - intros Hdown Hshort. rewrite Hdown in Hupd.
    destruct (Qle_bool 1 (holdProgress prefs t0 now)) eqn:Hp.
    + apply holdProgress_complete in Hp; [| done]. lra.
    + eexists. split; [exact Hupd |]. split; [by repeat split |].
      split; [reflexivity |]. split; [| reflexivity].
      cbn [World.capture World.set_capture Capture.progress01].
      apply Qnot_le_lt. intros Hc. apply Qle_bool_iff in Hc. congruence.
  - intros Hup. rewrite Hup in Hupd. eexists. split; [exact Hupd |]. by cbn.
Qed.

Lemma wfWorld_heldWorld : wfWorld heldWorld.
Proof. unfold wfWorld. vm_compute. repeat split; discriminate. Qed.

Lemma holding_heldWorld : holding heldWorld catCand (10003 # 10).
Proof. unfold holding. vm_compute. by repeat split. Qed.

Lemma hold_ignores_live_candidate_witness :
  wfWorld heldWorld /\ holding heldWorld catCand (10003 # 10) /\
  (0 < holdMs demoPrefs)%Q /\
  (heldMs (10003 # 10) (15003 # 10) < holdMs demoPrefs)%Q /\
  exists w',
    updateCapture demoPrefs heldWorld (15003 # 10) = Some w' /\
    holding w' catCand (10003 # 10) /\
    Capture.progress01 (World.capture w') = holdProgress demoPrefs (10003 # 10) (15003 # 10).
Proof.
  split; [exact wfWorld_heldWorld |]. split; [exact holding_heldWorld |].
  assert (Hh : (0 < holdMs demoPrefs)%Q) by (vm_compute; reflexivity).
  assert (Hshort : (heldMs (10003 # 10) (15003 # 10) < holdMs demoPrefs)%Q)
    by (vm_compute; reflexivity).
  split; [exact Hh |]. split; [exact Hshort |].
  destruct (hold_ignores_live_candidate demoPrefs heldWorld (15003 # 10) catCand (10003 # 10)
              wfWorld_heldWorld holding_heldWorld Hh) as (live & w1 & _ & Hdown & _).
  destruct (Hdown eq_refl Hshort) as (w' & Hupd & Hhold & Hp & _).
  exists w'. split; [exact Hupd |]. split; [exact Hhold | exact Hp].
Defined.

(** C2, as stated, fails: [driftWorld] is Holding on "cat" with the button
    down, the middle letter has changed so that the scanner finds no
    candidate and the live key, the empty string, differs from the frozen
    key; the update at half of the hold duration leaves the machine
    Holding with progress one half. *)
Lemma hold_survives_key_change :
  holding driftWorld catCand (10003 # 10) /\
  Mouse.down (World.mouse driftWorld) = true /\
  (fst <$> wordUnderSpotlight demoPrefs driftWorld) = Some None /\
  candidateKey None <> candidateKey (Some catCand) /\
  exists w',
    updateCapture demoPrefs driftWorld (15003 # 10) = Some w' /\
    Capture.active (World.capture w') = true /\
    (Capture.progress01 (World.capture w') == 1 # 2)%Q /\
    ~ (Capture.progress01 (World.capture w') == 0)%Q.
Proof.
  split; [unfold holding; vm_compute; by repeat split |].
  split; [reflexivity |]. split; [vm_compute; reflexivity |].
  split; [vm_compute; discriminate |].
  destruct (updateCapture demoPrefs driftWorld (15003 # 10)) as [w' |] eqn:Hupd;
    [| vm_compute in Hupd; discriminate].
  exists w'. split; [reflexivity |].
  assert (Hcap : World.capture <$> updateCapture demoPrefs driftWorld (15003 # 10)
                 = Some (World.capture w')) by (by rewrite Hupd).
  remember (World.capture w') as cap eqn:Ecap. clear Ecap Hupd.
  vm_compute in Hcap. injection Hcap as <-.
  split; [reflexivity |]. split; [reflexivity | discriminate].
Qed.

(** C3 at the scenario of the design document.  After the frame that
    completes the hold over "cat" the sentence is ["cat"], the three cells
    of the word are unlocked and the capture state is reset, but the placed
    word is still in the active list: [indexOf] looks for the candidate
    object of the scanner among the objects that the seeder pushed. *)
Theorem cat_commit_keeps_placed_word :
  match run demoPrefs ["cat"%string] (catWorld, 984%Q) [frameStart; frameFull] with
  | Some (w, _) =>
      World.sentence w = ["cat"%string] /\
      Capture.active (World.capture w) = false /\
      Capture.wordUnderSpot (World.capture w) = None /\
      (Capture.progress01 (World.capture w) == 0)%Q /\
      (forall i cell, In i [10; 11; 12]%nat -> World.cells w !! i = Some cell ->
         Cell.locked cell = false) /\
      In catWord (World.words w)
  | None => False
  end.
Proof.
  vm_compute. split; [reflexivity |]. split; [reflexivity |]. split; [reflexivity |].
  split; [reflexivity |]. split; [| by left].
  intros i cell [<- | [<- | [<- | []]]] [= <-]; reflexivity.
Qed.

Lemma exclusive_catWorld : exclusive catWorld.
Proof.
  split; [exact (NoDup_seqZ 10 3) |].
  repeat (apply Forall_cons; split; [eexists; split; vm_compute; reflexivity |]).
  apply Forall_nil_2.
Qed.

(** C4 at the same scenario, one frame later.  The scenario starts
    exclusive.  After the commit the seeder, which finds the cells of the
    captured word unlocked, places a new word on them while the captured
    word is still listed: two entries of the active list claim the cells
    10, 11 and 12. *)
Theorem cat_reseed_overlaps :
  exclusive catWorld /\
  match run demoPrefs ["cat"%string] (catWorld, 984%Q) [frameStart; frameFull; frameAfter] with
  | Some (w, _) =>
      (exists p q,
         World.words w !! 0%nat = Some p /\ World.words w !! 1%nat = Some q /\
         Placed.ref p <> Placed.ref q /\
         wordIdxs p = [10; 11; 12] /\
         wordIdxs q = [10; 11; 12]) /\
      ~ NoDup (claimedIdxs (World.words w))
  | None => False
  end.
Proof.
  split; [exact exclusive_catWorld |].
  vm_compute. split.
  - eexists _, _. split; [reflexivity |]. split; [reflexivity |].
    split; [discriminate |]. split; reflexivity.
  - intros Hnd. apply NoDup_cons in Hnd as [Hnot _]. apply Hnot. set_solver.
Qed.





(** C10 (the fallback of [chooseWord]).  For a non-empty dictionary and any
    bounds, [chooseWord] returns a word of the dictionary, never
    [undefined]; when some word has its length within the bounds the
    returned word has, too; when none has, the choice falls back to the
    whole dictionary and the returned word is out of bounds.  The seeder
    places the word so chosen, and the scanner, which filters its
    candidates by the same bounds, never returns a candidate whose length
    is out of bounds. *)
Theorem chooseWord_fallback (DICTIONARY : list string) (rng : Rng) (minLen maxLen : Z) :
  DICTIONARY <> [] ->
  exists word,
    fst (chooseWord DICTIONARY rng minLen maxLen) = Some word /\
    In word DICTIONARY /\
    ((exists v, In v DICTIONARY /\ lengthWithin minLen maxLen v = true) ->
       lengthWithin minLen maxLen word = true) /\
    ((forall v, In v DICTIONARY -> lengthWithin minLen maxLen v = false) ->
       lengthWithin minLen maxLen word = false) /\
    (forall prefs w w',
       minWordLength prefs = minLen -> maxWordLength prefs = maxLen ->
       World.rng w = rng ->
       seedOneWord prefs DICTIONARY w = Some (true, w') ->
       exists p, World.words w' = World.words w ++ [p] /\ Placed.word p = word) /\
    (forall prefs w w' k,
       minWordLength prefs = minLen -> maxWordLength prefs = maxLen ->
       wordUnderSpotlight prefs w = Some (Some k, w') ->
       lengthWithin minLen maxLen (Cand.word k) = true).
Proof.
  intros Hne.
  destruct (chooseWord_source DICTIONARY rng minLen maxLen Hne) as (word & Hw & Hcases).
  exists word. split; [done |].
  split; [| split; [| split; [| split]]].
  - destruct Hcases as [[_ Hd] | Hf]; [done |]. by apply filter_In in Hf as [Hf _].
  - intros (v & Hv & Hlen). destruct Hcases as [[He _] | Hf].
    + assert (Hvin : In v (List.filter (lengthWithin minLen maxLen) DICTIONARY))
        by (apply filter_In; by split).
      rewrite He in Hvin. contradiction.
    + by apply filter_In in Hf as [_ Hf].
  - intros Hnone. apply Hnone. destruct Hcases as [[_ Hd] | Hf]; [done |].
    by apply filter_In in Hf as [Hf _].
  - intros prefs w w' <- <- <- Hseed.
    destruct (seedOneWord_word prefs DICTIONARY w w' Hseed) as (p & Hwords & Hp).
    exists p. split; [done |]. congruence.
  - intros prefs w w' k <- <-. apply wordUnderSpotlight_lengthWithin.
Qed.

Lemma chooseWord_fallback_witness :
  DICTIONARY_js <> [] /\
  exists word,
    fst (chooseWord DICTIONARY_js (World.rng blankWorld) 10 12) = Some word /\
    In word DICTIONARY_js /\
    lengthWithin 10 12 word = false /\
    exists w' p,
      seedOneWord longPrefs DICTIONARY_js blankWorld = Some (true, w') /\
      World.words w' = [p] /\ Placed.word p = word.
Proof.
  assert (Hne : DICTIONARY_js <> []) by discriminate.
  split; [exact Hne |].
  destruct (chooseWord_fallback DICTIONARY_js (World.rng blankWorld) 10 12 Hne)
    as (word & Hw & Hin & _ & Hout & Hseed & _).
  exists word. split; [exact Hw |]. split; [exact Hin |]. split.
  - apply Hout. intros v Hv. vm_compute in Hv.
    repeat (destruct Hv as [<- | Hv]; [reflexivity |]). contradiction.
  - destruct (seedOneWord longPrefs DICTIONARY_js blankWorld) as [[ok w'] |] eqn:Hs;
      [| vm_compute in Hs; discriminate].
    assert (Hok : ok = true).
    { assert (Hfst : fst <$> seedOneWord longPrefs DICTIONARY_js blankWorld = Some ok)
        by (by rewrite Hs).
      vm_compute in Hfst. by injection Hfst as <-. }
    subst ok.
    destruct (Hseed longPrefs blankWorld w' eq_refl eq_refl eq_refl Hs) as (p & Hwords & Hp).
    exists w', p. split; [reflexivity |]. split; [exact Hwords | exact Hp].
Defined.

(** * Further properties of the systems *)

(** ** The letters *)

(** X1.  [randomGridChar] returns one of the 26 lowercase letters: the
    index into the alphabet is never out of range. *)
Theorem randomGridChar_lowercase (rng : Rng) :
  exists i : nat,
    (i < 26)%nat /\
    fst (randomGridChar rng) = ascii_of_nat (97 + i) /\
    jsIndex alphabet (floorMul (fst (rngNext rng)) 26) = Some (fst (randomGridChar rng)).
Proof.
  unfold randomGridChar.
  pose proof (rngNext_range rng) as Hx. destruct (rngNext rng) as [x rng']. cbn [fst] in *.
  pose proof (floorMul_range x 26 Hx ltac:(lia)) as Hi.
  set (i := floorMul x 26) in *. exists (Z.to_nat i).
  split; [lia |]. unfold jsIndex. destruct (Z.ltb_spec i 0); [lia |].
  assert (Hcases : forall n : nat, (n < 26)%nat ->
            alphabet !! n = Some (ascii_of_nat (97 + n))).
  { intros n Hn. do 26 (destruct n as [| n]; [reflexivity |]). lia. }
  rewrite (Hcases (Z.to_nat i)) by lia. done.
Qed.

(** ** Prefixes in the tree *)

Lemma walks_cons (node : Trie.node) (ch : ascii) (w : string) :
  walks node (String ch w) =
  match Trie.c node !! ch with Some n => walks n w | None => false end.
Proof. unfold walks; cbn [walk]. by destruct (Trie.c node !! ch). Qed.

Lemma prefix_cons (a b : ascii) (w v : string) :
  String.prefix (String a w) (String b v) = if Ascii.eqb a b then String.prefix w v else false.
Proof.
  cbn [String.prefix]. destruct (ascii_dec a b) as [-> | Hne].
  - by rewrite Ascii.eqb_refl.
  - destruct (Ascii.eqb_spec a b); [done | done].
Qed.

Lemma walks_emptyNode (w v : string) : walks emptyNode w || String.prefix w v = String.prefix w v.
Proof. destruct w as [| ch w]; [by destruct v | done]. Qed.

Lemma walks_insertWord (w' : string) :
  forall (node : Trie.node) (w : string),
    walks (insertWord w' node) w = walks node w || String.prefix w w'.
Proof.
  induction w' as [| ch' w' IH]; intros node w.
  - destruct w as [| ch w]; [done |]. rewrite !walks_cons. cbn [insertWord Trie.c].
    cbn [String.prefix]. by rewrite orb_false_r.
  - destruct w as [| ch w]; [done |].
    cbn [insertWord]. rewrite !walks_cons, prefix_cons. cbn [Trie.c].
    destruct (Ascii.eqb_spec ch ch') as [-> | Hne].
    + rewrite lookup_insert_eq, IH.
      destruct (Trie.c node !! ch'); [done | apply walks_emptyNode].
    + rewrite lookup_insert_ne by congruence. by rewrite orb_false_r.
Qed.

Lemma walks_fold (words : list string) :
  forall (node : Trie.node) (w : string),
    walks (fold_left (fun root w => insertWord w root) words node) w
    = walks node w || existsb (String.prefix w) words.
Proof.
  induction words as [| w0 words IH]; intros node w; cbn [fold_left existsb].
  - by rewrite orb_false_r.
  - by rewrite IH, walks_insertWord, orb_assoc.
Qed.

Lemma walk_app_None (w rest : string) :
  forall node, walk node w = None -> walk node (w +:+ rest) = None.
Proof.
  induction w as [| ch w IH]; intros node; [done |].
  change (String ch w +:+ rest) with (String ch (w +:+ rest)). cbn [walk].
  destruct (Trie.c node !! ch); [apply IH | done].
Qed.

(** X2.  The walk from the root of [buildTrie(words)] along a string finds
    a node exactly when the string is empty or a prefix of a word of the
    list; and once a walk has stopped at a missing child, no longer string
    is accepted, which is what lets the scanner break off a start. *)
Theorem buildTrie_walk_prefix (words : list string) (w : string) :
  (walk (buildTrie words) w <> None <->
   w = EmptyString \/ exists v, In v words /\ String.prefix w v = true) /\
  (walk (buildTrie words) w = None ->
   forall rest, accepts (buildTrie words) (w +:+ rest) = false).
Proof.
  split.
  - pose proof (walks_fold words emptyNode w) as Hw. fold (buildTrie words) in Hw.
    unfold walks in Hw at 1. split.
    + intros Hsome. destruct (walk (buildTrie words) w); [| done].
      symmetry in Hw. apply orb_true_iff in Hw as [Hempty | Hex].
      * left. by destruct w.
      * right. by apply existsb_exists in Hex.
    + intros Hcases Hnone. rewrite Hnone in Hw. symmetry in Hw.
      apply orb_false_iff in Hw as [Hempty Hex].
      destruct Hcases as [-> | Hpre]; [done |].
      apply existsb_exists in Hpre. congruence.
  - intros Hnone rest. unfold accepts. by rewrite walk_app_None.
Qed.

(** ** Selection among the candidates *)

Lemma sortByLength_nil (l : list Cand.t) : sortByLength l = [] -> l = [].
Proof.
  intros Hs. destruct l as [| a l]; [done |].
  assert (Hin : In a (sortByLength (a :: l))) by (apply In_sortByLength; by left).
  by rewrite Hs in Hin.
Qed.

(** The sort puts a longest word first. *)
Lemma sortByLength_head (l : list Cand.t) :
  forall k0 rest, sortByLength l = k0 :: rest ->
    forall k, In k l -> strLen (Cand.word k) <= strLen (Cand.word k0).
Proof.
  induction l as [| a l IH]; intros k0 rest Hs k Hk; [done |].
  unfold sortByLength in Hs. cbn [foldr] in Hs. fold (sortByLength l) in Hs.
  destruct (sortByLength l) as [| b l'] eqn:Hl.
  - apply sortByLength_nil in Hl as ->. cbn in Hs. injection Hs as <- _.
    destruct Hk as [<- | []]. lia.
  - cbn [insertByLength] in Hs. specialize (IH b l' eq_refl).
    destruct (Z.ltb_spec (strLen (Cand.word a)) (strLen (Cand.word b))) as [Hlt | Hge];
      injection Hs as <- _; destruct Hk as [<- | Hk]; try lia.
    + by apply IH.
    + specialize (IH k Hk). lia.
Qed.

(** X3.  What the scanner selects.  It returns no word exactly when no
    candidate of the scan has a length within the configured bounds, and
    then it does not touch the generator; otherwise it returns a candidate
    of the scan whose length is within the bounds and which is as long as
    any such candidate, and it has drawn once (the tie-break). *)
Theorem wordUnderSpotlight_longest (prefs : Prefs) (w : World.t) (candidates : list Cand.t) :
  scanCandidates prefs w = Some candidates ->
  exists (res : option Cand.t) (w' : World.t),
    wordUnderSpotlight prefs w = Some (res, w') /\
    match res with
    | None =>
        (forall k, In k candidates ->
           lengthWithin (minWordLength prefs) (maxWordLength prefs) (Cand.word k) = false) /\
        World.rng w' = World.rng w
    | Some k =>
        In k candidates /\
        lengthWithin (minWordLength prefs) (maxWordLength prefs) (Cand.word k) = true /\
        (forall k', In k' candidates ->
           lengthWithin (minWordLength prefs) (maxWordLength prefs) (Cand.word k') = true ->
           strLen (Cand.word k') <= strLen (Cand.word k)) /\
        World.rng w' = snd (rngNext (World.rng w))
    end.
Proof.
  intros Hscan. unfold wordUnderSpotlight. rewrite Hscan. cbn [mbind option_bind].
  set (within := fun k : Cand.t =>
         lengthWithin (minWordLength prefs) (maxWordLength prefs) (Cand.word k)).
  set (filtered := List.filter within candidates).
  destruct (sortByLength filtered) as [| k0 sorted] eqn:Hs.
  - eexists None, _. split; [reflexivity |]. split; [| done].
    intros k Hk. apply sortByLength_nil in Hs.
    destruct (within k) eqn:Hw; [| done].
    assert (Hin : In k filtered) by (apply filter_In; by split). by rewrite Hs in Hin.
  - set (longest := List.filter _ (k0 :: sorted)).
    assert (Hk0 : In k0 longest).
    { apply filter_In. split; [by left |]. apply Z.eqb_refl. }
    cbn [World.rng World.set_nextRef].
    pose proof (rngNext_range (World.rng w)) as Hx.
    destruct (rngNext (World.rng w)) as [x rng]. cbn [fst snd] in *.
    destruct (jsIndex_Some longest (floorMul x (Z.of_nat (length longest)))) as (k & Hk & Hin).
    { apply floorMul_range; [done |]. destruct longest; [done | cbn [length]; lia]. }
    eexists (Some k), _. rewrite Hk. split; [reflexivity |].
    apply filter_In in Hin as [Hin Hlen]. apply Z.eqb_eq in Hlen.
    rewrite <- Hs in Hin. apply (proj1 (In_sortByLength _ _)) in Hin.
    apply filter_In in Hin as [Hin Hw].
    split; [done |]. split; [done |]. split; [| done].
    intros k' Hk' Hw'. rewrite Hlen.
    apply (sortByLength_head filtered k0 sorted Hs). apply filter_In. by split.
Qed.

Lemma wordUnderSpotlight_longest_witness :
  scanCandidates demoPrefs catWorld = Some [catCand] /\
  exists w', wordUnderSpotlight demoPrefs catWorld = Some (Some catCand, w').
Proof.
  assert (Hscan : scanCandidates demoPrefs catWorld = Some [catCand])
    by (vm_compute; reflexivity).
  split; [exact Hscan |].
  destruct (wordUnderSpotlight_longest demoPrefs catWorld [catCand] Hscan)
    as (res & w' & Hw & Hres).
  destruct res as [k |].
  - destruct Hres as (Hin & _). destruct Hin as [<- | []]. by exists w'.
  - destruct Hres as [Hnone _]. specialize (Hnone catCand (or_introl eq_refl)).
    vm_compute in Hnone. discriminate.
Defined.

(** ** The capture machine: start and release *)

(** X4.  An Idle machine.  With the button down and a word under the
    spotlight the hold starts: the machine is Holding on that word from
    [now] on, with no progress yet.  With the button up, or no word under
    the spotlight, it stays Idle.  Either way nothing is committed: cells,
    active words and sentence are as before. *)
Theorem updateCapture_idle (prefs : Prefs) (w : World.t) (now : Q) :
  wfWorld w ->
  Capture.active (World.capture w) = false ->
  exists (live : option Cand.t) (w1 w' : World.t),
    wordUnderSpotlight prefs w = Some (live, w1) /\
    updateCapture prefs w now = Some w' /\
    World.capture w' =
      match live with
      | Some k =>
          if Mouse.down (World.mouse w)
          then Capture.mk true now (Some k) 0 (Some (candidateKey (Some k)))
          else Capture.mk false (Capture.startMs (World.capture w)) None 0 (Some EmptyString)
      | None => Capture.mk false (Capture.startMs (World.capture w)) None 0 (Some EmptyString)
      end /\
    World.cells w' = World.cells w /\
    World.words w' = World.words w /\
    World.sentence w' = World.sentence w.
Proof.
  intros Hwf Hidle.
  destruct (wordUnderSpotlight_Some prefs w Hwf) as (live & rng & ref & Hlive).
  exists live, (World.set_rng rng (World.set_nextRef ref w)).
  unfold updateCapture. rewrite Hlive. cbn [mbind option_bind].
  cbn [World.capture World.mouse World.set_rng World.set_nextRef].
  rewrite Hidle.
  assert (Hcur : match Capture.wordUnderSpot (World.capture w) with
                 | Some _ => live
                 | None => live
                 end = live) by by destruct (Capture.wordUnderSpot _).
  rewrite Hcur. clear Hcur.
  destruct live as [k |]; [destruct (Mouse.down (World.mouse w)) |];
    cbn [negb orb]; eexists; (split; [reflexivity |]); (split; [reflexivity |]); done.
Qed.

Lemma updateCapture_idle_witness :
  wfWorld pressedWorld /\
  Capture.active (World.capture pressedWorld) = false /\
  exists w',
    updateCapture demoPrefs pressedWorld (10003 # 10) = Some w' /\
    World.capture w' =
      Capture.mk true (10003 # 10) (Some catCand) 0 (Some (candidateKey (Some catCand))) /\
    World.sentence w' = [].
Proof.
  assert (Hwf : wfWorld pressedWorld) by exact wfWorld_catWorld.
  split; [exact Hwf |]. split; [reflexivity |].
  destruct (updateCapture_idle demoPrefs pressedWorld (10003 # 10) Hwf eq_refl)
    as (live & w1 & w' & Hlive & Hupd & Hcap & _ & _ & Hs).
  assert (Hfst : fst <$> wordUnderSpotlight demoPrefs pressedWorld = Some live)
    by (by rewrite Hlive).
  vm_compute in Hfst. injection Hfst as <-.
  exists w'. split; [exact Hupd |]. split; [exact Hcap | by rewrite Hs].
Defined.

(** X5.  Releasing the button cancels: with the button up the machine is
    Idle after the update whatever its state was and however long the hold
    has lasted, and nothing is committed. *)
Theorem updateCapture_button_up (prefs : Prefs) (w : World.t) (now : Q) :
  wfWorld w ->
  Mouse.down (World.mouse w) = false ->
  exists w' : World.t,
    updateCapture prefs w now = Some w' /\
    World.capture w' =
      Capture.mk false (Capture.startMs (World.capture w)) None 0 (Some EmptyString) /\
    World.cells w' = World.cells w /\
    World.words w' = World.words w /\
    World.sentence w' = World.sentence w.
Proof.
  intros Hwf Hup.
  destruct (wordUnderSpotlight_Some prefs w Hwf) as (live & rng & ref & Hlive).
  unfold updateCapture. rewrite Hlive. cbn [mbind option_bind].
  cbn [World.capture World.mouse World.set_rng World.set_nextRef]. rewrite Hup.
  eexists. split.
  - by destruct (match Capture.wordUnderSpot (World.capture w) with
                 | Some k => if Capture.active (World.capture w) then Some k else live
                 | None => live
                 end).
  - done.
Qed.

Lemma updateCapture_button_up_witness :
  wfWorld letGoWorld /\
  Capture.active (World.capture letGoWorld) = true /\
  exists w',
    updateCapture demoPrefs letGoWorld 5000 = Some w' /\
    Capture.active (World.capture w') = false /\
    World.sentence w' = [].
Proof.
  assert (Hwf : wfWorld letGoWorld) by exact wfWorld_heldWorld.
  split; [exact Hwf |]. split; [reflexivity |].
  destruct (updateCapture_button_up demoPrefs letGoWorld 5000 Hwf eq_refl)
    as (w' & Hupd & Hcap & _ & _ & Hs).
  exists w'. split; [exact Hupd |]. split; [by rewrite Hcap | by rewrite Hs].
Defined.

(** ** Commit and eviction, cell by cell *)

Lemma jsIndex_insert {A} (l : list A) (i j : Z) (x : A) :
  0 <= i < Z.of_nat (length l) ->
  jsIndex (<[Z.to_nat i := x]> l) j = if j =? i then Some x else jsIndex l j.
Proof.
  intros Hi. unfold jsIndex. destruct (Z.eqb_spec j i) as [-> | Hne].
  - destruct (Z.ltb_spec i 0); [lia |]. apply list_lookup_insert_eq. lia.
  - destruct (Z.ltb_spec j 0); [done |]. apply list_lookup_insert_ne. lia.
Qed.

Lemma among_cons (idx i : Z) (idxs : list Z) :
  among idx (i :: idxs) = (idx =? i) || among idx idxs.
Proof. done. Qed.

Lemma releasePart_fold_None (parts : list Seg.t) : fold_left releasePart parts None = None.
Proof. induction parts as [| p parts IH]; [done | exact IH]. Qed.

Lemma releasePart_fold_cells (parts : list Seg.t) :
  forall cells cells' : list Cell.t,
    fold_left releasePart parts (Some cells) = Some cells' ->
    forall idx,
      jsIndex cells' idx =
      if among idx (map Seg.idx parts) then released <$> jsIndex cells idx else jsIndex cells idx.
Proof.
  induction parts as [| p parts IH]; intros cells cells' Hfold idx.
  - by injection Hfold as <-.
  - cbn [fold_left] in Hfold. unfold releasePart at 2 in Hfold. cbn [mbind option_bind] in Hfold.
    destruct (jsIndex cells (Seg.idx p)) as [cell |] eqn:Hp;
      [| cbn in Hfold; by rewrite releasePart_fold_None in Hfold].
    cbn [mbind option_bind] in Hfold. fold (released cell) in Hfold.
    rewrite (IH _ _ Hfold idx). cbn [map]. rewrite among_cons.
    rewrite jsIndex_insert by (by apply jsIndex_Some_range in Hp).
    destruct (Z.eqb_spec idx (Seg.idx p)) as [-> | Hne]; cbn [orb].
    + rewrite Hp. by destruct (among _ _).
    + done.
Qed.

Lemma releasePart_fold_invalid (parts : list Seg.t) :
  forall cells : list Cell.t,
    ~ Forall (validPart cells) parts ->
    fold_left releasePart parts (Some cells) = None.
Proof.
  induction parts as [| p parts IH]; intros cells Hbad.
  - destruct Hbad. constructor.
  - cbn [fold_left]. unfold releasePart at 2. cbn [mbind option_bind].
    destruct (jsIndex cells (Seg.idx p)) as [cell |] eqn:Hp;
      [| cbn; apply releasePart_fold_None].
    cbn [mbind option_bind]. apply IH. intros Hall. apply Hbad.
    pose proof (jsIndex_Some_range _ _ _ Hp) as Hrange.
    constructor; [exact Hrange |].
    eapply Forall_impl; [exact Hall |]. intros q Hq. unfold validPart in *.
    by rewrite length_insert in Hq.
Qed.

(** X6.  What a commit does to the grid.  When every cell index of the
    captured word is on the grid, [finalizeCapture] returns, and then each
    cell of the word is unlocked and sent fading out with its staged
    character dropped (what it shows and its fade level are as before: the
    letters fade away rather than vanish), every other cell is as it was,
    and the word is appended to the sentence.  When an index is off the
    grid the function throws, whatever the other arguments. *)
Theorem finalizeCapture_cells (prefs : Prefs) (w : World.t) (k : Cand.t) :
  (validCand (World.cells w) k ->
   exists w',
     finalizeCapture prefs w k = Some w' /\
     (forall idx,
        jsIndex (World.cells w') idx =
        if among idx (map Seg.idx (Cand.cells k))
        then released <$> jsIndex (World.cells w) idx
        else jsIndex (World.cells w) idx) /\
     World.sentence w' = pushCapped prefs (World.sentence w) (Cand.word k)) /\
  (~ validCand (World.cells w) k -> finalizeCapture prefs w k = None).
Proof.
  split.
  - intros Hvalid.
    destruct (releasePart_fold (Cand.cells k) (World.cells w) Hvalid) as (cells' & Hfold & _).
    unfold finalizeCapture. rewrite Hfold. cbn [mbind option_bind].
    pose proof (releasePart_fold_cells _ _ _ Hfold) as Hcells.
    destruct (indexOfRef _ _); eexists; (split; [reflexivity |]); by split.
  - intros Hbad. unfold finalizeCapture.
    by rewrite releasePart_fold_invalid.
Qed.

Lemma unlockPart_fold_cells (parts : list Part.t) :
  forall (cells : list Cell.t) (idx : Z),
    jsIndex (fold_left unlockPart parts cells) idx =
    if among idx (map Part.idx parts)
    then Cell.set_locked false <$> jsIndex cells idx
    else jsIndex cells idx.
Proof.
  induction parts as [| p parts IH]; intros cells idx; [done |].
  cbn [fold_left map]. rewrite among_cons, IH.
  unfold unlockPart. destruct (jsIndex cells (Part.idx p)) as [cell |] eqn:Hp.
  - rewrite jsIndex_insert by (by apply jsIndex_Some_range in Hp).
    destruct (Z.eqb_spec idx (Part.idx p)) as [-> | Hne]; cbn [orb]; [| done].
    rewrite Hp. by destruct (among _ _).
  - destruct (Z.eqb_spec idx (Part.idx p)) as [-> | Hne]; cbn [orb]; [| done].
    rewrite Hp. by destruct (among _ _).
Qed.

(** X7.  [dropOldestWord] never throws.  On an empty list it does
    nothing.  Otherwise it removes the first (oldest) word, and of the grid
    it changes the lock flags of that word's cells only: their characters,
    fades and staged letters stay, so a letter of the dropped word that was
    staged still comes up; an index off the grid is skipped. *)
Theorem dropOldestWord_cells (w : World.t) :
  match World.words w with
  | [] => dropOldestWord w = w
  | pw :: rest =>
      World.words (dropOldestWord w) = rest /\
      length (World.cells (dropOldestWord w)) = length (World.cells w) /\
      forall idx,
        jsIndex (World.cells (dropOldestWord w)) idx =
        if among idx (wordIdxs pw)
        then Cell.set_locked false <$> jsIndex (World.cells w) idx
        else jsIndex (World.cells w) idx
  end.
Proof.
  unfold dropOldestWord. destruct (World.words w) as [| pw rest]; [done |].
  cbn [World.words World.cells World.set_cells World.set_words].
  split; [done |]. split; [apply unlockPart_length |].
  intros idx. apply unlockPart_fold_cells.
Qed.

(** ** The population of active words *)

Lemma evictLoop_drop (prefs : Prefs) (fuel : nat) :
  forall w : World.t,
    0 < maxActiveWords prefs ->
    (length (World.words w) < fuel)%nat ->
    exists w',
      evictLoop prefs fuel w = Some w' /\
      World.words w' =
        drop (length (World.words w) - Z.to_nat (maxActiveWords prefs)) (World.words w) /\
      ((Z.of_nat (length (World.words w)) <= maxActiveWords prefs) -> w' = w).
Proof.
  induction fuel as [| fuel IH]; intros w Hmax Hfuel; [lia |].
  cbn [evictLoop]. unfold overMax.
  destruct (Z.eqb_spec (maxActiveWords prefs) 0) as [Hz | _]; [lia |].
  destruct (Z.gtb_spec (Z.of_nat (length (World.words w))) (maxActiveWords prefs)) as [Hover | Hin].
  - destruct (World.words w) as [| pw rest] eqn:Hwords; [cbn in Hover; lia |].
    cbn [length] in *.
    destruct (IH (dropOldestWord w) Hmax) as (w' & Hloop & Hdrop & _).
    { unfold dropOldestWord. rewrite Hwords. cbn. lia. }
    exists w'. split; [exact Hloop |]. split; [| lia].
    rewrite Hdrop. unfold dropOldestWord. rewrite Hwords.
    cbn [World.words World.set_cells World.set_words].
    replace (S (length rest) - Z.to_nat (maxActiveWords prefs))%nat
      with (S (length rest - Z.to_nat (maxActiveWords prefs)))%nat by lia.
    done.
  - exists w. split; [done |]. split; [| done].
    replace (length (World.words w) - Z.to_nat (maxActiveWords prefs))%nat with 0%nat by lia.
    done.
Qed.

Lemma evictLoop_negative (prefs : Prefs) (fuel : nat) :
  forall w : World.t, maxActiveWords prefs < 0 -> evictLoop prefs fuel w = None.
Proof.
  induction fuel as [| fuel IH]; intros w Hneg; cbn [evictLoop]; unfold overMax;
    destruct (Z.eqb_spec (maxActiveWords prefs) 0) as [Hz | _]; try lia;
    destruct (Z.gtb_spec (Z.of_nat (length (World.words w))) (maxActiveWords prefs)); try lia.
  - done.
  - by apply IH.
Qed.

(** X8.  The eviction loop of [ensureWordSeeding] under a positive
    maximum ends, and it keeps the newest words: what is left of the active
    list is its last [maxActiveWords] entries, in order (the whole list, and
    an unchanged world, when the list was within the maximum).  A maximum
    of [0] switches the limit off. *)
Theorem evictLoop_keeps_newest (prefs : Prefs) (w : World.t) (fuel : nat) :
  (length (World.words w) < fuel)%nat ->
  (0 < maxActiveWords prefs ->
   exists w',
     evictLoop prefs fuel w = Some w' /\
     World.words w' =
       drop (length (World.words w) - Z.to_nat (maxActiveWords prefs)) (World.words w) /\
     Z.of_nat (length (World.words w')) <= maxActiveWords prefs /\
     ((Z.of_nat (length (World.words w)) <= maxActiveWords prefs) -> w' = w)) /\
  (maxActiveWords prefs = 0 -> evictLoop prefs fuel w = Some w).
Proof.
  intros Hfuel. split.
  - intros Hmax. destruct (evictLoop_drop prefs fuel w Hmax Hfuel) as (w' & Hloop & Hdrop & Hsame).
    exists w'. split; [done |]. split; [done |]. split; [| done].
    rewrite Hdrop, length_drop. lia.
  - intros Hzero. destruct fuel as [| fuel]; [lia |]. cbn [evictLoop]. unfold overMax.
    by rewrite Hzero.
Qed.

Lemma evictLoop_keeps_newest_witness :
  (length (World.words crowdedWorld) < 5)%nat /\
  0 < maxActiveWords demoPrefs /\
  exists w',
    evictLoop demoPrefs 5 crowdedWorld = Some w' /\
    World.words w' = drop 1 (World.words crowdedWorld) /\
    length (World.words w') = 3%nat.
Proof.
  assert (Hfuel : (length (World.words crowdedWorld) < 5)%nat) by (vm_compute; lia).
  assert (Hmax : 0 < maxActiveWords demoPrefs) by reflexivity.
  split; [exact Hfuel |]. split; [exact Hmax |].
  destruct (evictLoop_keeps_newest demoPrefs crowdedWorld 5 Hfuel) as [Hpos _].
  destruct (Hpos Hmax) as (w' & Hloop & Hdrop & _).
  exists w'. split; [exact Hloop |]. split; [exact Hdrop |]. by rewrite Hdrop.
Defined.

(** X9.  A negative maximum hangs the frame: the eviction loop
    [while (world.words.length > prefs.maxActiveWords)] runs for ever, since
    dropping from an empty list does nothing; no number of iterations ends
    it, and [ensureWordSeeding] and [step] do not return. *)
Theorem negative_maximum_hangs (prefs : Prefs) (DICTIONARY : list string) (w : World.t) :
  maxActiveWords prefs < 0 ->
  (forall fuel, evictLoop prefs fuel w = None) /\
  (forall dt, ensureWordSeeding prefs DICTIONARY w dt = None) /\
  (forall lastMs f, step prefs DICTIONARY (w, lastMs) f = None).
Proof.
  intros Hneg. split; [intros fuel; by apply evictLoop_negative |]. split.
  - intros dt. unfold ensureWordSeeding. by rewrite evictLoop_negative.
  - intros lastMs f. unfold step, ensureWordSeeding. by rewrite evictLoop_negative.
Qed.

Lemma negative_maximum_hangs_witness :
  maxActiveWords hangPrefs < 0 /\
  ensureWordSeeding hangPrefs ["cat"%string] catWorld (16 # 1000) = None /\
  step hangPrefs ["cat"%string] (catWorld, 984%Q) frameStart = None.
Proof.
  assert (Hneg : maxActiveWords hangPrefs < 0) by reflexivity.
  split; [exact Hneg |].
  destruct (negative_maximum_hangs hangPrefs ["cat"%string] catWorld Hneg) as (_ & Hens & Hstep).
  split; [apply Hens | apply Hstep].
Defined.

Lemma seedAttempts_words (word : string) (n : nat) :
  forall (w w' : World.t) (ok : bool),
    seedAttempts n word w = Some (ok, w') ->
    if ok then exists p, World.words w' = World.words w ++ [p]
    else World.words w' = World.words w /\ World.cells w' = World.cells w.
Proof.
  induction n as [| n IH]; intros w w' ok; cbn [seedAttempts].
  - by intros [= <- <-].
  - destruct (rngNext (World.rng w)) as [x1 rng1]. cbn [World.rng World.grid World.set_rng].
    destruct (negb (Qltb x1 (1 # 2))).
    + destruct (rngNext rng1) as [x2 rng2].
      destruct (_ <? 0); [by intros [= <- <-] |].
      destruct (rngNext rng2) as [x3 rng3].
      destruct (negb (placementFree _ _ _ _ _)).
      * intros Hrec. by apply IH in Hrec.
      * unfold placeWord. destruct (fold_left _ _ _) as [[cells parts] |]; [| done].
        cbn [mbind option_bind]. intros [= <- <-]. by eexists.
    + destruct (rngNext rng1) as [x2 rng2].
      destruct (_ <? 0); [by intros [= <- <-] |].
      destruct (rngNext rng2) as [x3 rng3].
      destruct (negb (placementFree _ _ _ _ _)).
      * intros Hrec. by apply IH in Hrec.
      * unfold placeWord. destruct (fold_left _ _ _) as [[cells parts] |]; [| done].
        cbn [mbind option_bind]. intros [= <- <-]. by eexists.
Qed.

Lemma seedOneWord_words (prefs : Prefs) (DICTIONARY : list string) (w w' : World.t)
    (ok : bool) :
  seedOneWord prefs DICTIONARY w = Some (ok, w') ->
  if ok then exists p, World.words w' = World.words w ++ [p]
  else World.words w' = World.words w /\ World.cells w' = World.cells w.
Proof.
  unfold seedOneWord. destruct (chooseWord _ _ _ _) as [[word |] rng]; [| done].
  cbn [mbind option_bind]. intros Hseed. by apply seedAttempts_words in Hseed.
Qed.

Lemma seedLoop_bound (prefs : Prefs) (DICTIONARY : list string) (guard : nat) :
  forall w w' : World.t,
    minActiveWords prefs <= maxActiveWords prefs ->
    Z.of_nat (length (World.words w)) <= maxActiveWords prefs ->
    seedLoop prefs DICTIONARY guard w = Some w' ->
    Z.of_nat (length (World.words w')) <= maxActiveWords prefs.
Proof.
  induction guard as [| guard IH]; intros w w' Hmm Hlen; cbn [seedLoop].
  - destruct (_ <? _); by intros [= <-].
  - destruct (Z.ltb_spec (Z.of_nat (length (World.words w))) (minActiveWords prefs)) as [Hlow | _];
      [| by intros [= <-]].
    destruct (seedOneWord prefs DICTIONARY w) as [[ok w1] |] eqn:Hseed; [| done].
    apply seedOneWord_words in Hseed. destruct ok.
    + destruct Hseed as (p & Hp). apply IH; [done |]. rewrite Hp, length_app. cbn. lia.
    + destruct Hseed as [Hw _]. intros [= <-]. by rewrite Hw.
Qed.

(** X10.  The population bound.  With a non-empty dictionary, a positive
    maximum and a minimum that does not exceed it, [ensureWordSeeding]
    returns, and afterwards the number of active words is within the
    maximum, however many words there were before. *)
Theorem ensureWordSeeding_within_maximum (prefs : Prefs) (DICTIONARY : list string)
    (w : World.t) (dt : Q) :
  DICTIONARY <> [] ->
  0 < maxActiveWords prefs ->
  minActiveWords prefs <= maxActiveWords prefs ->
  exists w',
    ensureWordSeeding prefs DICTIONARY w dt = Some w' /\
    Z.of_nat (length (World.words w')) <= maxActiveWords prefs.
Proof.
  intros Hne Hmax Hmm.
  destruct (ensureWordSeeding_Some prefs DICTIONARY w dt Hne ltac:(lia)) as (w' & Hens & _).
  exists w'. split; [exact Hens |].
  unfold ensureWordSeeding in Hens.
  destruct (evictLoop_drop prefs (S (length (World.words w))) w Hmax ltac:(lia))
    as (w1 & Hevict & Hdrop & _).
  rewrite Hevict in Hens. cbn [mbind option_bind] in Hens.
  assert (Hlen1 : Z.of_nat (length (World.words w1)) <= maxActiveWords prefs).
  { rewrite Hdrop, length_drop. lia. }
  destruct (seedLoop prefs DICTIONARY 20 w1) as [w2 |] eqn:Hloop; [| done].
  cbn [mbind option_bind] in Hens.
  pose proof (seedLoop_bound prefs DICTIONARY 20 w1 w2 Hmm Hlen1 Hloop) as Hlen2.
  unfold underMax in Hens.
  destruct (Z.eqb_spec (maxActiveWords prefs) 0) as [Hz | _]; [lia |].
  destruct (Z.ltb_spec (Z.of_nat (length (World.words w2))) (maxActiveWords prefs)) as [Hunder | _];
    [| by injection Hens as <-].
  destruct (rngNext (World.rng w2)) as [x rng].
  destruct (Qltb x _); [| by injection Hens as <-].
  destruct (seedOneWord prefs DICTIONARY (World.set_rng rng w2)) as [[ok w3] |] eqn:Hseed; [| done].
  cbn [mbind option_bind] in Hens. injection Hens as <-.
  apply seedOneWord_words in Hseed. cbn [World.words World.set_rng] in Hseed. destruct ok.
  - destruct Hseed as (p & Hp). rewrite Hp, length_app. cbn [length]. lia.
  - destruct Hseed as [Hw _]. rewrite Hw. lia.
Qed.

Lemma ensureWordSeeding_within_maximum_witness :
  DICTIONARY_js <> [] /\
  0 < maxActiveWords prefs_js /\
  minActiveWords prefs_js <= maxActiveWords prefs_js /\
  exists w',
    ensureWordSeeding prefs_js DICTIONARY_js blankWorld (16 # 1000) = Some w' /\
    Z.of_nat (length (World.words w')) <= 40.
Proof.
  assert (Hne : DICTIONARY_js <> []) by discriminate.
  assert (Hmax : 0 < maxActiveWords prefs_js) by reflexivity.
  assert (Hmm : minActiveWords prefs_js <= maxActiveWords prefs_js) by (vm_compute; discriminate).
  split; [exact Hne |]. split; [exact Hmax |]. split; [exact Hmm |].
  exact (ensureWordSeeding_within_maximum prefs_js DICTIONARY_js blankWorld (16 # 1000)
           Hne Hmax Hmm).
Defined.

(** X11.  An empty dictionary makes seeding throw ([chooseWord] returns
    [undefined], whose length is read): every call of [seedOneWord] does,
    and so does the first frame of a world without words when the minimum
    number of active words is positive. *)
Theorem empty_dictionary_throws (prefs : Prefs) (w : World.t) :
  seedOneWord prefs [] w = None /\
  (0 < minActiveWords prefs -> 0 <= maxActiveWords prefs -> World.words w = [] ->
   forall lastMs f, step prefs [] (w, lastMs) f = None).
Proof.
  assert (Hseed : forall w0, seedOneWord prefs [] w0 = None).
  { intros w0. unfold seedOneWord, chooseWord. cbn [List.filter].
    destruct (rngNext (World.rng w0)) as [x rng]. unfold jsIndex.
    by destruct (_ <? 0). }
  split; [apply Hseed |].
  intros Hmin Hmax Hwords lastMs f. unfold step.
  set (wa := World.set_mouse (Frame.pointer f) w).
  pose proof (updateLetters_keeps prefs wa (frameDt (Frame.now f) lastMs) (Frame.nowLetters f))
    as Hk.
  set (wb := updateLetters prefs wa _ _) in *.
  assert (Hwb : World.words wb = []).
  { destruct (World.words wb) as [| p rest] eqn:Hb; [done |].
    destruct Hk as (_ & _ & _ & _ & _ & Hn & Hin).
    destruct (Hin p) as [Hp | Hp]; [rewrite Hb; by left | | ].
    - subst wa. cbn in Hp. by rewrite Hwords in Hp.
    - assert (World.nextRef wb = World.nextRef wa).
      { subst wb. unfold updateLetters. by destruct (updateCells _ _ _ _ _). }
      lia. }
  unfold ensureWordSeeding.
  assert (Hevict : evictLoop prefs (S (length (World.words wb))) wb = Some wb).
  { cbn [evictLoop]. unfold overMax. rewrite Hwb. cbn [length].
    destruct (maxActiveWords prefs =? 0); [done |].
    by destruct (Z.gtb_spec (Z.of_nat 0) (maxActiveWords prefs)); [lia |]. }
  rewrite Hevict. cbn [mbind option_bind seedLoop]. rewrite Hwb. cbn [length].
  destruct (Z.ltb_spec (Z.of_nat 0) (minActiveWords prefs)); [| lia].
  by rewrite Hseed.
Qed.

(** ** What a placement does *)

Lemma indexed_lookup (word : string) (n : nat) (i : Z) (ch : ascii) :
  indexed word !! n = Some (i, ch) <->
  i = Z.of_nat n /\ list_ascii_of_string word !! n = Some ch.
Proof.
  unfold indexed, strLen. rewrite <- length_list_ascii_of_string.
  set (l := list_ascii_of_string word).
  rewrite lookup_zip_with_Some. split.
  - intros (x & y & [= <- <-] & Hx & Hy). split; [| done].
    apply lookup_seqZ in Hx. lia.
  - intros [-> Hch]. exists (Z.of_nat n), ch. split; [done |]. split; [| done].
    apply lookup_seqZ. split; [lia |]. apply lookup_lt_Some in Hch. lia.
Qed.

Lemma placeLetters_staged (w : World.t) (r c : Z) (dir : Dir.t) (items : list (Z * ascii)) :
  forall cells parts cells' parts',
    NoDup (map (fun ich => runIndex w r c dir (fst ich)) items) ->
    (forall ich, In ich items ->
       exists cell, jsIndex cells (runIndex w r c dir (fst ich)) = Some cell /\
                    Cell.locked cell = false) ->
    fold_left (placeLetter w r c dir) items (Some (cells, parts)) = Some (cells', parts') ->
    parts' = parts ++ map (fun ich => partAt w r c dir (fst ich)) items /\
    (forall ich, In ich items ->
       exists cell, jsIndex cells (runIndex w r c dir (fst ich)) = Some cell /\
                    Cell.locked cell = false /\
                    jsIndex cells' (runIndex w r c dir (fst ich)) = Some (staged (snd ich) cell)).
Proof.
  induction items as [| [i ch] items IH]; intros cells parts cells' parts' Hnd Hfree Hfold.
  - injection Hfold as <- <-. split; [by rewrite app_nil_r | by intros ich []].
  - cbn [map fst] in Hnd. apply NoDup_cons in Hnd as [Hnotin Hnd].
    destruct (Hfree (i, ch) ltac:(by left)) as (cell & Hcell & Hunlocked). cbn [fst] in Hcell.
    cbn [fold_left] in Hfold. unfold placeLetter at 2 in Hfold.
    cbn [mbind option_bind] in Hfold. rewrite Hcell in Hfold. cbn [mbind option_bind] in Hfold.
    rewrite Hunlocked in Hfold. cbn [negb] in Hfold. fold (staged ch cell) in Hfold.
    set (idx := runIndex w r c dir i) in *.
    set (cells1 := <[Z.to_nat idx := staged ch cell]> cells) in *.
    pose proof (jsIndex_Some_range _ _ _ Hcell) as Hrange.
    assert (Hother : forall j, j <> idx -> jsIndex cells1 j = jsIndex cells j).
    { intros j Hj. subst cells1. rewrite jsIndex_insert by done.
      by destruct (Z.eqb_spec j idx). }
    assert (Hfree1 : forall ich, In ich items ->
              exists cell0, jsIndex cells1 (runIndex w r c dir (fst ich)) = Some cell0 /\
                            Cell.locked cell0 = false).
    { intros ich Hin. destruct (Hfree ich ltac:(by right)) as (cell0 & Hc0 & Hl0).
      exists cell0. split; [| done]. rewrite Hother; [done |].
      intros Heq. apply Hnotin. rewrite <- Heq. apply list_elem_of_In.
      apply (in_map (fun ich => runIndex w r c dir (fst ich))). exact Hin. }
    destruct (IH _ _ _ _ Hnd Hfree1 Hfold) as [Hparts Hcells].
    split.
    + rewrite Hparts. cbn [map fst]. rewrite <- app_assoc. cbn [app].
      unfold partAt. by destruct dir.
    + intros ich [<- | Hin].
      * cbn [fst snd]. exists cell. split; [done |]. split; [done |].
        destruct (placeLetters_cells _ _ _ _ _ _ _ _ _ Hfold) as [Hkeep _].
        rewrite Hkeep.
        -- subst cells1. rewrite jsIndex_insert by done. by rewrite Z.eqb_refl.
        -- intros Hin. apply Hnotin. by apply list_elem_of_In.
      * destruct (Hcells ich Hin) as (cell0 & Hc0 & Hl0 & Hs0).
        exists cell0. split; [| done]. rewrite <- Hother; [done |].
        intros Heq. apply Hnotin. rewrite <- Heq. apply list_elem_of_In.
        apply (in_map (fun ich => runIndex w r c dir (fst ich))). exact Hin.
Qed.

Lemma placeWord_staged (w w' : World.t) (word : string) (r c : Z) (dir : Dir.t) :
  Grid.cols (World.grid w) <> 0 ->
  placementFree w r c (strLen word) dir = true ->
  placeWord w word r c dir = Some w' ->
  World.words w' =
    World.words w ++
    [Placed.mk (World.nextRef w) word r c dir (map (partAt w r c dir) (seqZ 0 (strLen word)))] /\
  (forall (i : nat) (ch : ascii),
     list_ascii_of_string word !! i = Some ch ->
     exists cell,
       jsIndex (World.cells w) (runIndex w r c dir (Z.of_nat i)) = Some cell /\
       Cell.locked cell = false /\
       jsIndex (World.cells w') (runIndex w r c dir (Z.of_nat i)) = Some (staged ch cell)) /\
  (forall idx,
     (forall i, 0 <= i < strLen word -> idx <> runIndex w r c dir i) ->
     jsIndex (World.cells w') idx = jsIndex (World.cells w) idx).
Proof.
  intros Hcols Hfree. unfold placeWord.
  destruct (fold_left _ _ _) as [[cells' parts'] |] eqn:Hfold; [| done].
  cbn [mbind option_bind]. intros [= <-].
  cbn [World.words World.cells World.set_words World.set_nextRef World.set_cells].
  assert (Hnd : NoDup (map (fun ich => runIndex w r c dir (fst ich)) (indexed word))).
  { rewrite <- (map_map fst (runIndex w r c dir)), map_fst_indexed.
    apply NoDup_fmap_2; [by apply runIndex_inj | apply NoDup_seqZ]. }
  assert (Hunl : forall ich, In ich (indexed word) ->
            exists cell, jsIndex (World.cells w) (runIndex w r c dir (fst ich)) = Some cell /\
                         Cell.locked cell = false).
  { intros [i ch] Hin. cbn [fst].
    unfold placementFree in Hfree. rewrite forallb_forall in Hfree.
    assert (Hi : In i (seqZ 0 (strLen word))).
    { rewrite <- list_elem_of_In. apply list_elem_of_In in Hin.
      unfold indexed in Hin. by apply elem_of_zip_l in Hin. }
    specialize (Hfree i Hi).
    destruct (jsIndex (World.cells w) (runIndex w r c dir i)) as [cell |]; [| done].
    exists cell. split; [done |]. by destruct (Cell.locked cell). }
  destruct (placeLetters_staged _ _ _ _ _ _ _ _ _ Hnd Hunl Hfold) as [Hparts Hcells].
  split; [| split].
  - rewrite Hparts. cbn [app].
    by rewrite <- (map_map fst (partAt w r c dir)), map_fst_indexed.
  - intros i ch Hch.
    assert (Hin : In (Z.of_nat i, ch) (indexed word)).
    { apply list_elem_of_In. apply (list_elem_of_lookup_2 _ i). by apply indexed_lookup. }
    exact (Hcells _ Hin).
  - intros idx Hnot.
    destruct (placeLetters_cells _ _ _ _ _ _ _ _ _ Hfold) as [Hkeep _].
    apply Hkeep. rewrite <- (map_map fst (runIndex w r c dir)), map_fst_indexed.
    intros Hin. apply in_map_iff in Hin as (i & Hi & Hin).
    apply list_elem_of_In, elem_of_seqZ in Hin. apply (Hnot i); [lia | done].
Qed.

Lemma seedAttempts_outcome (word : string) (n : nat) :
  forall (w w' : World.t) (ok : bool),
    0 < Grid.rows (World.grid w) -> 0 < Grid.cols (World.grid w) ->
    seedAttempts n word w = Some (ok, w') ->
    if ok then exists r c dir, placedAt w w' word r c dir
    else World.words w' = World.words w /\ World.cells w' = World.cells w.
Proof.
  induction n as [| n IH]; intros w w' ok Hrows Hcols; cbn [seedAttempts].
  - by intros [= <- <-].
  - pose proof (rngNext_range (World.rng w)) as Hx1.
    destruct (rngNext (World.rng w)) as [x1 rng1]. cbn [World.rng World.grid World.set_rng].
    destruct (negb (Qltb x1 (1 # 2))).
    + pose proof (rngNext_range rng1) as Hx2. destruct (rngNext rng1) as [x2 rng2].
      destruct (Z.ltb_spec (Grid.cols (World.grid w) - strLen word) 0) as [Hsmall | Hfit];
        [by intros [= <- <-] |].
      pose proof (rngNext_range rng2) as Hx3. destruct (rngNext rng2) as [x3 rng3].
      cbn [fst] in *.
      set (w3 := World.set_rng rng3 _).
      set (r := floorMul x2 (Grid.rows (World.grid w))).
      set (c := floorMul x3 (Grid.cols (World.grid w) - strLen word + 1)).
      pose proof (floorMul_range x2 _ Hx2 Hrows) as Hr. fold r in Hr.
      pose proof (floorMul_range x3 (Grid.cols (World.grid w) - strLen word + 1) Hx3 ltac:(lia))
        as Hc. fold c in Hc.
      destruct (placementFree w3 r c (strLen word) Dir.H) eqn:Hfree; cbn [negb].
      * destruct (placeWord w3 word r c Dir.H) as [w4 |] eqn:Hplace; [| done].
        cbn [mbind option_bind]. intros [= <- <-].
        exists r, c, Dir.H.
        destruct (placeWord_staged w3 w4 word r c Dir.H ltac:(cbn; lia) Hfree Hplace)
          as (Hwords & Hcells & Hkeep).
        split; [lia |]. split; [lia |]. split; [split; lia |]. by split.
      * intros Hrec. exact (IH w3 w' ok Hrows Hcols Hrec).
    + pose proof (rngNext_range rng1) as Hx2. destruct (rngNext rng1) as [x2 rng2].
      destruct (Z.ltb_spec (Grid.rows (World.grid w) - strLen word) 0) as [Hsmall | Hfit];
        [by intros [= <- <-] |].
      pose proof (rngNext_range rng2) as Hx3. destruct (rngNext rng2) as [x3 rng3].
      cbn [fst] in *.
      set (w3 := World.set_rng rng3 _).
      set (c := floorMul x2 (Grid.cols (World.grid w))).
      set (r := floorMul x3 (Grid.rows (World.grid w) - strLen word + 1)).
      pose proof (floorMul_range x2 _ Hx2 Hcols) as Hc. fold c in Hc.
      pose proof (floorMul_range x3 (Grid.rows (World.grid w) - strLen word + 1) Hx3 ltac:(lia))
        as Hr. fold r in Hr.
      destruct (placementFree w3 r c (strLen word) Dir.V) eqn:Hfree; cbn [negb].
      * destruct (placeWord w3 word r c Dir.V) as [w4 |] eqn:Hplace; [| done].
        cbn [mbind option_bind]. intros [= <- <-].
        exists r, c, Dir.V.
        destruct (placeWord_staged w3 w4 word r c Dir.V ltac:(cbn; lia) Hfree Hplace)
          as (Hwords & Hcells & Hkeep).
        split; [lia |]. split; [lia |]. split; [split; lia |]. by split.
      * intros Hrec. exact (IH w3 w' ok Hrows Hcols Hrec).
Qed.

(** X12.  What a seeding does.  On a grid with at least one row and one
    column, a call of [seedOneWord] that returns [true] has placed the word
    that [chooseWord] drew, within the grid, in a row or down a column, as
    the new last entry of the active list; each cell of the word was free,
    and now it is locked and sent fading out with its letter staged (the
    letter is not shown yet: the branch of the placement loop that writes a
    letter at once is never taken), and no other cell has changed.  A call
    that returns [false] has changed neither the cells nor the words. *)
Theorem seedOneWord_outcome (prefs : Prefs) (DICTIONARY : list string) (w w' : World.t)
    (ok : bool) :
  0 < Grid.rows (World.grid w) -> 0 < Grid.cols (World.grid w) ->
  seedOneWord prefs DICTIONARY w = Some (ok, w') ->
  if ok then
    exists word r c dir,
      fst (chooseWord DICTIONARY (World.rng w) (minWordLength prefs) (maxWordLength prefs))
      = Some word /\
      placedAt w w' word r c dir
  else World.words w' = World.words w /\ World.cells w' = World.cells w.
Proof.
  intros Hrows Hcols. unfold seedOneWord.
  destruct (chooseWord _ _ _ _) as [[word |] rng]; [| done].
  cbn [mbind option_bind fst]. intros Hseed.
  apply seedAttempts_outcome in Hseed; [| done | done].
  destruct ok; [| exact Hseed].
  destruct Hseed as (r & c & dir & Hplaced). by exists word, r, c, dir.
Qed.

Lemma seedOneWord_outcome_witness :
  0 < Grid.rows (World.grid blankWorld) /\ 0 < Grid.cols (World.grid blankWorld) /\
  exists w' word r c dir,
    seedOneWord demoPrefs DICTIONARY_js blankWorld = Some (true, w') /\
    In word DICTIONARY_js /\
    placedAt blankWorld w' word r c dir.
Proof.
  assert (Hrows : 0 < Grid.rows (World.grid blankWorld)) by reflexivity.
  assert (Hcols : 0 < Grid.cols (World.grid blankWorld)) by reflexivity.
  split; [exact Hrows |]. split; [exact Hcols |].
  destruct (seedOneWord demoPrefs DICTIONARY_js blankWorld) as [[ok w'] |] eqn:Hs;
    [| vm_compute in Hs; discriminate].
  assert (Hok : ok = true).
  { assert (Hfst : fst <$> seedOneWord demoPrefs DICTIONARY_js blankWorld = Some ok)
      by (by rewrite Hs).
    vm_compute in Hfst. by injection Hfst as <-. }
  subst ok.
  destruct (seedOneWord_outcome demoPrefs DICTIONARY_js blankWorld w' true Hrows Hcols Hs)
    as (word & r & c & dir & Hword & Hplaced).
  exists w', word, r, c, dir. split; [reflexivity |]. split; [| exact Hplaced].
  unfold chooseWord in Hword. destruct (rngNext _) as [x rng]. cbn [fst] in Hword.
  apply jsIndex_In in Hword. destruct (List.filter _ _) eqn:Hf in Hword; [exact Hword |].
  rewrite <- Hf in Hword. by apply filter_In in Hword as [Hword _].
Defined.

(** ** The frame loop goes on *)

Lemma scanCandidates_valid (prefs : Prefs) (w : World.t) (candidates : list Cand.t) :
  wfWorld w ->
  scanCandidates prefs w = Some candidates ->
  Forall (validCand (World.cells w)) candidates.
Proof.
  intros Hwf Hscan. unfold scanCandidates in Hscan.
  destruct (computeInclude_spec prefs w Hwf) as (include & Hinc & _).
  rewrite Hinc in Hscan. cbn [mbind option_bind] in Hscan.
  assert (Hall : Forall (rowCandidate w include) candidates).
  { apply (scanRows_sound w include (seqZ 0 (Grid.rows (World.grid w))) [] candidates Hwf);
      [| constructor | exact Hscan].
    apply Forall_forall. intros r Hr. apply elem_of_seqZ in Hr. lia. }
  eapply Forall_impl; [exact Hall |].
  intros k (r & c & len & Hr & Hc & Hlen & Hfit & Hcells & _).
  unfold validCand. rewrite Hcells. unfold rowRun.
  apply Forall_map, Forall_forall. intros j Hj. apply elem_of_seqZ in Hj.
  unfold validPart, rowSeg. cbn [Seg.idx].
  apply getCellIndex_bounds; [done | done | lia].
Qed.

Lemma wordUnderSpotlight_valid (prefs : Prefs) (w w' : World.t) (k : Cand.t) :
  wfWorld w ->
  wordUnderSpotlight prefs w = Some (Some k, w') ->
  validCand (World.cells w) k.
Proof.
  intros Hwf. unfold wordUnderSpotlight.
  destruct (scanCandidates prefs w) as [candidates |] eqn:Hscan; [| done].
  cbn [mbind option_bind].
  pose proof (scanCandidates_valid prefs w candidates Hwf Hscan) as Hvalid.
  set (filtered := List.filter _ candidates).
  destruct (sortByLength filtered) as [| k0 sorted] eqn:Hs; [done |].
  set (longest := List.filter _ (k0 :: sorted)).
  assert (Hsub : forall k', In k' longest -> In k' (k0 :: sorted)).
  { intros k' Hk'. by apply filter_In in Hk' as [Hk' _]. }
  clearbody longest.
  destruct (rngNext _) as [x rng]. intros [= Hk _].
  apply jsIndex_In, Hsub in Hk.
  rewrite <- Hs in Hk. apply (proj1 (In_sortByLength _ _)) in Hk.
  subst filtered. apply filter_In in Hk as [Hk _].
  rewrite Forall_forall in Hvalid. apply Hvalid. by apply list_elem_of_In.
Qed.

Lemma sane_keeps (w w' : World.t) : keeps w w' -> sane w -> sane w'.
Proof.
  intros Hk (Hwf & Hact & Hval).
  pose proof (wfWorld_keeps _ _ Hk Hwf) as Hwf'.
  destruct Hk as (_ & Hcap & _ & _ & Hlen & _).
  split; [done |]. rewrite Hcap. split; [done |].
  intros k Hk. by apply (validCand_length (World.cells w)), Hval.
Qed.

Lemma updateCapture_sane (prefs : Prefs) (w : World.t) (now : Q) :
  sane w -> exists w', updateCapture prefs w now = Some w' /\ sane w'.
Proof.
  intros (Hwf & Hact & Hval).
  destruct (wordUnderSpotlight_Some prefs w Hwf) as (live & rng & ref & Hlive).
  assert (Hlivevalid : forall k, live = Some k -> validCand (World.cells w) k).
  { intros k ->. by eapply wordUnderSpotlight_valid. }
  unfold updateCapture. rewrite Hlive. cbn [mbind option_bind].
  cbn [World.capture World.mouse World.set_rng World.set_nextRef].
  set (w1 := World.set_rng rng (World.set_nextRef ref w)).
  set (cap := World.capture w) in *.
  assert (Hidle : sane (World.set_capture (idleCapture cap) w1)).
  { split; [done |]. split; [done | by intros k]. }
  set (current := match Capture.wordUnderSpot cap with
                  | Some k => if Capture.active cap then Some k else live
                  | None => live
                  end).
  assert (Hcur : forall k, current = Some k -> validCand (World.cells w) k).
  { intros k. subst current. destruct (Capture.wordUnderSpot cap) as [k0 |] eqn:Hspot.
    - destruct (Capture.active cap); [intros [= <-]; by apply Hval | apply Hlivevalid].
    - apply Hlivevalid. }
  destruct current as [cur |]; [| by eexists].
  destruct (Mouse.down (World.mouse w)); [| by eexists].
  destruct (negb (Capture.active cap) || keyDiffers (Capture.key cap) (candidateKey (Some cur)))
    eqn:Hstart.
  - eexists. split; [reflexivity |]. split; [done |]. split; [by eexists |].
    intros k [= <-]. by apply Hcur.
  - apply orb_false_iff in Hstart as [Hactive _]. apply negb_false_iff in Hactive.
    destruct (Hact Hactive) as (k & Hspot).
    destruct (Qle_bool 1 _).
    + rewrite Hspot. cbn [mbind option_bind].
      destruct (finalizeCapture_Some prefs w1 k (Hval k Hspot))
        as (w2 & Hfin & _ & Hlen & Hgrid & _).
      rewrite Hfin. cbn [mbind option_bind]. eexists. split; [reflexivity |].
      split; [| split; [done | by intros k']].
      destruct Hwf as (Hr & Hc & Hsize). unfold wfWorld.
      cbn [World.grid World.cells World.set_capture]. by rewrite Hgrid, Hlen.
    + eexists. split; [reflexivity |]. split; [done |]. split; [by exists k |].
      cbn [World.capture World.set_capture Capture.wordUnderSpot World.cells].
      exact Hval.
Qed.

Lemma step_sane (prefs : Prefs) (DICTIONARY : list string) (w : World.t) (lastMs : Q)
    (f : Frame.t) :
  DICTIONARY <> [] -> 0 <= maxActiveWords prefs ->
  sane w ->
  exists w', step prefs DICTIONARY (w, lastMs) f = Some (w', Frame.now f) /\ sane w'.
Proof.
  intros Hne Hmax Hsane. unfold step.
  set (wa := World.set_mouse (Frame.pointer f) w).
  assert (Hsa : sane wa) by done.
  pose proof (updateLetters_keeps prefs wa (frameDt (Frame.now f) lastMs) (Frame.nowLetters f))
    as Hkb.
  set (wb := updateLetters prefs wa _ _) in *.
  destruct (ensureWordSeeding_Some prefs DICTIONARY wb (frameDt (Frame.now f) lastMs) Hne Hmax)
    as (wc & -> & Hkc).
  cbn [mbind option_bind].
  assert (Hsc : sane wc) by (by eapply sane_keeps, sane_keeps).
  destruct (updateCapture_sane prefs wc (Frame.nowCapture f) Hsc) as (wd & -> & Hsd).
  cbn [mbind option_bind]. by exists wd.
Qed.

(** X13.  The frame loop goes on.  With a non-empty dictionary and a
    maximum of active words that is not negative, from a state whose grid
    is well formed and whose capture is consistent (as [createWorld] makes
    it, and as every frame leaves it), any sequence of frames, whatever the
    clock readings and the pointer do, runs to its end: no system of a
    frame (letters, seeding, scan, capture) throws and none of their loops
    runs for ever.  Drawing is not part of the model. *)
Theorem run_goes_on (prefs : Prefs) (DICTIONARY : list string) (frames : list Frame.t) :
  forall (w : World.t) (lastMs : Q),
    DICTIONARY <> [] -> 0 <= maxActiveWords prefs ->
    sane w ->
    exists w' lastMs',
      run prefs DICTIONARY (w, lastMs) frames = Some (w', lastMs') /\ sane w'.
Proof.
  induction frames as [| f frames IH] using rev_ind; intros w lastMs Hne Hmax Hsane.
  - by exists w, lastMs.
  - destruct (IH w lastMs Hne Hmax Hsane) as (w1 & l1 & Hrun & Hs1).
    destruct (step_sane prefs DICTIONARY w1 l1 f Hne Hmax Hs1) as (w2 & Hstep & Hs2).
    exists w2, (Frame.now f). rewrite run_snoc, Hrun. cbn [mbind option_bind]. by split.
Qed.

Lemma run_goes_on_witness :
  sane catWorld /\
  exists w' lastMs',
    run demoPrefs ["cat"%string] (catWorld, 984%Q) [frameStart; frameFull; frameAfter]
    = Some (w', lastMs') /\
    sane w'.
Proof.
  assert (Hsane : sane catWorld).
  { split; [exact wfWorld_catWorld |]. split; [discriminate | by intros k]. }
  split; [exact Hsane |].
  exact (run_goes_on demoPrefs ["cat"%string] [frameStart; frameFull; frameAfter]
           catWorld 984%Q ltac:(discriminate) ltac:(vm_compute; discriminate) Hsane).
Defined.

(** ** Instances of the invariants *)

Lemma capture_never_removes_witness :
  refsFresh catWorld /\
  run demoPrefs ["cat"%string] (catWorld, 984%Q) [frameStart] = Some (heldWorld, 1000%Q) /\
  exists w',
    updateCapture demoPrefs heldWorld (20003 # 10) = Some w' /\
    World.sentence w' = ["cat"%string] /\
    World.words w' = World.words heldWorld.
Proof.
  assert (Hfresh : refsFresh catWorld).
  { split; [| by intros k]. apply Forall_cons. split; [cbn; lia | constructor]. }
  assert (Hrun : run demoPrefs ["cat"%string] (catWorld, 984%Q) [frameStart]
                 = Some (heldWorld, 1000%Q)) by (vm_compute; reflexivity).
  split; [exact Hfresh |]. split; [exact Hrun |].
  destruct (updateCapture demoPrefs heldWorld (20003 # 10)) as [w' |] eqn:Hupd;
    [| vm_compute in Hupd; discriminate].
  exists w'. split; [reflexivity |].
  pose proof (capture_never_removes demoPrefs ["cat"%string] [frameStart] catWorld heldWorld w'
                984%Q 1000%Q (20003 # 10) ltac:(discriminate) ltac:(vm_compute; discriminate)
                Hfresh Hrun Hupd) as Hwords.
  split.
  - assert (Hs : World.sentence <$> updateCapture demoPrefs heldWorld (20003 # 10)
                 = Some (World.sentence w')) by (by rewrite Hupd).
    remember (World.sentence w') as sw eqn:Esw. clear Esw Hupd.
    vm_compute in Hs. by injection Hs as <-.
  - exact Hwords.
Defined.

Lemma run_exclusive_button_up_witness :
  wfWorld catWorld /\ exclusive catWorld /\
  exists w' lastMs',
    run demoPrefs ["cat"%string] (catWorld, 984%Q) [idleFrame 1000; idleFrame 1016]
    = Some (w', lastMs') /\
    exclusive w'.
Proof.
  split; [exact wfWorld_catWorld |]. split; [exact exclusive_catWorld |].
  destruct (run demoPrefs ["cat"%string] (catWorld, 984%Q) [idleFrame 1000; idleFrame 1016])
    as [[w' lastMs'] |] eqn:Hrun; [| vm_compute in Hrun; discriminate].
  exists w', lastMs'. split; [reflexivity |].
  assert (Hup : Forall (fun f => Mouse.down (Frame.pointer f) = false)
                  [idleFrame 1000; idleFrame 1016]).
  { apply Forall_cons. split; [reflexivity |]. apply Forall_cons. split; [reflexivity |].
    constructor. }
  exact (proj2 (run_exclusive_button_up demoPrefs ["cat"%string]
                  [idleFrame 1000; idleFrame 1016] catWorld w' 984%Q lastMs'
                  ltac:(discriminate) ltac:(vm_compute; discriminate)
                  wfWorld_catWorld exclusive_catWorld Hup Hrun)).
Defined.
